(** * driftscan / cylsim: beam-transfer bookkeeping of a transit telescope

    A shallow embedding of [cylsim/hputil.py] and [cylsim/cylinder.py].

    Numeric conventions used throughout:
    - a numpy [float64] is a real number ([R]): every floating operation is
      the exact one, rounding, infinities and NaN are not represented (where
      the source would meet one at a definite input, the case is written out);
    - a numpy [int64] is an integer ([Z]); int64 arithmetic writes its
      two's-complement wrap-around out ([wrap64]);
    - a [complex128] is a pair of reals;
    - a one-dimensional array is a [list], a two-dimensional one the list of
      its rows (always at least one row in the code modelled here);
    - a Python exception is a value of [exn] carried by [result].

    Part I holds the definitions, Part II the lemmas and theorems. *)

From Stdlib Require Import Reals ZArith List Lia Lra Bool Arith Permutation Sorted.
Import ListNotations.

Local Open Scope R_scope.

(** * Part I: the program *)

(** ** Exceptions *)

Inductive index_kind : Type := BaselineIndex | FrequencyIndex.

Inductive exn : Type :=
| InvalidIndex (k : index_kind)
    (* [Exception("Baseline indices aren't valid")],
       [Exception("Frequency indices aren't valid")] *)
| IndexError   (* an index outside an array or a Python list *)
| ValueError.  (* numpy shape mismatch, negative dimension, reduction of an
                  empty array, and Python 2's [(-1)**0.5] *)

Inductive result (A : Type) : Type :=
| Ok (a : A)
| Raise (e : exn).

Arguments Ok {A} a.
Arguments Raise {A} e.

Definition bind {A B : Type} (r : result A) (k : A -> result B) : result B :=
  match r with
  | Ok a => k a
  | Raise e => Raise e
  end.

Notation "x <- r ;; k" := (bind r (fun x => k))
  (at level 61, r at next level, right associativity).

Fixpoint mapM {A B : Type} (f : A -> result B) (l : list A) : result (list B) :=
  match l with
  | [] => Ok []
  | a :: l' => b <- f a ;; bs <- mapM f l' ;; Ok (b :: bs)
  end.

(** ** Scalars *)

Definition R_ltb (x y : R) : bool := if Rlt_dec x y then true else false.
Definition R_eqb (x y : R) : bool := if Req_dec_T x y then true else false.

Definition int64_min : Z := (- 2 ^ 63)%Z.
Definition int64_max : Z := (2 ^ 63 - 1)%Z.

(** The value an int64 operation stores for the exact result [z]. *)
Definition wrap64 (z : Z) : Z := ((z + 2 ^ 63) mod 2 ^ 64 - 2 ^ 63)%Z.

(** [np.ceil] keeps the float type. *)
Definition np_ceil (x : R) : R := IZR (Zceil x).

(** Conversion of a float to an integer truncates toward zero. *)
Definition py_int (x : R) : Z := if R_ltb x 0 then Zceil x else Zfloor x.

(** [.astype(np.int64)]: truncation; a value that does not fit is stored as
    the smallest int64 (the result of the conversion instruction on x86-64). *)
Definition astype_int64 (x : R) : Z :=
  let z := py_int x in
  if ((int64_min <=? z) && (z <=? int64_max))%Z then z else int64_min.

(** [arr.max()] of an int64 array. *)
Definition np_max (arr : list Z) : result Z :=
  match arr with
  | [] => Raise ValueError
  | x :: arr' => Ok (fold_left Z.max arr' x)
  end.

(** ** Complex numbers and two-dimensional arrays *)

Definition complex : Type := (R * R)%type.

Definition Czero : complex := (0, 0).
Definition Cadd (a b : complex) : complex := (fst a + fst b, snd a + snd b).
Definition Cmul (a b : complex) : complex :=
  (fst a * fst b - snd a * snd b, fst a * snd b + snd a * fst b).
Definition Cconj (a : complex) : complex := (fst a, - snd a).
Definition Cscale (s : R) (a : complex) : complex := (s * fst a, s * snd a).
Definition Ci : complex := (0, 1).

Definition ndarray2 : Type := list (list complex).

Definition shape0 (a : ndarray2) : nat := length a.
Definition shape1 (a : ndarray2) : nat :=
  match a with
  | [] => 0%nat
  | row :: _ => length row
  end.

(** [np.zeros((r, c))] *)
Definition np_zeros2 (r c : Z) : result ndarray2 :=
  if ((r <? 0) || (c <? 0))%Z then Raise ValueError
  else Ok (repeat (repeat Czero (Z.to_nat c)) (Z.to_nat r)).

(** [l[i] = v] on a position known to exist. *)
Fixpoint list_set {A : Type} (l : list A) (i : nat) (v : A) : list A :=
  match l, i with
  | [], _ => []
  | _ :: l', O => v :: l'
  | x :: l', S i' => x :: list_set l' i' v
  end.

(** [a[i, j]] *)
Definition get2 (a : ndarray2) (i j : nat) : result complex :=
  match nth_error a i with
  | None => Raise IndexError
  | Some row =>
      match nth_error row j with
      | None => Raise IndexError
      | Some v => Ok v
      end
  end.

(** [a[i, j] = v] *)
Definition set2 (a : ndarray2) (i j : nat) (v : complex) : result ndarray2 :=
  match nth_error a i with
  | None => Raise IndexError
  | Some row =>
      if (j <? length row)%nat then Ok (list_set a i (list_set row j v))
      else Raise IndexError
  end.

(** [a.T] *)
Definition transpose (a : ndarray2) : ndarray2 :=
  map (fun j => map (fun row => nth j row Czero) a) (seq 0 (shape1 a)).

(** [np.triu_indices(n, k)]: the positions [(i, j)] with [i + k <= j < n],
    row by row. *)
Definition triu_indices (n k : nat) : list (nat * nat) :=
  flat_map (fun i => map (fun j => (i, j)) (seq (i + k) (n - (i + k)))) (seq 0 n).

(** [np.triu_indices(n)] with [n] a Python integer. *)
Definition triu_indices_Z (n : Z) : result (list (nat * nat)) :=
  if (n <? 0)%Z then Raise ValueError else Ok (triu_indices (Z.to_nat n) 0).

(** The values of [a[idx] = vals]: as many as there are positions, or one
    value for all of them. *)
Definition broadcast_values (n : nat) (vals : list complex) : result (list complex) :=
  if (length vals =? n)%nat then Ok vals
  else match vals with
       | [v] => Ok (repeat v n)
       | _ => Raise ValueError
       end.

Fixpoint set_items (a : ndarray2) (idx : list (nat * nat)) (vals : list complex)
  : result ndarray2 :=
  match idx, vals with
  | (i, j) :: idx', v :: vals' => a' <- set2 a i j v ;; set_items a' idx' vals'
  | _, _ => Ok a
  end.

(** [a[(rows, cols)] = vals] *)
Definition fancy_set (a : ndarray2) (idx : list (nat * nat)) (vals : list complex)
  : result ndarray2 :=
  vals' <- broadcast_values (length idx) vals ;;
  set_items a idx vals'.

(** [a[(rows, cols)]] *)
Definition fancy_get (a : ndarray2) (idx : list (nat * nat)) : result (list complex) :=
  mapM (fun ij => get2 a (fst ij) (snd ij)) idx.

(** An index pair of [a.T] names the mirrored position of [a]. *)
Definition swap (ij : nat * nat) : nat * nat := (snd ij, fst ij).

(** Row-wise combination of two arrays. *)
Fixpoint map2 {A B D : Type} (f : A -> B -> D) (l : list A) (m : list B) : list D :=
  match l, m with
  | a :: l', b :: m' => f a b :: map2 f l' m'
  | _, _ => []
  end.

(** ** hputil.py *)

(** *** [nside_for_lmax]  (lines 34-48)

    [int(2**(accuracy_boost + np.ceil(np.log((lmax + 1) / 3.0) / np.log(2.0))))].
    [np.log] of a negative number is NaN, which [int] refuses; [np.log(0)] is
    minus infinity, of which the power is [0.0].  The logarithm is the exact
    one: in float64 the quotient can come out just above an integer where
    [(lmax + 1) / 3] is a power of two, and the result is then twice the
    one given here. *)
Definition nside_for_lmax (lmax : Z) (accuracy_boost : Z) : result Z :=
  if (lmax + 1 <? 0)%Z then Raise ValueError
  else if (lmax + 1 =? 0)%Z then Ok 0%Z
  else Ok (py_int (Rpower 2 (IZR accuracy_boost
                             + np_ceil (ln (IZR (lmax + 1) / 3) / ln 2)))).

(** *** [_make_full_alm]  (lines 114-132) *)

(** [(-1)**np.arange(mmax)[:0:-1]] *)
Definition mfactor (mmax : nat) : list Z :=
  map (fun m => ((-1) ^ Z.of_nat m)%Z) (rev (tl (seq 0 mmax))).

(** One row of [mfactor * alm_half[:, :0:-1].conj()] *)
Definition alm_neg_row (mmax : nat) (row : list complex) : list complex :=
  map2 (fun s z => Cscale (IZR s) z) (mfactor mmax) (map Cconj (rev (tl row))).

(** The two slice assignments cover the whole of the array allocated by
    [np.zeros([lmax, 2*mmax - 1])], so each row of the result is the
    concatenation of the two pieces. *)
Definition _make_full_alm (alm_half : ndarray2) (centered : bool) : result ndarray2 :=
  let lmax := shape0 alm_half in
  let mmax := shape1 alm_half in
  _ <- np_zeros2 (Z.of_nat lmax) (2 * Z.of_nat mmax - 1) ;;
  let alm_neg := map (alm_neg_row mmax) alm_half in
  if negb centered
  then Ok (map2 (@app complex) alm_half alm_neg)
  else Ok (map2 (@app complex) alm_neg alm_half).

(** *** [_make_half_alm]  (lines 135-149) *)

(** [a[:, j]] *)
Definition get_col (a : ndarray2) (j : nat) : result (list complex) :=
  mapM (fun row => match nth_error row j with
                   | Some v => Ok v
                   | None => Raise IndexError
                   end) a.

(** [a[:, j] = col] for a column of the height of [a] *)
Definition set_col (a : ndarray2) (j : nat) (col : list complex) : result ndarray2 :=
  if (j <? shape1 a)%nat then Ok (map2 (fun row v => list_set row j v) a col)
  else Raise IndexError.

(** [(-1)**0.5]: the package is Python 2 (the [print] statement of
    cylinder.py), where a negative float base with a fractional exponent
    raises [ValueError]. *)
Definition pow_minus_one_half : result complex := Raise ValueError.

(** The body of [for mi in range(1, lside)]. *)
Fixpoint half_alm_loop (alm_full alm : ndarray2) (mis : list nat) : result ndarray2 :=
  match mis with
  | [] => Ok alm
  | mi :: mis' =>
      col <- get_col alm_full mi ;;
      s <- pow_minus_one_half ;;
      alm' <- set_col alm mi
                (map (fun x => Cscale (1 / 2) (Cadd x (Cmul s x))) col) ;;
      half_alm_loop alm_full alm' mis'
  end.

Definition _make_half_alm (alm_full : ndarray2) : result ndarray2 :=
  let lside := shape0 alm_full in
  alm <- np_zeros2 (Z.of_nat lside) (Z.of_nat lside) ;;
  col0 <- get_col alm_full 0 ;;
  alm <- set_col alm 0 col0 ;;
  half_alm_loop alm_full alm (seq 1 (lside - 1)).

(** *** [unpack_alm]  (lines 51-79) *)

Definition unpack_alm (alm : list complex) (lmax : Z) (fullm : bool) : result ndarray2 :=
  almarray <- np_zeros2 (lmax + 1) (lmax + 1) ;;
  idx <- triu_indices_Z (lmax + 1) ;;
  almarray <- fancy_set almarray (map swap idx) alm ;;
  if fullm then _make_full_alm almarray false else Ok almarray.

(** *** [pack_alm]  (lines 82-110)

    [lmax = None] is the default; [not lmax] also holds for [lmax = 0]. *)
Definition pack_alm (almarray : ndarray2) (lmax : option Z) : result (list complex) :=
  almarray <-
    (if (2 * Z.of_nat (shape1 almarray) - 1 =? Z.of_nat (shape0 almarray))%Z
     then _make_half_alm almarray
     else Ok almarray) ;;
  let lmax :=
    match lmax with
    | None => (Z.of_nat (shape0 almarray) - 1)%Z
    | Some l => if (l =? 0)%Z then (Z.of_nat (shape0 almarray) - 1)%Z else l
    end in
  idx <- triu_indices_Z (lmax + 1) ;;
  fancy_get almarray (map swap idx).

(** *** The spherical-harmonic transforms  (lines 154-305)

    [healpy.map2alm] is an external collaborator: it is a parameter, for one
    real map and for a [T, Q, U] triple.  The callers in cylinder.py always
    pass [lmax] and [lside], so the [None] defaults are not modelled. *)

Section Transforms.

Variable healpy_map2alm : list R -> Z -> list complex.
Variable healpy_map2alm_pol : list (list R) -> Z -> list (list complex).

Definition sphtrans_real (hpmap : list R) (lmax lside : Z) : result ndarray2 :=
  let lside := if (lside <? lmax)%Z then lmax else lside in
  alm <- np_zeros2 (lside + 1) (lside + 1) ;;
  let tlm := healpy_map2alm hpmap lmax in
  idx <- triu_indices_Z (lmax + 1) ;;
  alm <- fancy_set alm idx tlm ;;
  Ok (transpose alm).

(** [rlm + 1.0J * ilm] *)
Definition add_times_i (rlm ilm : ndarray2) : ndarray2 :=
  map2 (map2 (fun r i => Cadd r (Cmul Ci i))) rlm ilm.

Definition sphtrans_complex (hpmap : list complex) (lmax : Z) (centered : bool)
  (lside : Z) : result ndarray2 :=
  re <- sphtrans_real (map fst hpmap) lmax lside ;;
  rlm <- _make_full_alm re centered ;;
  im <- sphtrans_real (map snd hpmap) lmax lside ;;
  ilm <- _make_full_alm im centered ;;
  Ok (add_times_i rlm ilm).

(** [for i in range(3): alms[i][np.triu_indices(lmax+1)] = tlms[i]] *)
Definition fill_alms (alms : list ndarray2) (tlms : list (list complex))
  (idx : list (nat * nat)) : result (list ndarray2) :=
  mapM (fun i =>
          match nth_error alms i, nth_error tlms i with
          | Some alm, Some tlm => fancy_set alm idx tlm
          | _, _ => Raise IndexError
          end) (seq 0 3).

Definition sphtrans_real_pol (hpmaps : list (list R)) (lmax lside : Z)
  : result (list ndarray2) :=
  let lside := if (lside <? lmax)%Z then lmax else lside in
  alm0 <- np_zeros2 (lside + 1) (lside + 1) ;;
  let alms := repeat alm0 3 in
  let tlms := healpy_map2alm_pol hpmaps lmax in
  idx <- triu_indices_Z (lmax + 1) ;;
  alms <- fill_alms alms tlms idx ;;
  Ok (map transpose alms).

Definition sphtrans_complex_pol (hpmaps : list (list complex)) (lmax : Z)
  (centered : bool) (lside : Z) : result (list ndarray2) :=
  res <- sphtrans_real_pol (map (map fst) hpmaps) lmax lside ;;
  rlms <- mapM (fun alm => _make_full_alm alm centered) res ;;
  ims <- sphtrans_real_pol (map (map snd) hpmaps) lmax lside ;;
  ilms <- mapM (fun alm => _make_full_alm alm centered) ims ;;
  Ok (map2 add_times_i rlms ilms).

End Transforms.

(** ** cylinder.py *)

(** *** [in_range], [out_of_range]  (lines 12-16) *)

Definition in_range (arr : list Z) (min max : Z) : bool :=
  forallb (fun a => (min <=? a)%Z) arr && forallb (fun a => (a <? max)%Z) arr.

Definition out_of_range (arr : list Z) (min max : Z) : bool :=
  negb (in_range arr min max).

(** *** [map_half_plane]  (lines 19-23) *)

(** A row [[u, v]] of an [(n, 2)] float array. *)
Definition vec2 : Type := (R * R)%type.

Definition vneg (a : vec2) : vec2 := (- fst a, - snd a).
Definition vsub (a b : vec2) : vec2 := (fst a - fst b, snd a - snd b).

(** [np.where((arr[:,0] < 0.0)[:,np.newaxis], -arr, arr)] *)
Definition fold_negative_u (arr : list vec2) : list vec2 :=
  map (fun a => if R_ltb (fst a) 0 then vneg a else a) arr.

(** [np.where(np.logical_and(arr[:,0] == 0.0, arr[:,1] < 1)[:,np.newaxis], -arr, arr)] *)
Definition fold_zero_u (arr : list vec2) : list vec2 :=
  map (fun a => if R_eqb (fst a) 0 && R_ltb (snd a) 1 then vneg a else a) arr.

Definition map_half_plane (arr : list vec2) : list vec2 :=
  let arr := fold_negative_u arr in
  let arr := fold_zero_u arr in
  arr.

(** *** [max_lm]  (lines 26-49)

    The arrays are combined element by element; a scalar wavelength is
    passed as the array numpy broadcasts it to.  Where the int64 square of
    the m-bandlimit wraps around to a negative number the root is NaN in
    numpy, which is not represented. *)
Definition max_lm (baselines : list vec2) (wavelengths : list R) (width : R)
  : list Z * list Z :=
  let umax := map2 (fun b wl => (Rabs (fst b) + width) / wl) baselines wavelengths in
  let vmax := map2 (fun b wl => Rabs (snd b) / wl) baselines wavelengths in
  let mmax := map (fun u => astype_int64 (np_ceil (2 * PI * u))) umax in
  let lmax :=
    map2 (fun m v =>
            astype_int64
              (np_ceil (sqrt (IZR (wrap64 (m ^ 2)) + (2 * PI * v) * (2 * PI * v)))))
         mmax vmax in
  (lmax, mmax).

(** *** Sorting as numpy does it

    [np.argsort] and [np.unique] sort; the model is the stable insertion
    sort along a boolean order.  numpy's default sort leaves the order among
    equal keys open: the stable order is one it may return, and what is
    stated about the order of a run holds for every sorted permutation. *)

Section InsertionSort.

Context {A : Type} (leb : A -> A -> bool).

Fixpoint insert_sorted (x : A) (l : list A) : list A :=
  match l with
  | [] => [x]
  | y :: l' => if leb x y then x :: y :: l' else y :: insert_sorted x l'
  end.

Definition sort_by (l : list A) : list A := fold_right insert_sorted [] l.

End InsertionSort.

(** [np.argsort(keys)]: the positions of [keys], smallest key first. *)
Definition np_argsort (keys : list Z) : list nat :=
  map snd (sort_by (fun a b => (fst a <=? fst b)%Z)
                   (combine keys (seq 0 (length keys)))).

(** *** [TransitTelescope]  (lines 53-473)

    The properties [transfer_matrices] reads: the unique baselines, the
    wavelength of each frequency band and the width of the receiver. *)
Record TransitTelescope : Type := {
  baselines : list vec2;
  wavelengths : list R;
  u_width : R
}.

Definition nbase (tel : TransitTelescope) : Z := Z.of_nat (length (baselines tel)).
Definition nfreq (tel : TransitTelescope) : Z := Z.of_nat (length (wavelengths tel)).

(** [arr[-1]] of a one-dimensional array *)
Definition last_item {A : Type} (arr : list A) : result A :=
  match rev arr with
  | [] => Raise IndexError
  | x :: _ => Ok x
  end.

(** The property [lmax] (lines 207-211): the maximum l the telescope is
    sensitive to. *)
Definition telescope_lmax (tel : TransitTelescope) : result Z :=
  wl <- last_item (wavelengths tel) ;;
  let '(lmax, mmax) :=
    max_lm (baselines tel) (repeat wl (length (baselines tel))) (u_width tel) in
  np_max lmax.

(** The property [mmax] (lines 213-217). *)
Definition telescope_mmax (tel : TransitTelescope) : result Z :=
  wl <- last_item (wavelengths tel) ;;
  let '(lmax, mmax) :=
    max_lm (baselines tel) (repeat wl (length (baselines tel))) (u_width tel) in
  np_max mmax.

(** The abstract methods a polarisation variant implements (lines 402-469).
    [vstate] is the part of [self] the kernel rewrites (the grid caches),
    [shape] the number of requested pairs. *)
Record Variant : Type := {
  vstate : Type;
  tsingle : Type;
  tarray : Type;
  _transfer_single : vstate -> Z -> Z -> Z -> Z -> result tsingle * vstate;
  _make_matrix_array : nat -> Z -> result tarray;
  _copy_single_into_array : tarray -> tsingle -> nat -> result tarray
}.

(** [np.broadcast_arrays] on two one-dimensional index arrays. *)
Definition np_broadcast_arrays (a b : list Z) : result (list Z * list Z) :=
  if (length a =? length b)%nat then Ok (a, b)
  else match a, b with
       | [x], _ => Ok (repeat x (length b), b)
       | _, [y] => Ok (a, repeat y (length a))
       | _, _ => Raise ValueError
       end.

(** [arr[indices]] for indices already checked to be in range *)
Definition take {A : Type} (d : A) (arr : list A) (indices : list Z) : list A :=
  map (fun i => nth (Z.to_nat i) arr d) indices.

(** What a call leaves behind besides its result. *)
Record kernel_call : Type := {
  call_bl : Z;
  call_f : Z;
  call_lmax : Z;
  call_lside : Z
}.

Record effects : Type := {
  allocated : list (nat * Z);      (* buffers made by [_make_matrix_array] *)
  kernel_calls : list kernel_call; (* invocations of [_transfer_single], in order *)
  copied : list nat                (* positions written by [_copy_single_into_array] *)
}.

Definition no_effects : effects :=
  {| allocated := []; kernel_calls := []; copied := [] |}.

(** The per-pair bandlimits of a request (lines 284-285). *)
Definition request_lmax (tel : TransitTelescope) (bl_indices f_indices : list Z)
  : list Z :=
  let '(lmax, mmax) :=
    max_lm (take (0, 0) (baselines tel) bl_indices)
           (take 0 (wavelengths tel) f_indices) (u_width tel) in
  map (fun l => wrap64 (l * 2)) lmax.

(** [lside = self.lmax if global_lmax else lmax.max()] (line 287) *)
Definition choose_lside (tel : TransitTelescope) (lmax : list Z) (global_lmax : bool)
  : result Z :=
  if global_lmax then telescope_lmax tel else np_max lmax.

Section Orchestration.

Variable V : Variant.

(** The loop of lines 298-302 over the positions still to process. *)
Fixpoint transfer_loop (bl_indices f_indices lmax : list Z) (lside : Z)
  (order : list nat) (arr : tarray V) (eff : effects) (st : vstate V)
  : result (tarray V) * effects * vstate V :=
  match order with
  | [] => (Ok arr, eff, st)
  | ind :: order' =>
      let c := {| call_bl := nth ind bl_indices 0%Z;
                  call_f := nth ind f_indices 0%Z;
                  call_lmax := nth ind lmax 0%Z;
                  call_lside := lside |} in
      let eff := {| allocated := allocated eff;
                    kernel_calls := kernel_calls eff ++ [c];
                    copied := copied eff |} in
      match _transfer_single V st (call_bl c) (call_f c) (call_lmax c) lside with
      | (Raise e, st') => (Raise e, eff, st')
      | (Ok trans, st') =>
          match _copy_single_into_array V arr trans ind with
          | Raise e => (Raise e, eff, st')
          | Ok arr' =>
              transfer_loop bl_indices f_indices lmax lside order' arr'
                {| allocated := allocated eff;
                   kernel_calls := kernel_calls eff;
                   copied := copied eff ++ [ind] |} st'
          end
      end
  end.

(** [transfer_matrices]  (lines 247-304) *)
Definition transfer_matrices (tel : TransitTelescope) (st : vstate V)
  (bl_indices f_indices : list Z) (global_lmax : bool)
  : result (tarray V) * effects * vstate V :=
  match np_broadcast_arrays bl_indices f_indices with
  | Raise e => (Raise e, no_effects, st)
  | Ok (bl_indices, f_indices) =>
      if out_of_range bl_indices 0 (nbase tel)
      then (Raise (InvalidIndex BaselineIndex), no_effects, st)
      else if out_of_range f_indices 0 (nfreq tel)
      then (Raise (InvalidIndex FrequencyIndex), no_effects, st)
      else
        let lmax := request_lmax tel bl_indices f_indices in
        match choose_lside tel lmax global_lmax with
        | Raise e => (Raise e, no_effects, st)
        | Ok lside =>
            match _make_matrix_array V (length bl_indices) lside with
            | Raise e => (Raise e, no_effects, st)
            | Ok arr =>
                transfer_loop bl_indices f_indices lmax lside (np_argsort lmax) arr
                  {| allocated := [(length bl_indices, lside)];
                     kernel_calls := [];
                     copied := [] |} st
            end
        end
  end.

(** [transfer_for_frequency] and [transfer_for_baseline]  (lines 307-342) *)
Definition transfer_for_frequency (tel : TransitTelescope) (st : vstate V) (freq : Z) :=
  let bi := map Z.of_nat (seq 0 (length (baselines tel))) in
  let fi := map (fun _ => freq) bi in
  transfer_matrices tel st bi fi true.

Definition transfer_for_baseline (tel : TransitTelescope) (st : vstate V) (baseline : Z) :=
  let fi := map Z.of_nat (seq 0 (length (wavelengths tel))) in
  let bi := map (fun _ => baseline) fi in
  transfer_matrices tel st bi fi true.

End Orchestration.

(** *** The two polarisation variants *)

Fixpoint foldM {A S : Type} (f : S -> A -> result S) (l : list A) (s : S) : result S :=
  match l with
  | [] => Ok s
  | a :: l' => s' <- f s a ;; foldM f l' s'
  end.

(** [l[i]] of a Python list or of the leading axis of an array *)
Definition item {A : Type} (l : list A) (i : nat) : result A :=
  match nth_error l i with
  | Some x => Ok x
  | None => Raise IndexError
  end.

(** The block stored by [dst[...] = src]: [src] itself when the shapes agree,
    [src] stretched along its axes of length one when numpy can broadcast it,
    and a [ValueError] otherwise. *)
Definition assign_block (dst src : ndarray2) : result ndarray2 :=
  let r := shape0 dst in
  let c := shape1 dst in
  let a := shape0 src in
  let b := shape1 src in
  if ((a =? r) && (b =? c))%nat then Ok src
  else if (((a =? r) || (a =? 1)) && ((b =? c) || (b =? 1)))%nat
  then Ok (map (fun i =>
                  map (fun j => nth (if (b =? 1)%nat then 0%nat else j)
                                    (nth (if (a =? 1)%nat then 0%nat else i) src [])
                                    Czero)
                      (seq 0 c))
               (seq 0 r))
  else Raise ValueError.

(** [self._nside != nside_for_lmax(lmax)] followed by [self._init_trans]
    (lines 512-513 and 580-581): the grid, the horizon and the projections
    are functions of the resolution, which is all the state keeps.  The
    model is for bandlimits from 0 on, where the resolution is at least 1;
    what healpy does with the resolution 0 of the bandlimit -1 inside
    [_init_trans] is not represented. *)
Definition refresh_grid (nside lmax : Z) : result Z :=
  n <- nside_for_lmax lmax 1 ;;
  Ok (if negb (nside =? n)%Z then n else nside).

Inductive feed_product : Type := XX | XY | YY.

Module UnpolarisedTelescope.

Section Kernel.

Variable healpy_map2alm : list R -> Z -> list complex.

(** [self._horizon * fringe * beami * beamj] on the grid of resolution
    [nside], for a baseline and a frequency: [visibility.py] and the [beam]
    method are outside the sources. *)
Variable cvis : Z -> Z -> Z -> list complex.

Definition _transfer_single (nside : Z) (bl_index f_index lmax lside : Z)
  : result ndarray2 * Z :=
  match refresh_grid nside lmax with
  | Raise e => (Raise e, nside)
  | Ok nside' =>
      (sphtrans_complex healpy_map2alm (cvis nside' bl_index f_index) lmax false lside,
       nside')
  end.

(** [np.zeros(shape + (lmax+1, 2*lmax+1))] *)
Definition _make_matrix_array (shape : nat) (lmax : Z) : result (list ndarray2) :=
  block <- np_zeros2 (lmax + 1) (2 * lmax + 1) ;;
  Ok (repeat block shape).

(** [tarray[ind] = tsingle] *)
Definition _copy_single_into_array (arr : list ndarray2) (trans : ndarray2) (ind : nat)
  : result (list ndarray2) :=
  dst <- item arr ind ;;
  v <- assign_block dst trans ;;
  Ok (list_set arr ind v).

Definition variant : Variant :=
  Build_Variant Z ndarray2 (list ndarray2)
    _transfer_single _make_matrix_array _copy_single_into_array.

End Kernel.

End UnpolarisedTelescope.

Module PolarisedTelescope.

(** One entry of the output: the [(3, 3)] grid of [(l, m)] blocks. *)
Definition entry : Type := list (list ndarray2).

Section Kernel.

Variable healpy_map2alm_pol : list (list R) -> Z -> list (list complex).

(** [self._mIQUxx * fringe * beamix * beamjx] and its [xy], [yy] siblings
    (lines 592-594), each a triple of maps. *)
Variable cvIQU : feed_product -> Z -> Z -> Z -> list (list complex).

Definition _transfer_single (nside : Z) (bl_index f_index lmax lside : Z)
  : result (list (list ndarray2)) * Z :=
  match refresh_grid nside lmax with
  | Raise e => (Raise e, nside)
  | Ok nside' =>
      (btransxx <- sphtrans_complex_pol healpy_map2alm_pol
                     (cvIQU XX nside' bl_index f_index) lmax false lside ;;
       btransxy <- sphtrans_complex_pol healpy_map2alm_pol
                     (cvIQU XY nside' bl_index f_index) lmax false lside ;;
       btransyy <- sphtrans_complex_pol healpy_map2alm_pol
                     (cvIQU YY nside' bl_index f_index) lmax false lside ;;
       Ok [btransxx; btransxy; btransyy],
       nside')
  end.

(** [np.zeros(shape + (3, 3, lmax+1, 2*lmax+1))] *)
Definition _make_matrix_array (shape : nat) (lmax : Z) : result (list entry) :=
  block <- np_zeros2 (lmax + 1) (2 * lmax + 1) ;;
  Ok (repeat (repeat (repeat block 3) 3) shape).

(** [tarray[ind + (pi, pj) + (slice(None), slice(None))] = tsingle[pi][pj]] *)
Definition copy_block (trans : list (list ndarray2)) (ind pi : nat)
  (arr : list entry) (pj : nat) : result (list entry) :=
  row <- item trans pi ;;
  src <- item row pj ;;
  e <- item arr ind ;;
  erow <- item e pi ;;
  dst <- item erow pj ;;
  v <- assign_block dst src ;;
  Ok (list_set arr ind (list_set e pi (list_set erow pj v))).

Definition _copy_single_into_array (arr : list entry) (trans : list (list ndarray2))
  (ind : nat) : result (list entry) :=
  foldM (fun arr pi => foldM (copy_block trans ind pi) (seq 0 3) arr) (seq 0 3) arr.

Definition variant : Variant :=
  Build_Variant Z (list (list ndarray2)) (list entry)
    _transfer_single _make_matrix_array _copy_single_into_array.

End Kernel.

End PolarisedTelescope.

(** *** [CylinderTelescope._get_unique] and [calculate_baselines] *)

(** The order numpy sorts complex numbers by: real part, then imaginary. *)
Definition complex_leb (a b : complex) : bool :=
  R_ltb (fst a) (fst b) || (R_eqb (fst a) (fst b) && negb (R_ltb (snd b) (snd a))).

Definition complex_eqb (a b : complex) : bool :=
  R_eqb (fst a) (fst b) && R_eqb (snd a) (snd b).

(** The sorted array with every element equal to its predecessor dropped. *)
Fixpoint uniq_from (prev : complex) (l : list complex) : list complex :=
  match l with
  | [] => []
  | y :: l' => if complex_eqb y prev then uniq_from y l' else y :: uniq_from y l'
  end.

Definition uniq_sorted (l : list complex) : list complex :=
  match l with
  | [] => []
  | x :: l' => x :: uniq_from x l'
  end.

(** The first position of [x] in [l] ([length l] when there is none). *)
Fixpoint index_of (x : complex) (l : list complex) : nat :=
  match l with
  | [] => 0%nat
  | y :: l' => if complex_eqb y x then 0%nat else S (index_of x l')
  end.

(** [np.unique(ar, return_index=True, return_inverse=True)]: the sorted
    distinct values, for each of them the first position holding it, and
    for each element of [ar] the position of its value among them. *)
Definition np_unique (ar : list complex) : list complex * list nat * list nat :=
  let ub := uniq_sorted (sort_by complex_leb ar) in
  (ub, map (fun u => index_of u ar) ub, map (fun a => index_of a ub) ar).

(** [np.bincount(x)]: the number of occurrences of each value up to the
    largest. *)
Definition np_bincount (x : list nat) : list nat :=
  match x with
  | [] => []
  | _ => map (count_occ Nat.eq_dec x) (seq 0 (S (list_max x)))
  end.

(** [feedpositions[feedpairs[0]] - feedpositions[feedpairs[1]]] *)
Definition separations (feedpositions : list vec2) (feedpairs : list (nat * nat))
  : list vec2 :=
  map (fun p => vsub (nth (fst p) feedpositions (0, 0))
                     (nth (snd p) feedpositions (0, 0))) feedpairs.

Module CylinderTelescope.

(** [_get_unique]  (lines 634-666) *)
Definition _get_unique (feedpositions : list vec2) (feedpairs : list (nat * nat))
  : list (nat * nat) * list nat :=
  let bl1 := separations feedpositions feedpairs in
  let bl1 := map_half_plane bl1 in
  let '(ub, ind, inv) := np_unique bl1 in
  let redundancy := np_bincount inv in
  let upairs := map (fun i => nth i feedpairs (0, 0)%nat) ind in
  (upairs, redundancy).

End CylinderTelescope.

(** The unique baselines, their redundancies and their feed pairs, as
    [calculate_baselines] stores them in [_baselines], [_redundancy] and
    [_feedpairs]. *)
Record baseline_table : Type := {
  _baselines : list vec2;
  _redundancy : list nat;
  _feedpairs : list (nat * nat)
}.

(** [calculate_baselines]  (lines 225-238), with the [_get_unique] of the
    cylinder telescope. *)
Definition calculate_baselines (feedpositions : list vec2) : baseline_table :=
  let nfeed := length feedpositions in
  let fpairs := triu_indices nfeed 1 in
  let '(upairs, redundancy) := CylinderTelescope._get_unique feedpositions fpairs in
  {| _baselines := separations feedpositions upairs;
     _redundancy := redundancy;
     _feedpairs := upairs |}.

(** *** [TransitTelescope.__init__]  (lines 90-102) *)

(** [np.radians] *)
Definition np_radians (x : R) : R := x * PI / 180.

(** [np.remainder(x, y)] for a positive [y]: the result has the sign of the
    divisor. *)
Definition np_remainder (x y : R) : R := x - y * IZR (Zfloor (x / y)).

(** [self.zenith]: the colatitude and the longitude, in radians. *)
Definition zenith (latitude longitude : R) : R * R :=
  (PI / 2 - np_radians latitude, np_remainder (np_radians longitude) (2 * PI)).

(** *** [CylinderTelescope.feedpositions]  (lines 623-710) *)

(** The class attributes of a cylinder telescope. *)
Record CylinderLayout : Type := {
  num_cylinders : Z;
  num_feeds : Z;
  cylinder_width : R;
  feed_spacing : R
}.

(** The feed-position methods return an array, raise the [Exception] of
    line 702, or fail inside numpy. *)
Inductive positions_result : Type :=
| Positions (pos : list vec2)
| InvalidCylinder
| NumpyError (e : exn).

(** [feed_positions_cylinder]  (lines 686-710): [np.empty] refuses a
    negative dimension. *)
Definition feed_positions_cylinder (cyl : CylinderLayout) (cylinder_index : Z)
  : positions_result :=
  if ((cylinder_index >=? num_cylinders cyl) || (cylinder_index <? 0))%Z
  then InvalidCylinder
  else if (num_feeds cyl <? 0)%Z then NumpyError ValueError
  else Positions
         (map (fun k => (IZR cylinder_index * cylinder_width cyl,
                         IZR (Z.of_nat k) * feed_spacing cyl))
              (seq 0 (Z.to_nat (num_feeds cyl)))).

(** [[self.feed_positions_cylinder(i) for i in range(self.num_cylinders)]] *)
Fixpoint feed_positions_list (cyl : CylinderLayout) (indices : list Z)
  : positions_result + list (list vec2) :=
  match indices with
  | [] => inr []
  | i :: indices' =>
      match feed_positions_cylinder cyl i with
      | Positions pos =>
          match feed_positions_list cyl indices' with
          | inr fplist => inr (pos :: fplist)
          | inl e => inl e
          end
      | e => inl e
      end
  end.

(** The property [feedpositions]  (lines 670-682): [np.vstack] refuses an
    empty list. *)
Definition feedpositions (cyl : CylinderLayout) : positions_result :=
  match feed_positions_list cyl
          (map Z.of_nat (seq 0 (Z.to_nat (num_cylinders cyl)))) with
  | inl e => e
  | inr [] => NumpyError ValueError
  | inr fplist => Positions (concat fplist)
  end.

(** *** The frequency bands  (lines 163-186) *)

(** [np.linspace(start, stop, num)]: [num] equally spaced samples, both ends
    included. *)
Definition np_linspace (start stop : R) (num : Z) : result (list R) :=
  if (num <? 0)%Z then Raise ValueError
  else if (num =? 1)%Z then Ok [start]
  else Ok (map (fun i => start + IZR (Z.of_nat i) * ((stop - start) / IZR (num - 1)))
               (seq 0 (Z.to_nat num))).

(** [calculate_frequencies]  (lines 173-175) *)
Definition calculate_frequencies (freq_lower freq_upper : R) (num_freq : Z)
  : result (list R) :=
  np_linspace freq_lower freq_upper num_freq.

(** The property [wavelengths]  (lines 178-181), [units.c / (1e6 * self.frequencies)];
    [c] is the constant [units.c], the speed of light in m/s. *)
Definition band_wavelengths (c : R) (frequencies : list R) : list R :=
  map (fun f => c / (1000000 * f)) frequencies.

(** ** Auxiliary definitions used by the statements of Part II *)

(** The action of [map_half_plane] on one row. *)
Definition half_plane_row (a : vec2) : vec2 :=
  let a1 := if R_ltb (fst a) 0 then vneg a else a in
  if R_eqb (fst a1) 0 && R_ltb (snd a1) 1 then vneg a1 else a1.

(** The element of the two arrays [max_lm] returns for one baseline and
    one wavelength. *)
Definition mmax_row (b : vec2) (wl width : R) : Z :=
  astype_int64 (np_ceil (2 * PI * ((Rabs (fst b) + width) / wl))).

Definition lmax_row (b : vec2) (wl width : R) : Z :=
  let m := mmax_row b wl width in
  let v := Rabs (snd b) / wl in
  astype_int64 (np_ceil (sqrt (IZR (wrap64 (m ^ 2)) + (2 * PI * v) * (2 * PI * v)))).


Definition stated_lmax (mmax : Z) (b : vec2) (wl : R) : Z :=
  Zceil (sqrt (IZR mmax ^ 2 + (2 * PI * snd b / wl) ^ 2)).

(** The m-bandlimit with the full width. *)
Definition full_width_mmax (b : vec2) (wl width : R) : Z :=
  Zceil (2 * PI * (Rabs (fst b) + width) / wl).

(** Inputs whose fringe rates stay below [2^31], so that no int64 operation
    of [max_lm] overflows. *)
Definition moderate (b : vec2) (wl width : R) : Prop :=
  0 < wl /\ 0 <= width /\
  2 * PI * (Rabs (fst b) + width) / wl <= 2 ^ 31 /\
  2 * PI * Rabs (snd b) / wl <= 2 ^ 31.

(** The invocation of the kernel for position [ind] of a request. *)
Definition call_at (bl_indices f_indices lmax : list Z) (lside : Z) (ind : nat)
  : kernel_call :=
  {| call_bl := nth ind bl_indices 0%Z;
     call_f := nth ind f_indices 0%Z;
     call_lmax := nth ind lmax 0%Z;
     call_lside := lside |}.

(** The three components of what [transfer_matrices] yields. *)
Definition outcome {A S : Type} (r : result A * effects * S) : result A := fst (fst r).
Definition effects_of {A S : Type} (r : result A * effects * S) : effects := snd (fst r).

(** The telescope of two feeds half a metre apart on one cylinder of width
    20 m, observed at one wavelength of half a metre. *)
Definition two_feed_telescope : TransitTelescope :=
  {| baselines := [(0, - (1 / 2))]; wavelengths := [1 / 2]; u_width := 20 |}.

(** The order of [complex_leb] as a proposition. *)
Definition complex_le (a b : complex) : Prop :=
  fst a < fst b \/ (fst a = fst b /\ snd a <= snd b).

(** The half-plane representative of the separation of a feed pair. *)
Definition canonical (feedpositions : list vec2) (p : nat * nat) : vec2 :=
  half_plane_row (vsub (nth (fst p) feedpositions (0, 0))
                       (nth (snd p) feedpositions (0, 0))).

(** The feed pairs that fold onto the representative of baseline [b]. *)
Definition pairs_of_baseline (feedpositions : list vec2) (b : vec2)
  : list (nat * nat) :=
  filter (fun p => complex_eqb (canonical feedpositions p) (half_plane_row b))
         (triu_indices (length feedpositions) 1).

(** The block of entry [ind] at position [(pi, pj)] of its 3 x 3 grid. *)
Definition slot (arr : list PolarisedTelescope.entry) (ind pi pj : nat)
  : result ndarray2 :=
  e <- item arr ind ;;
  row <- item e pi ;;
  item row pj.

(** A 3 x 3 grid of blocks of [r] rows and [c] columns. *)
Definition grid33 (r c : nat) (e : list (list ndarray2)) : Prop :=
  length e = 3%nat /\
  Forall (fun row => length row = 3%nat /\
                     Forall (fun b => shape0 b = r /\ shape1 b = c) row) e.

(** A kernel result for side length 0 whose nine blocks all hold 1. *)
Definition nine_ones : list (list ndarray2) := repeat (repeat [[(1, 0)]] 3) 3.

(** The position of the coefficient a_lm among the packed coefficients of
    bandlimit [lmax], as Healpix numbers them: [m (2 lmax + 1 - m) / 2 + l]. *)
Definition alm_index (lmax l m : nat) : nat :=
  (m * (2 * lmax + 1 - m) / 2 + l)%nat.

(** Every row of the array has [c] columns. *)
Definition rectangular (c : nat) (a : ndarray2) : Prop :=
  Forall (fun row => length row = c) a.

(** The block [transfer_matrices] is to store at position [k] of an
    unpolarised request: the transform of the visibility of the pair on the
    grid of the pair's bandlimit. *)
Definition unpolarised_block (healpy_map2alm : list R -> Z -> list complex)
  (cvis : Z -> Z -> Z -> list complex) (bl_indices f_indices lmax : list Z)
  (lside : Z) (k : nat) : result ndarray2 :=
  n <- nside_for_lmax (nth k lmax 0%Z) 1 ;;
  sphtrans_complex healpy_map2alm (cvis n (nth k bl_indices 0%Z) (nth k f_indices 0%Z))
    (nth k lmax 0%Z) false lside.

(** Every block of the buffer has the shape [(lside + 1, 2 lside + 1)]. *)
Definition blocks_of_side (lside : Z) (arr : list ndarray2) : Prop :=
  Forall (fun blk => shape0 blk = Z.to_nat (lside + 1) /\
                     shape1 blk = Z.to_nat (2 * lside + 1)) arr.

(** [healpy.map2alm] returns the [(lmax + 1)(lmax + 2) / 2] packed
    coefficients of the bandlimit it is asked for. *)
Definition packed_output (healpy_map2alm : list R -> Z -> list complex) : Prop :=
  forall hpmap lmax, (0 <= lmax)%Z ->
    (2 * Z.of_nat (length (healpy_map2alm hpmap lmax)) = (lmax + 1) * (lmax + 2))%Z.

(** A stand-in for [healpy.map2alm] with the packed length: the
    coefficients of the zero map. *)
Definition zero_coefficients (hpmap : list R) (lmax : Z) : list complex :=
  repeat Czero (Z.to_nat ((lmax + 1) * (lmax + 2) / 2)).

(** The resolution the kernels put in the grid cache for a bandlimit
    (0 where [nside_for_lmax] raises and the cache is left alone). *)
Definition resolution (lmax : Z) : Z :=
  match nside_for_lmax lmax 1 with
  | Ok n => n
  | Raise _ => 0%Z
  end.

(** Three packed coefficient arrays for the bandlimit 1. *)
Definition three_packed : list (list complex) :=
  [[(1, 0); (2, 1); (3, -1)]; [(4, 0); (5, 1); (6, -1)]; [(7, 0); (8, 1); (9, -1)]].

(** [healpy.map2alm] on a [T, Q, U] triple returns three packed
    coefficient arrays. *)
Definition packed_output_pol
  (healpy_map2alm_pol : list (list R) -> Z -> list (list complex)) : Prop :=
  forall hpmaps lmax, (0 <= lmax)%Z ->
    (3 <= length (healpy_map2alm_pol hpmaps lmax))%nat /\
    forall i, (i < 3)%nat ->
      (2 * Z.of_nat (length (nth i (healpy_map2alm_pol hpmaps lmax) []))
       = (lmax + 1) * (lmax + 2))%Z.

(** The grid [transfer_matrices] is to store at position [k] of a polarised
    request: the transforms of the xx, xy and yy products of the pair on
    the grid of the pair's bandlimit. *)
Definition polarised_block
  (healpy_map2alm_pol : list (list R) -> Z -> list (list complex))
  (cvIQU : feed_product -> Z -> Z -> Z -> list (list complex))
  (bl_indices f_indices lmax : list Z) (lside : Z) (k : nat)
  : result (list (list ndarray2)) :=
  n <- nside_for_lmax (nth k lmax 0%Z) 1 ;;
  xx <- sphtrans_complex_pol healpy_map2alm_pol
          (cvIQU XX n (nth k bl_indices 0%Z) (nth k f_indices 0%Z))
          (nth k lmax 0%Z) false lside ;;
  xy <- sphtrans_complex_pol healpy_map2alm_pol
          (cvIQU XY n (nth k bl_indices 0%Z) (nth k f_indices 0%Z))
          (nth k lmax 0%Z) false lside ;;
  yy <- sphtrans_complex_pol healpy_map2alm_pol
          (cvIQU YY n (nth k bl_indices 0%Z) (nth k f_indices 0%Z))
          (nth k lmax 0%Z) false lside ;;
  Ok [xx; xy; yy].

(** A stand-in for [healpy.map2alm] on a triple: three zero arrays of the
    packed length. *)
Definition zero_coefficients_pol (hpmaps : list (list R)) (lmax : Z)
  : list (list complex) :=
  repeat (zero_coefficients [] lmax) 3.



(** * Part II: properties *)

(** ** Scalars *)

Lemma R_ltb_true x y : R_ltb x y = true <-> x < y.
Proof. unfold R_ltb; destruct (Rlt_dec x y); split; intros; try easy. Qed.

Lemma R_ltb_false x y : R_ltb x y = false <-> y <= x.
Proof. unfold R_ltb; destruct (Rlt_dec x y); split; intros; try easy; lra. Qed.

Lemma R_eqb_true x y : R_eqb x y = true <-> x = y.
Proof. unfold R_eqb; destruct (Req_dec_T x y); split; intros; try easy. Qed.

Lemma R_eqb_false x y : R_eqb x y = false <-> x <> y.
Proof. unfold R_eqb; destruct (Req_dec_T x y); split; intros; try easy. Qed.

Lemma R_eqb_refl x : R_eqb x x = true.
Proof. now apply R_eqb_true. Qed.

Lemma PI_gt_3 : 3 < PI.
Proof. pose proof PI2_3_2. lra. Qed.

Lemma PI_lt_7_2 : PI < 7 / 2.
Proof.
  pose proof (PI_ineq 1) as [_ H].
  unfold sum_f_R0, tg_alt, PI_tg in H. simpl in H. lra.
Qed.

Lemma Zceil_IZR z : Zceil (IZR z) = z.
Proof. apply Zceil_eq. lra. Qed.

Lemma py_int_IZR z : py_int (IZR z) = z.
Proof.
  unfold py_int. destruct (R_ltb (IZR z) 0).
  - apply Zceil_IZR.
  - apply ZfloorZ.
Qed.

Lemma astype_int64_IZR z :
  (int64_min <= z <= int64_max)%Z -> astype_int64 (IZR z) = z.
Proof.
  intros [H1 H2]. unfold astype_int64. rewrite py_int_IZR.
  apply Z.leb_le in H1. apply Z.leb_le in H2. now rewrite H1, H2.
Qed.

Lemma astype_ceil x :
  (int64_min <= Zceil x <= int64_max)%Z -> astype_int64 (np_ceil x) = Zceil x.
Proof. intros H. unfold np_ceil. now apply astype_int64_IZR. Qed.

Lemma wrap64_small z : (- 2 ^ 63 <= z < 2 ^ 63)%Z -> wrap64 z = z.
Proof.
  intros H. unfold wrap64. rewrite Z.mod_small; lia.
Qed.

Lemma Zceil_nonneg x : 0 <= x -> (0 <= Zceil x)%Z.
Proof.
  intros H. rewrite <- (Zceil_IZR 0). now apply Zceil_le.
Qed.

Lemma Zceil_upper x z : x <= IZR z -> (Zceil x <= z)%Z.
Proof.
  intros H. rewrite <- (Zceil_IZR z). now apply Zceil_le.
Qed.

Lemma Zceil_lower x z : IZR z < x -> (z < Zceil x)%Z.
Proof.
  intros H. pose proof (Zceil_bound x) as [_ Hb].
  apply lt_IZR. lra.
Qed.

(** ** [max_lm] row by row *)

Lemma max_lm_rows baselines wavelengths width :
  max_lm baselines wavelengths width =
  (map2 (fun b wl => lmax_row b wl width) baselines wavelengths,
   map2 (fun b wl => mmax_row b wl width) baselines wavelengths).
Proof.
  unfold max_lm.
  revert wavelengths.
  induction baselines as [|b bs IH]; intros [|wl wls]; simpl; try reflexivity.
  specialize (IH wls). injection IH as IHl IHm.
  unfold lmax_row at 1, mmax_row at 1 2.
  now rewrite IHl, IHm.
Qed.

Lemma Rabs_mul_self x : Rabs x * Rabs x = x * x.
Proof. unfold Rabs. destruct (Rcase_abs x); ring. Qed.

Lemma moderate_fringe_u b wl width :
  moderate b wl width ->
  0 <= 2 * PI * ((Rabs (fst b) + width) / wl) <= 2 ^ 31.
Proof.
  intros (Hwl & Hw & Hu & _).
  replace (2 * PI * ((Rabs (fst b) + width) / wl))
    with (2 * PI * (Rabs (fst b) + width) / wl) by (unfold Rdiv; ring).
  split; [|exact Hu].
  pose proof PI_RGT_0. pose proof (Rabs_pos (fst b)).
  apply Rmult_le_pos.
  - apply Rmult_le_pos; lra.
  - left. now apply Rinv_0_lt_compat.
Qed.

Lemma moderate_fringe_v b wl width :
  moderate b wl width ->
  0 <= 2 * PI * (Rabs (snd b) / wl) <= 2 ^ 31.
Proof.
  intros (Hwl & _ & _ & Hv).
  replace (2 * PI * (Rabs (snd b) / wl))
    with (2 * PI * Rabs (snd b) / wl) by (unfold Rdiv; ring).
  split; [|exact Hv].
  pose proof PI_RGT_0. pose proof (Rabs_pos (snd b)).
  apply Rmult_le_pos.
  - apply Rmult_le_pos; lra.
  - left. now apply Rinv_0_lt_compat.
Qed.

(** On moderate inputs the m-bandlimit is the ceiling itself. *)
Lemma mmax_row_moderate b wl width :
  moderate b wl width ->
  mmax_row b wl width = full_width_mmax b wl width /\
  (0 <= mmax_row b wl width <= 2 ^ 31)%Z.
Proof.
  intros Hm. pose proof (moderate_fringe_u _ _ _ Hm) as [H0 H1].
  assert (Hc : (0 <= Zceil (2 * PI * ((Rabs (fst b) + width) / wl)) <= 2 ^ 31)%Z).
  { split.
    - now apply Zceil_nonneg.
    - apply Zceil_upper. change (2 ^ 31)%Z with 2147483648%Z. lra. }
  unfold mmax_row. rewrite astype_ceil by (unfold int64_min, int64_max; lia).
  split; [|exact Hc].
  unfold full_width_mmax. f_equal. unfold Rdiv. ring.
Qed.

(** On moderate inputs the l-bandlimit is the ceiling of the root, and it
    is at least the m-bandlimit. *)
Lemma lmax_row_moderate b wl width :
  moderate b wl width ->
  lmax_row b wl width = stated_lmax (mmax_row b wl width) b wl /\
  (mmax_row b wl width <= lmax_row b wl width <= 2 ^ 32)%Z.
Proof.
  intros Hm.
  pose proof (moderate_fringe_v _ _ _ Hm) as [Hv0 Hv1].
  destruct (mmax_row_moderate _ _ _ Hm) as [_ [Hm0 Hm1]].
  unfold lmax_row.
  set (m := mmax_row b wl width) in *.
  set (y := 2 * PI * (Rabs (snd b) / wl)) in *.
  assert (Hw : wrap64 (m ^ 2) = (m * m)%Z).
  { rewrite wrap64_small; nia. }
  rewrite Hw, mult_IZR.
  assert (HM0 : 0 <= IZR m) by now apply IZR_le.
  assert (HM1 : IZR m <= 2 ^ 31).
  { apply IZR_le in Hm1. change (2 ^ 31)%Z with 2147483648%Z in Hm1. lra. }
  set (s := IZR m * IZR m + y * y).
  assert (Hlow : IZR m <= sqrt s).
  { rewrite <- (sqrt_square (IZR m)) at 1 by exact HM0.
    apply sqrt_le_1_alt. unfold s. nra. }
  assert (Hup : sqrt s <= 2 ^ 32).
  { rewrite <- (sqrt_square (2 ^ 32)) by lra.
    apply sqrt_le_1_alt. unfold s. nra. }
  assert (Hc : (m <= Zceil (sqrt s) <= 2 ^ 32)%Z).
  { split.
    - apply le_IZR. pose proof (Zceil_bound (sqrt s)). lra.
    - apply Zceil_upper. change (2 ^ 32)%Z with 4294967296%Z. lra. }
  rewrite astype_ceil by (unfold int64_min, int64_max; lia).
  split; [|exact Hc].
  unfold stated_lmax. f_equal. f_equal. unfold s, y.
  replace (2 * PI * snd b / wl) with (2 * PI * (snd b / wl)) by (unfold Rdiv; ring).
  unfold Rdiv.
  transitivity (IZR m * IZR m
                + (2 * PI * / wl) * (2 * PI * / wl) * (Rabs (snd b) * Rabs (snd b))).
  - ring.
  - rewrite Rabs_mul_self. ring.
Qed.


Lemma map2_length {A B D : Type} (f : A -> B -> D) l m :
  length (map2 f l m) = Nat.min (length l) (length m).
Proof.
  revert m. induction l as [|a l IH]; intros [|b m]; simpl; auto.
Qed.

Lemma map2_nth {A B D : Type} (f : A -> B -> D) l m i da db dd :
  (i < length l)%nat -> (i < length m)%nat ->
  nth i (map2 f l m) dd = f (nth i l da) (nth i m db).
Proof.
  revert m i. induction l as [|a l IH]; intros [|b m] [|i] Hl Hm; simpl in *;
    try lia; auto.
  apply IH; lia.
Qed.

(** ** C4: the values [max_lm] returns *)



Lemma moderate_example : moderate (0, - (1 / 2)) (1 / 2) 20.
Proof.
  pose proof PI_4. pose proof PI_RGT_0.
  unfold moderate. simpl.
  replace (Rabs 0) with 0 by (symmetry; apply Rabs_R0).
  replace (Rabs (- (1 / 2))) with (1 / 2)
    by (rewrite Rabs_Ropp; symmetry; apply Rabs_pos_eq; lra).
  repeat split; lra.
Qed.


(** ** C10: the two bandlimits against each other *)

(** C10, as stated, fails: for the baseline (715827883, 0), wavelength 1
    and width 0 the m-bandlimit exceeds 2^32, its square wraps around in
    int64, and the l-bandlimit comes out below the m-bandlimit. *)
Lemma max_lm_overflow_counterexample :
  0 < 1 /\ 0 <= 0 /\
  exists l m, max_lm [(715827883, 0)] [1] 0 = ([l], [m]) /\ (l < m)%Z.
Proof.
  split; [lra|]. split; [lra|].
  rewrite max_lm_rows. simpl. eexists. eexists. split; [reflexivity|].
  pose proof PI_gt_3 as Hpi3. pose proof PI_lt_7_2 as Hpi4.
  assert (Hx : 4294967298 < 2 * PI * ((Rabs 715827883 + 0) / 1) < 5010795181).
  { rewrite Rabs_pos_eq by lra. lra. }
  assert (Hm : (4294967298 < mmax_row (715827883, 0)%R 1 0 <= 5010795181)%Z).
  { unfold mmax_row. simpl fst.
    set (x := 2 * PI * ((Rabs 715827883 + 0) / 1)) in *.
    assert (Hc : (4294967298 < Zceil x <= 5010795181)%Z).
    { split; [apply Zceil_lower | apply Zceil_upper]; lra. }
    rewrite astype_ceil by (unfold int64_min, int64_max; lia). exact Hc. }
  unfold lmax_row. simpl snd.
  set (m := mmax_row (715827883, 0) 1 0) in *.
  assert (Hw : wrap64 (m ^ 2) = (m * m - 2 ^ 64)%Z).
  { unfold wrap64.
    replace (m ^ 2 + 2 ^ 63)%Z with ((m * m - 2 ^ 64 + 2 ^ 63) + 1 * 2 ^ 64)%Z by ring.
    rewrite Z_mod_plus_full. rewrite Z.mod_small; nia. }
  rewrite Hw. rewrite Rabs_R0.
  replace (2 * PI * (0 / 1) * (2 * PI * (0 / 1))) with 0 by (unfold Rdiv; ring).
  rewrite Rplus_0_r.
  set (s := IZR (m * m - 2 ^ 64)).
  assert (Hs0 : 0 <= s) by (unfold s; apply IZR_le; nia).
  assert (Hs1 : s <= IZR (m - 1) * IZR (m - 1)).
  { unfold s. rewrite <- mult_IZR. apply IZR_le. nia. }
  assert (Hr : sqrt s <= IZR (m - 1)).
  { rewrite <- (sqrt_square (IZR (m - 1))) by (apply IZR_le; lia).
    now apply sqrt_le_1_alt. }
  assert (Hc : (0 <= Zceil (sqrt s) <= m - 1)%Z).
  { split; [apply Zceil_nonneg, sqrt_pos | now apply Zceil_upper]. }
  rewrite astype_ceil by (unfold int64_min, int64_max; lia).
  lia.
Qed.

(** C10, amended: for every baselines array, every strictly positive
    wavelength and every non-negative width whose fringe rates stay below
    2^31, the pair returned by [max_lm] satisfies lmax >= mmax >= 0
    elementwise. *)
Theorem max_lm_lmax_ge_mmax baselines wavelengths width :
  (forall b wl, In (b, wl) (combine baselines wavelengths) -> moderate b wl width) ->
  Forall2 (fun l m => (0 <= m <= l)%Z)
          (fst (max_lm baselines wavelengths width))
          (snd (max_lm baselines wavelengths width)).
Proof.
  rewrite max_lm_rows. simpl.
  revert wavelengths.
  induction baselines as [|b bs IH]; intros [|wl wls] H; simpl; try constructor.
  - assert (Hm : moderate b wl width) by (apply H; now left).
    destruct (mmax_row_moderate _ _ _ Hm) as [_ [H0 _]].
    destruct (lmax_row_moderate _ _ _ Hm) as [_ [H1 _]].
    lia.
  - apply IH. intros b' wl' Hin. apply H. now right.
Qed.

Lemma max_lm_lmax_ge_mmax_witness :
  Forall2 (fun l m => (0 <= m <= l)%Z)
          (fst (max_lm [(0, - (1 / 2))] [1 / 2] 20))
          (snd (max_lm [(0, - (1 / 2))] [1 / 2] 20)).
Proof.
  apply (max_lm_lmax_ge_mmax [(0, - (1 / 2))] [1 / 2] 20).
  intros b wl [Hin|[]]. injection Hin as <- <-. exact moderate_example.
Defined.

(** ** C2: folding into the half plane *)

Lemma map_half_plane_rows arr : map_half_plane arr = map half_plane_row arr.
Proof.
  unfold map_half_plane, fold_zero_u, fold_negative_u.
  rewrite map_map. reflexivity.
Qed.

Lemma map_half_plane_length arr : length (map_half_plane arr) = length arr.
Proof. rewrite map_half_plane_rows. apply length_map. Qed.

Lemma vneg_involutive a : vneg (vneg a) = a.
Proof. destruct a as [u v]. unfold vneg. simpl. now rewrite !Ropp_involutive. Qed.

(** Away from the axis [u = 0] a vector and its negation fold to the same
    representative. *)
Lemma half_plane_row_vneg a :
  fst a <> 0 -> half_plane_row (vneg a) = half_plane_row a.
Proof.
  destruct a as [u v]. simpl. intros Hu. unfold half_plane_row, vneg. simpl.
  destruct (R_ltb (- u) 0) eqn:E1; destruct (R_ltb u 0) eqn:E2; simpl.
  - apply R_ltb_true in E1, E2. lra.
  - apply R_ltb_true in E1. rewrite !Ropp_involutive.
    assert (R_eqb u 0 = false) as -> by now apply R_eqb_false.
    reflexivity.
  - apply R_ltb_true in E2.
    assert (R_eqb (- u) 0 = false) as -> by (apply R_eqb_false; intros H; lra).
    reflexivity.
  - apply R_ltb_false in E1, E2. exfalso. apply Hu. lra.
Qed.

(** C2: the fold at the vector (0, 1/2).  The vector folds to its negation
    and the negation folds back to the vector, so the two do not share a
    representative and folding twice is not folding once. *)
Theorem map_half_plane_on_axis :
  map_half_plane [(0, 1 / 2)] = [vneg (0, 1 / 2)] /\
  map_half_plane [vneg (0, 1 / 2)] = [(0, 1 / 2)] /\
  map_half_plane [(0, 1 / 2)] <> map_half_plane [vneg (0, 1 / 2)] /\
  map_half_plane (map_half_plane [(0, 1 / 2)]) <> map_half_plane [(0, 1 / 2)].
Proof.
  assert (E1 : half_plane_row (0, 1 / 2) = vneg (0, 1 / 2)).
  { unfold half_plane_row. simpl.
    assert (R_ltb 0 0 = false) as -> by (apply R_ltb_false; lra).
    simpl. rewrite R_eqb_refl.
    assert (R_ltb (1 / 2) 1 = true) as -> by (apply R_ltb_true; lra).
    reflexivity. }
  assert (E2 : half_plane_row (vneg (0, 1 / 2)) = (0, 1 / 2)).
  { unfold half_plane_row. simpl.
    assert (R_ltb (- 0) 0 = false) as -> by (apply R_ltb_false; lra).
    simpl.
    assert (R_eqb (- 0) 0 = true) as -> by (apply R_eqb_true; lra).
    assert (R_ltb (- (1 / 2)) 1 = true) as -> by (apply R_ltb_true; lra).
    simpl. apply (vneg_involutive (0, 1 / 2)). }
  assert (Hne : vneg (0, 1 / 2) <> (0, 1 / 2)).
  { unfold vneg. simpl. intros H. injection H as _ H. lra. }
  rewrite !map_half_plane_rows. simpl. rewrite E1, E2.
  repeat split; try reflexivity; intros H; apply Hne; congruence.
Qed.

(** ** C8: the resolution chosen for a bandlimit *)

Lemma ln_2_pos : 0 < ln 2.
Proof. pose proof ln_lt_2. lra. Qed.

Lemma ln_le_mono x y : 0 < x -> x <= y -> ln x <= ln y.
Proof.
  intros Hx [Hlt| ->]; [|lra]. left. now apply ln_increasing.
Qed.

Lemma ln_powerRZ_2 k : ln (powerRZ 2 k) = IZR k * ln 2.
Proof.
  rewrite powerRZ_Rpower by lra. unfold Rpower. apply ln_exp.
Qed.

(** The ceiling of the binary logarithm, from the powers of two around
    the argument. *)
Lemma ceil_log2_eq x k :
  powerRZ 2 (k - 1) < x <= powerRZ 2 k -> Zceil (ln x / ln 2) = k.
Proof.
  intros [Hlo Hhi].
  assert (Hx : 0 < x).
  { apply Rlt_trans with (2 := Hlo). apply powerRZ_lt. lra. }
  pose proof ln_2_pos as HL.
  assert (H1 : IZR (k - 1) * ln 2 < ln x).
  { rewrite <- ln_powerRZ_2. apply ln_increasing; [apply powerRZ_lt; lra | exact Hlo]. }
  assert (H2 : ln x <= IZR k * ln 2).
  { rewrite <- ln_powerRZ_2. now apply ln_le_mono. }
  rewrite minus_IZR in H1.
  apply Zceil_eq. split.
  - apply Rmult_lt_reg_r with (ln 2); [exact HL|].
    unfold Rdiv. rewrite Rmult_assoc, Rinv_l by lra. lra.
  - apply Rmult_le_reg_r with (ln 2); [exact HL|].
    unfold Rdiv. rewrite Rmult_assoc, Rinv_l by lra. lra.
Qed.

Lemma Rpower_2_nonneg k : (0 <= k)%Z -> Rpower 2 (IZR k) = IZR (2 ^ k).
Proof.
  intros Hk. rewrite <- (Z2Nat.id k) at 1 by exact Hk.
  rewrite <- INR_IZR_INZ, Rpower_pow by lra.
  rewrite pow_IZR. now rewrite Z2Nat.id.
Qed.

Lemma Rpower_2_neg k : (k < 0)%Z -> 0 < Rpower 2 (IZR k) < 1.
Proof.
  intros Hk. split.
  - unfold Rpower. apply exp_pos.
  - rewrite <- (Rpower_O 2) by lra. apply Rpower_lt; [lra|].
    now apply IZR_lt.
Qed.

Lemma py_int_Rpower_2 k :
  py_int (Rpower 2 (IZR k)) = if (0 <=? k)%Z then (2 ^ k)%Z else 0%Z.
Proof.
  destruct (0 <=? k)%Z eqn:E.
  - apply Z.leb_le in E. rewrite Rpower_2_nonneg by exact E. apply py_int_IZR.
  - apply Z.leb_gt in E. destruct (Rpower_2_neg k E) as [H0 H1].
    unfold py_int. assert (R_ltb (Rpower 2 (IZR k)) 0 = false) as ->
      by (apply R_ltb_false; lra).
    apply Zfloor_eq. simpl. lra.
Qed.

(** The value of [nside_for_lmax] on a bandlimit. *)
Lemma nside_for_lmax_value lmax boost :
  (0 <= lmax)%Z ->
  nside_for_lmax lmax boost =
  Ok (let k := (boost + Zceil (ln (IZR (lmax + 1) / 3) / ln 2))%Z in
      if (0 <=? k)%Z then (2 ^ k)%Z else 0%Z).
Proof.
  intros Hl. unfold nside_for_lmax.
  assert ((lmax + 1 <? 0)%Z = false) as -> by (apply Z.ltb_ge; lia).
  assert ((lmax + 1 =? 0)%Z = false) as -> by (apply Z.eqb_neq; lia).
  unfold np_ceil. rewrite <- plus_IZR. now rewrite py_int_Rpower_2.
Qed.

(** C8, as stated, fails: the bandlimits 3 and 4 get the same resolution. *)
Lemma nside_for_lmax_plateau_counterexample :
  (3 < 4)%Z /\
  nside_for_lmax 3 1 = Ok 4%Z /\ nside_for_lmax 4 1 = Ok 4%Z /\ ~ (4 < 4)%Z.
Proof.
  split; [lia|].
  rewrite !nside_for_lmax_value by lia.
  assert (E3 : Zceil (ln (IZR (3 + 1) / 3) / ln 2) = 1%Z).
  { apply ceil_log2_eq. simpl. lra. }
  assert (E4 : Zceil (ln (IZR (4 + 1) / 3) / ln 2) = 1%Z).
  { apply ceil_log2_eq. simpl. lra. }
  rewrite E3, E4. simpl. repeat split; lia.
Qed.

(** C8, amended: the resolution never decreases with the bandlimit: for
    bandlimits l1 <= l2 (from -1 on) the resolution chosen for l1 is at most
    the resolution chosen for l2. *)
Theorem nside_for_lmax_monotone boost l1 l2 :
  (-1 <= l1)%Z -> (l1 <= l2)%Z ->
  exists n1 n2,
    nside_for_lmax l1 boost = Ok n1 /\ nside_for_lmax l2 boost = Ok n2 /\
    (n1 <= n2)%Z.
Proof.
  intros H1 H12.
  assert (Hnn : forall k, (0 <= (if (0 <=? k)%Z then 2 ^ k else 0))%Z).
  { intros k. destruct (0 <=? k)%Z eqn:E; [|lia].
    apply Z.leb_le in E. apply Z.pow_nonneg. lia. }
  destruct (Z.eq_dec l1 (-1)) as [->|Hl1].
  - destruct (Z.eq_dec l2 (-1)) as [->|Hl2].
    + exists 0%Z, 0%Z. repeat split; try reflexivity; lia.
    + rewrite (nside_for_lmax_value l2) by lia.
      eexists. eexists. split; [reflexivity|]. split; [reflexivity|]. apply Hnn.
  - rewrite (nside_for_lmax_value l1), (nside_for_lmax_value l2) by lia.
    eexists. eexists. split; [reflexivity|]. split; [reflexivity|].
    cbv zeta.
    set (k1 := Zceil (ln (IZR (l1 + 1) / 3) / ln 2)).
    set (k2 := Zceil (ln (IZR (l2 + 1) / 3) / ln 2)).
    assert (Hk : (k1 <= k2)%Z).
    { apply Zceil_le. pose proof ln_2_pos as HL.
      apply Rmult_le_compat_r; [left; now apply Rinv_0_lt_compat|].
      assert (Ha : 0 < IZR (l1 + 1)) by (apply IZR_lt; lia).
      assert (Hb : IZR (l1 + 1) <= IZR (l2 + 1)) by (apply IZR_le; lia).
      apply ln_le_mono; lra. }
    destruct (0 <=? boost + k1)%Z eqn:E1; destruct (0 <=? boost + k2)%Z eqn:E2.
    + apply Z.leb_le in E1, E2. apply Z.pow_le_mono_r; lia.
    + apply Z.leb_le in E1. apply Z.leb_gt in E2. lia.
    + apply Z.leb_le in E2. apply Z.pow_nonneg. lia.
    + lia.
Qed.

Lemma nside_for_lmax_monotone_witness :
  exists n1 n2,
    nside_for_lmax 3 1 = Ok n1 /\ nside_for_lmax 4 1 = Ok n2 /\ (n1 <= n2)%Z.
Proof.
  apply (nside_for_lmax_monotone 1 3 4); lia.
Defined.

(** ** C1: the side length of the output *)

Lemma two_feed_lmax_row :
  (0 < lmax_row (0, - (1 / 2))%R (1 / 2) 20 <= 2 ^ 32)%Z.
Proof.
  pose proof moderate_example as Hm.
  destruct (mmax_row_moderate _ _ _ Hm) as [He _].
  destruct (lmax_row_moderate _ _ _ Hm) as [_ [Hl Hu]].
  assert (H0 : (0 < mmax_row (0, - (1 / 2))%R (1 / 2) 20)%Z).
  { rewrite He. unfold full_width_mmax. apply Zceil_lower. simpl.
    rewrite Rabs_R0. pose proof PI_RGT_0. lra. }
  lia.
Qed.

Lemma two_feed_sides :
  request_lmax two_feed_telescope [0%Z] [0%Z] =
    [(2 * lmax_row (0, - (1 / 2))%R (1 / 2) 20)%Z] /\
  telescope_lmax two_feed_telescope = Ok (lmax_row (0, - (1 / 2))%R (1 / 2) 20).
Proof.
  pose proof two_feed_lmax_row as [H0 H1]. split.
  - unfold request_lmax. rewrite max_lm_rows.
    cbn [two_feed_telescope baselines wavelengths u_width take map nth Z.to_nat map2].
    rewrite wrap64_small by lia. f_equal. lia.
  - unfold telescope_lmax.
    change (last_item (wavelengths two_feed_telescope)) with (Ok (1 / 2)).
    cbn [bind]. rewrite max_lm_rows. reflexivity.
Qed.

(** C1: the side lengths chosen for the request of the only pair of the
    two-feed telescope.  With [global_lmax] set the side is the telescope's
    bandlimit L, without it the side is 2 L: the global side is the smaller
    one. *)
Theorem choose_lside_global_below_local :
  exists L : Z,
    (0 < L)%Z /\
    choose_lside two_feed_telescope
      (request_lmax two_feed_telescope [0%Z] [0%Z]) true = Ok L /\
    choose_lside two_feed_telescope
      (request_lmax two_feed_telescope [0%Z] [0%Z]) false = Ok (2 * L)%Z.
Proof.
  exists (lmax_row (0, - (1 / 2)) (1 / 2) 20).
  pose proof two_feed_lmax_row as [H0 _].
  destruct two_feed_sides as [Hr Ht].
  split; [exact H0|]. split.
  - unfold choose_lside. exact Ht.
  - unfold choose_lside. rewrite Hr. reflexivity.
Qed.

(** ** C5: validation of the indices *)

Lemma out_of_range_intro arr lo hi :
  (exists i, In i arr /\ ~ (lo <= i < hi)%Z) -> out_of_range arr lo hi = true.
Proof.
  intros (i & Hin & Hi). unfold out_of_range, in_range.
  apply negb_true_iff. apply andb_false_iff.
  destruct (Z.le_gt_cases lo i) as [Hlo|Hlo].
  - right. apply not_true_is_false. intros H.
    rewrite forallb_forall in H. specialize (H i Hin). apply Z.ltb_lt in H. lia.
  - left. apply not_true_is_false. intros H.
    rewrite forallb_forall in H. specialize (H i Hin). apply Z.leb_le in H. lia.
Qed.

Lemma out_of_range_elim arr lo hi :
  out_of_range arr lo hi = false -> forall i, In i arr -> (lo <= i < hi)%Z.
Proof.
  unfold out_of_range, in_range. intros H i Hin.
  apply negb_false_iff in H. apply andb_true_iff in H as [H1 H2].
  rewrite forallb_forall in H1, H2.
  specialize (H1 i Hin). specialize (H2 i Hin).
  apply Z.leb_le in H1. apply Z.ltb_lt in H2. lia.
Qed.

(** C5: when an index of the (broadcast) request lies outside its range,
    [transfer_matrices] raises [InvalidIndex]; no buffer has been allocated,
    the kernel has not been invoked, nothing has been copied and the grid
    caches are as they were. *)
Theorem transfer_matrices_invalid_index (V : Variant) tel (st : vstate V)
  bl_indices f_indices global_lmax bl f :
  np_broadcast_arrays bl_indices f_indices = Ok (bl, f) ->
  (exists i, In i bl /\ ~ (0 <= i < nbase tel)%Z) \/
  (exists i, In i f /\ ~ (0 <= i < nfreq tel)%Z) ->
  exists k,
    transfer_matrices V tel st bl_indices f_indices global_lmax =
    (Raise (InvalidIndex k), no_effects, st).
Proof.
  intros Hb H. unfold transfer_matrices. rewrite Hb.
  destruct (out_of_range bl 0 (nbase tel)) eqn:E1.
  - now exists BaselineIndex.
  - destruct H as [H|H].
    + apply out_of_range_intro in H. congruence.
    + apply out_of_range_intro in H. rewrite H. now exists FrequencyIndex.
Qed.

Lemma transfer_matrices_invalid_index_witness :
  exists k,
    transfer_matrices
      (PolarisedTelescope.variant (fun _ _ => []) (fun _ _ _ _ => []))
      two_feed_telescope 2%Z [1%Z] [0%Z] true =
    (Raise (InvalidIndex k), no_effects, 2%Z).
Proof.
  apply (transfer_matrices_invalid_index
           (PolarisedTelescope.variant (fun _ _ => []) (fun _ _ _ _ => []))
           two_feed_telescope 2%Z [1%Z] [0%Z] true [1%Z] [0%Z]).
  - reflexivity.
  - left. exists 1%Z. split; [now left|]. unfold nbase. simpl. lia.
Defined.

(** ** Insertion sort *)

Section InsertionSortFacts.

Context {A : Type} (leb : A -> A -> bool).

Hypothesis leb_total : forall a b, leb a b = true \/ leb b a = true.

Let le (a b : A) : Prop := leb a b = true.

Lemma insert_sorted_perm x l : Permutation (insert_sorted leb x l) (x :: l).
Proof.
  induction l as [|y l IH]; simpl.
  - apply Permutation_refl.
  - destruct (leb x y).
    + apply Permutation_refl.
    + apply perm_trans with (y :: x :: l).
      * now apply perm_skip.
      * apply perm_swap.
Qed.

Lemma sort_by_perm l : Permutation (sort_by leb l) l.
Proof.
  induction l as [|x l IH]; simpl.
  - apply perm_nil.
  - apply perm_trans with (x :: sort_by leb l).
    + apply insert_sorted_perm.
    + now apply perm_skip.
Qed.

Lemma insert_sorted_hd x y l :
  le y x -> HdRel le y l -> HdRel le y (insert_sorted leb x l).
Proof.
  intros Hyx Hl. destruct l as [|z l]; simpl.
  - now constructor.
  - destruct (leb x z); constructor; auto.
    now inversion Hl.
Qed.

Lemma insert_sorted_sorted x l :
  Sorted le l -> Sorted le (insert_sorted leb x l).
Proof.
  induction l as [|y l IH]; intros Hs; simpl.
  - repeat constructor.
  - destruct (leb x y) eqn:E.
    + constructor; [exact Hs | now constructor].
    + inversion Hs as [|? ? Hs' Hhd]; subst.
      constructor; [now apply IH|].
      apply insert_sorted_hd; [|exact Hhd].
      destruct (leb_total x y) as [H|H]; [congruence | exact H].
Qed.

Lemma sort_by_sorted l : Sorted le (sort_by leb l).
Proof.
  induction l as [|x l IH]; simpl.
  - constructor.
  - now apply insert_sorted_sorted.
Qed.

End InsertionSortFacts.

Lemma Sorted_map {A B : Type} (f : A -> B) (R : A -> A -> Prop) (S : B -> B -> Prop) l :
  (forall a b, R a b -> S (f a) (f b)) -> Sorted R l -> Sorted S (map f l).
Proof.
  intros H. induction 1 as [|a l Hs IH Hhd]; simpl; constructor; auto.
  destruct Hhd; simpl; constructor; auto.
Qed.

Lemma Sorted_firstn {A : Type} (R : A -> A -> Prop) l k :
  Sorted R l -> Sorted R (firstn k l).
Proof.
  intros Hs. revert k. induction Hs as [|a l Hs IH Hhd]; intros [|k]; simpl;
    try constructor.
  - apply IH.
  - destruct Hhd; destruct k; simpl; constructor; auto.
Qed.

(** ** [np.argsort] *)

Lemma map_snd_combine {A B : Type} (l : list A) (m : list B) :
  length l = length m -> map snd (combine l m) = m.
Proof.
  revert m. induction l as [|a l IH]; intros [|b m] H; simpl in *; try lia; auto.
  f_equal. apply IH. lia.
Qed.

Lemma in_combine_seq (keys : list Z) a k i :
  In (k, i) (combine keys (seq a (length keys))) ->
  (a <= i)%nat /\ nth (i - a) keys 0%Z = k.
Proof.
  revert a. induction keys as [|x keys IH]; intros a; simpl; [easy|].
  intros [H|H].
  - injection H as <- <-. split; [lia|]. now rewrite Nat.sub_diag.
  - apply IH in H as [H1 H2]. split; [lia|].
    replace (i - a)%nat with (S (i - S a)) by lia. exact H2.
Qed.

Lemma np_argsort_perm keys :
  Permutation (np_argsort keys) (seq 0 (length keys)).
Proof.
  unfold np_argsort.
  rewrite <- (map_snd_combine keys (seq 0 (length keys))) at 2
    by now rewrite length_seq.
  apply Permutation_map. apply sort_by_perm.
Qed.

Lemma np_argsort_length keys : length (np_argsort keys) = length keys.
Proof.
  rewrite (Permutation_length (np_argsort_perm keys)). apply length_seq.
Qed.

(** The keys read in the order of [np.argsort] never decrease. *)
Lemma np_argsort_sorted keys :
  Sorted Z.le (map (fun i => nth i keys 0%Z) (np_argsort keys)).
Proof.
  unfold np_argsort.
  set (leb := fun a b : Z * nat => (fst a <=? fst b)%Z).
  set (s := sort_by leb (combine keys (seq 0 (length keys)))).
  assert (Hin : forall p, In p s -> nth (snd p) keys 0%Z = fst p).
  { intros [k i] Hp.
    apply (Permutation_in _ (sort_by_perm leb _)) in Hp.
    apply in_combine_seq in Hp as [_ Hp]. simpl.
    now rewrite Nat.sub_0_r in Hp. }
  rewrite map_map.
  rewrite (map_ext_in _ fst) by (intros p Hp; now apply Hin).
  apply Sorted_map with (R := fun a b => leb a b = true).
  - intros a b H. now apply Z.leb_le.
  - apply sort_by_sorted. intros a b. unfold leb.
    destruct (Z.le_ge_cases (fst a) (fst b)); [left | right]; now apply Z.leb_le.
Qed.

(** ** C7: the order of the kernel invocations *)

Section LoopFacts.

Variable V : Variant.

Lemma transfer_loop_trace bl f lmax lside order :
  forall (arr : tarray V) eff (st : vstate V),
    let r := transfer_loop V bl f lmax lside order arr eff st in
    allocated (effects_of r) = allocated eff /\
    exists k,
      (k <= length order)%nat /\
      kernel_calls (effects_of r) =
        kernel_calls eff ++ map (call_at bl f lmax lside) (firstn k order) /\
      match outcome r with
      | Ok _ => k = length order /\ copied (effects_of r) = copied eff ++ order
      | Raise _ =>
          (1 <= k)%nat /\ copied (effects_of r) = copied eff ++ firstn (k - 1) order
      end.
Proof.
  induction order as [|ind order IH]; intros arr eff st; cbn zeta.
  - simpl. split; [reflexivity|]. exists 0%nat. simpl.
    rewrite !app_nil_r. repeat split; lia.
  - simpl transfer_loop.
    destruct (_transfer_single V st (nth ind bl 0%Z) (nth ind f 0%Z)
                (nth ind lmax 0%Z) lside) as [[trans|e] st'].
    + destruct (_copy_single_into_array V arr trans ind) as [arr'|e].
      * match goal with
        | |- context [transfer_loop V bl f lmax lside order arr' ?e st'] =>
            specialize (IH arr' e st'); cbn zeta in IH;
            destruct IH as (Ha & k & Hk & Hc & Ho)
        end.
        split; [exact Ha|].
        exists (S k). split; [simpl; lia|]. split.
        -- rewrite Hc. simpl. now rewrite <- app_assoc.
        -- destruct (outcome _).
           ++ destruct Ho as [-> Ho]. split; [reflexivity|].
              rewrite Ho. simpl. now rewrite <- app_assoc.
           ++ destruct Ho as [Hk1 Ho]. split; [lia|].
              rewrite Ho. simpl. rewrite <- app_assoc. simpl.
              rewrite Nat.sub_0_r. destruct k; [lia|]. simpl.
              now rewrite Nat.sub_0_r.
      * split; [reflexivity|]. exists 1%nat. simpl.
        rewrite app_nil_r. repeat split; lia.
    + split; [reflexivity|]. exists 1%nat. simpl.
      rewrite app_nil_r. repeat split; lia.
Qed.

End LoopFacts.

(** ** Arrays: reading after writing *)

Lemma list_set_length {A : Type} (l : list A) i v :
  length (list_set l i v) = length l.
Proof.
  revert i. induction l as [|x l IH]; intros [|i]; simpl; auto.
Qed.

Lemma list_set_same {A : Type} (l : list A) i v :
  (i < length l)%nat -> nth_error (list_set l i v) i = Some v.
Proof.
  revert i. induction l as [|x l IH]; intros [|i] H; simpl in *; try lia; auto.
  apply IH. lia.
Qed.

Lemma list_set_other {A : Type} (l : list A) i j v :
  i <> j -> nth_error (list_set l i v) j = nth_error l j.
Proof.
  revert i j. induction l as [|x l IH]; intros [|i] [|j] H; simpl; auto;
    try congruence.
Qed.

Lemma set2_get_same a i j v a' :
  set2 a i j v = Ok a' -> get2 a' i j = Ok v.
Proof.
  unfold set2, get2. destruct (nth_error a i) as [row|] eqn:Er; [|discriminate].
  destruct (j <? length row)%nat eqn:Ej; [|discriminate].
  intros H. injection H as <-. apply Nat.ltb_lt in Ej.
  rewrite list_set_same by (apply nth_error_Some; congruence).
  now rewrite list_set_same.
Qed.

Lemma set2_get_other a i j v a' i' j' :
  set2 a i j v = Ok a' -> (i', j') <> (i, j) -> get2 a' i' j' = get2 a i' j'.
Proof.
  unfold set2, get2. destruct (nth_error a i) as [row|] eqn:Er; [|discriminate].
  destruct (j <? length row)%nat eqn:Ej; [|discriminate].
  intros H Hne. injection H as <-.
  destruct (Nat.eq_dec i i') as [<-|Hi].
  - rewrite list_set_same by (apply nth_error_Some; congruence).
    rewrite Er. rewrite list_set_other by congruence. reflexivity.
  - now rewrite list_set_other.
Qed.

Lemma set2_defined a i j v w :
  get2 a i j = Ok w -> exists a', set2 a i j v = Ok a'.
Proof.
  unfold set2, get2. destruct (nth_error a i) as [row|]; [|discriminate].
  destruct (nth_error row j) eqn:Ej; [|discriminate]. intros _.
  assert (H : (j < length row)%nat) by (apply nth_error_Some; congruence).
  apply Nat.ltb_lt in H. rewrite H. eauto.
Qed.

Lemma set2_shape a i j v a' :
  set2 a i j v = Ok a' -> shape0 a' = shape0 a /\ shape1 a' = shape1 a.
Proof.
  unfold set2. destruct (nth_error a i) as [row|] eqn:Er; [|discriminate].
  destruct (j <? length row)%nat; [|discriminate].
  intros H. injection H as <-. unfold shape0, shape1. split.
  - apply list_set_length.
  - destruct a as [|r0 a]; [reflexivity|]. destruct i; simpl in *.
    + injection Er as ->. apply list_set_length.
    + reflexivity.
Qed.

Lemma set_items_get_other idx : forall a vals a' i j,
  set_items a idx vals = Ok a' -> ~ In (i, j) idx -> get2 a' i j = get2 a i j.
Proof.
  induction idx as [|[i0 j0] idx IH]; intros a vals a' i j H Hn; simpl in H.
  - now injection H as <-.
  - destruct vals as [|v vals]; [now injection H as <-|].
    destruct (set2 a i0 j0 v) as [a1|] eqn:E1; [|discriminate]. simpl in H.
    rewrite (IH _ _ _ _ _ H) by (intros Hin; apply Hn; now right).
    apply (set2_get_other _ _ _ _ _ _ _ E1).
    intros Heq. apply Hn. left. congruence.
Qed.

Lemma set_items_shape idx : forall a vals a',
  set_items a idx vals = Ok a' -> shape0 a' = shape0 a /\ shape1 a' = shape1 a.
Proof.
  induction idx as [|[i0 j0] idx IH]; intros a vals a' H; simpl in H.
  - now injection H as <-.
  - destruct vals as [|v vals]; [now injection H as <-|].
    destruct (set2 a i0 j0 v) as [a1|] eqn:E1; [|discriminate]. simpl in H.
    destruct (IH _ _ _ H) as [H0 H1]. destruct (set2_shape _ _ _ _ _ E1) as [H2 H3].
    split; congruence.
Qed.

Lemma set_items_defined idx : forall a vals,
  (forall i j, In (i, j) idx -> exists w, get2 a i j = Ok w) ->
  exists a', set_items a idx vals = Ok a'.
Proof.
  induction idx as [|[i0 j0] idx IH]; intros a vals Hb; simpl.
  - eauto.
  - destruct vals as [|v vals]; [eauto|].
    destruct (Hb i0 j0 (or_introl eq_refl)) as [w Hw].
    destruct (set2_defined a i0 j0 v w Hw) as [a1 E1]. rewrite E1. simpl.
    apply IH. intros i j Hin.
    destruct (Nat.eq_dec i i0) as [->|Hi]; [destruct (Nat.eq_dec j j0) as [->|Hj]|].
    + exists v. apply (set2_get_same _ _ _ _ _ E1).
    + rewrite (set2_get_other _ _ _ _ _ i0 j E1) by congruence.
      apply Hb. now right.
    + rewrite (set2_get_other _ _ _ _ _ i j E1) by congruence.
      apply Hb. now right.
Qed.

(** Reading the positions just written gives the values written. *)
Lemma set_items_get idx : forall a vals a',
  NoDup idx -> length vals = length idx ->
  set_items a idx vals = Ok a' -> fancy_get a' idx = Ok vals.
Proof.
  unfold fancy_get.
  induction idx as [|[i0 j0] idx IH]; intros a vals a' Hnd Hlen H.
  - destruct vals; [reflexivity | discriminate].
  - destruct vals as [|v vals]; [discriminate|]. simpl in H.
    destruct (set2 a i0 j0 v) as [a1|] eqn:E1; [|discriminate]. simpl in H.
    inversion Hnd as [|? ? Hnin Hnd']; subst.
    simpl.
    rewrite (set_items_get_other _ _ _ _ _ _ H Hnin).
    rewrite (set2_get_same _ _ _ _ _ E1). simpl.
    rewrite (IH a1 vals a' Hnd') by (simpl in Hlen; auto; lia). reflexivity.
Qed.

Lemma mapM_ok_ext {A B : Type} (f g : A -> result B) l vs :
  mapM f l = Ok vs ->
  (forall x v, In x l -> f x = Ok v -> g x = Ok v) ->
  mapM g l = Ok vs.
Proof.
  revert vs. induction l as [|a l IH]; intros vs H Hfg; simpl in *.
  - exact H.
  - destruct (f a) as [b|] eqn:Ea; [|discriminate]. simpl in H.
    destruct (mapM f l) as [bs|] eqn:El; [|discriminate]. simpl in H.
    rewrite (Hfg a b (or_introl eq_refl) Ea). simpl.
    rewrite (IH bs eq_refl) by (intros x v Hin; apply Hfg; now right).
    exact H.
Qed.

Lemma get2_zeros r c i j :
  (i < r)%nat -> (j < c)%nat -> get2 (repeat (repeat Czero c) r) i j = Ok Czero.
Proof.
  intros Hi Hj. unfold get2. rewrite nth_error_repeat by exact Hi.
  now rewrite nth_error_repeat.
Qed.

(** ** [np.triu_indices] *)

Lemma in_triu_indices n k i j :
  In (i, j) (triu_indices n k) <-> (i + k <= j /\ j < n)%nat.
Proof.
  unfold triu_indices. rewrite in_flat_map. split.
  - intros (i' & Hi' & Hin). apply in_map_iff in Hin as (j' & Heq & Hj').
    injection Heq as <- <-. apply in_seq in Hi', Hj'. lia.
  - intros [H1 H2]. exists i. split.
    + apply in_seq. lia.
    + apply in_map_iff. exists j. split; [reflexivity|]. apply in_seq. lia.
Qed.

Lemma NoDup_flat_map_pairs (g : nat -> list nat) l :
  NoDup l -> (forall i, NoDup (g i)) ->
  NoDup (flat_map (fun i => map (fun j => (i, j)) (g i)) l).
Proof.
  intros Hl Hg. induction Hl as [|a l Hnin Hl IH]; simpl.
  - constructor.
  - apply NoDup_app.
    + apply NoDup_map_NoDup_ForallPairs; [|apply Hg].
      intros x y _ _ H. congruence.
    + exact IH.
    + intros [i j] H1 H2. apply in_map_iff in H1 as (j' & Heq & _).
      injection Heq as <- <-.
      apply in_flat_map in H2 as (i' & Hi' & Hin).
      apply in_map_iff in Hin as (j'' & Heq & _). injection Heq as -> _.
      contradiction.
Qed.

Lemma triu_indices_NoDup n k : NoDup (triu_indices n k).
Proof.
  unfold triu_indices.
  apply (NoDup_flat_map_pairs (fun i => seq (i + k) (n - (i + k)))).
  - apply seq_NoDup.
  - intros i. apply seq_NoDup.
Qed.

Lemma triu_rows_length n k c :
  (c <= n)%nat ->
  (2 * length (flat_map (fun i => map (fun j => (i, j)) (seq (i + k) (n - (i + k))))
                        (seq 0 c))
   + c * (c + 2 * k) = c * (2 * n + 1)
   \/ n < c + k)%nat.
Proof.
  induction c as [|c IH]; intros Hc.
  - left. simpl. lia.
  - destruct (Nat.lt_ge_cases n (S c + k)) as [Hlt|Hge]; [now right|].
    destruct IH as [IH|IH]; [lia| |lia]. left.
    rewrite seq_S, flat_map_app, length_app. simpl flat_map.
    rewrite app_nil_r, length_map, length_seq. simpl Nat.add at 1. nia.
Qed.

(** [np.triu_indices(n)] has [n (n + 1) / 2] positions and
    [np.triu_indices(n, 1)] has [n (n - 1) / 2]. *)
Lemma triu_indices_length_0 n : (2 * length (triu_indices n 0) = n * (n + 1))%nat.
Proof.
  destruct (triu_rows_length n 0 n (le_n n)) as [H|H]; [|lia].
  unfold triu_indices. nia.
Qed.

Lemma triu_indices_length_1 n : (2 * length (triu_indices n 1) = n * (n - 1))%nat.
Proof.
  destruct n as [|n]; [reflexivity|].
  unfold triu_indices. rewrite seq_S, flat_map_app, length_app.
  cbn [flat_map Nat.add]. rewrite app_nil_r, length_map, length_seq.
  destruct (triu_rows_length (S n) 1 n) as [H|H]; [lia| |lia].
  nia.
Qed.

(** ** C9: unpacking and packing harmonic coefficients *)

Lemma swap_injective p q : swap p = swap q -> p = q.
Proof. destruct p, q. unfold swap. simpl. congruence. Qed.

Lemma unpack_alm_full_of_half alm lmax :
  unpack_alm alm lmax true =
  (half <- unpack_alm alm lmax false ;; _make_full_alm half false).
Proof.
  unfold unpack_alm.
  destruct (np_zeros2 (lmax + 1) (lmax + 1)); simpl; [|reflexivity].
  destruct (triu_indices_Z (lmax + 1)); simpl; [|reflexivity].
  destruct (fancy_set a (map swap a0) alm); reflexivity.
Qed.

Lemma shape1_repeat (row : list complex) r :
  (1 <= r)%nat -> shape1 (repeat row r) = length row.
Proof. destruct r; [lia | reflexivity]. Qed.

(** The triangular array holds [alm] at the positions of the transposed
    upper triangle. *)
Lemma unpack_alm_half alm lmax :
  (0 <= lmax)%Z ->
  length alm = length (triu_indices (Z.to_nat (lmax + 1)) 0) ->
  exists half,
    unpack_alm alm lmax false = Ok half /\
    shape0 half = Z.to_nat (lmax + 1) /\
    shape1 half = Z.to_nat (lmax + 1) /\
    fancy_get half (map swap (triu_indices (Z.to_nat (lmax + 1)) 0)) = Ok alm.
Proof.
  intros Hl Hlen. unfold unpack_alm, np_zeros2, triu_indices_Z.
  assert ((lmax + 1 <? 0)%Z = false) as -> by (apply Z.ltb_ge; lia).
  simpl.
  set (n := Z.to_nat (lmax + 1)) in *.
  assert (Hn : (1 <= n)%nat) by (unfold n; lia).
  set (idx := triu_indices n 0) in *.
  unfold fancy_set, broadcast_values. rewrite length_map.
  assert ((length alm =? length idx)%nat = true) as -> by now apply Nat.eqb_eq.
  simpl.
  destruct (set_items_defined (map swap idx) (repeat (repeat Czero n) n) alm)
    as [half Hhalf].
  { intros i j Hin. apply in_map_iff in Hin as ([r c] & Heq & Hin).
    unfold swap in Heq. simpl in Heq. injection Heq as <- <-.
    apply in_triu_indices in Hin. exists Czero. apply get2_zeros; lia. }
  exists half. rewrite Hhalf. split; [reflexivity|].
  destruct (set_items_shape _ _ _ _ Hhalf) as [H0 H1].
  split; [|split].
  - rewrite H0. unfold shape0. apply repeat_length.
  - rewrite H1, shape1_repeat by exact Hn. apply repeat_length.
  - apply (set_items_get _ _ _ _ ) with (3 := Hhalf).
    + apply NoDup_map_NoDup_ForallPairs; [|apply triu_indices_NoDup].
      intros p q _ _. apply swap_injective.
    + now rewrite length_map.
Qed.

Lemma get2_map2_app (g : list complex -> list complex) a : forall i j v,
  get2 a i j = Ok v -> get2 (map2 (@app complex) a (map g a)) i j = Ok v.
Proof.
  unfold get2. induction a as [|row a IH]; intros [|i] j v H; simpl in *;
    try discriminate.
  - destruct (nth_error row j) eqn:Ej; [|discriminate].
    rewrite nth_error_app1 by (apply nth_error_Some; congruence).
    now rewrite Ej.
  - now apply IH.
Qed.

Lemma mfactor_length mmax : length (mfactor mmax) = (mmax - 1)%nat.
Proof.
  unfold mfactor. rewrite length_map, length_rev.
  destruct mmax; [reflexivity|]. simpl. rewrite length_seq. lia.
Qed.

Lemma alm_neg_row_length mmax row :
  length row = mmax -> length (alm_neg_row mmax row) = (mmax - 1)%nat.
Proof.
  intros H. unfold alm_neg_row.
  rewrite map2_length, mfactor_length, length_map, length_rev.
  destruct row; simpl in *; lia.
Qed.

Lemma make_full_alm_value half :
  (1 <= shape1 half)%nat ->
  _make_full_alm half false =
  Ok (map2 (@app complex) half (map (alm_neg_row (shape1 half)) half)).
Proof.
  intros H. unfold _make_full_alm, np_zeros2.
  assert ((Z.of_nat (shape0 half) <? 0)%Z = false) as -> by (apply Z.ltb_ge; lia).
  assert ((2 * Z.of_nat (shape1 half) - 1 <? 0)%Z = false) as ->
    by (apply Z.ltb_ge; lia).
  reflexivity.
Qed.

Lemma full_alm_shape half :
  (1 <= shape1 half)%nat ->
  let full := map2 (@app complex) half (map (alm_neg_row (shape1 half)) half) in
  shape0 full = shape0 half /\ shape1 full = (2 * shape1 half - 1)%nat.
Proof.
  intros H. cbn zeta. split.
  - unfold shape0. rewrite map2_length, length_map. lia.
  - destruct half as [|row half]; [simpl in H; lia|].
    simpl. rewrite length_app, alm_neg_row_length by reflexivity. simpl in H. lia.
Qed.

(** C9: a triangular array of the coefficients of non-negative order for
    a bandlimit [lmax >= 0], that is [(lmax + 1)(lmax + 2) / 2] of them,
    unpacked into the full form and packed again, is the array itself,
    whether [pack_alm] is told the bandlimit or works it out. *)
Theorem pack_unpack_alm alm lmax :
  (0 <= lmax)%Z ->
  (2 * Z.of_nat (length alm) = (lmax + 1) * (lmax + 2))%Z ->
  (full <- unpack_alm alm lmax true ;; pack_alm full None) = Ok alm /\
  (full <- unpack_alm alm lmax true ;; pack_alm full (Some lmax)) = Ok alm.
Proof.
  intros Hl Hlen.
  set (n := Z.to_nat (lmax + 1)).
  assert (Hn : (1 <= n)%nat) by (unfold n; lia).
  assert (Hlen' : length alm = length (triu_indices n 0)).
  { pose proof (triu_indices_length_0 n) as Ht. unfold n in *. nia. }
  destruct (Nat.eq_dec n 1) as [Hn1|Hn1].
  - assert (lmax = 0%Z) as -> by (unfold n in Hn1; lia).
    destruct alm as [|x [|y alm]]; simpl in Hlen; try lia.
    split; reflexivity.
  - destruct (unpack_alm_half alm lmax Hl Hlen') as (half & Hu & H0 & H1 & Hg).
    fold n in H0, H1, Hg.
    rewrite unpack_alm_full_of_half, Hu. cbn [bind].
    rewrite make_full_alm_value by lia. cbn [bind].
    destruct (full_alm_shape half) as [F0 F1]; [lia|].
    set (full := map2 (@app complex) half (map (alm_neg_row (shape1 half)) half)) in *.
    assert (Hread : fancy_get full (map swap (triu_indices n 0)) = Ok alm).
    { unfold fancy_get in *. apply (mapM_ok_ext _ _ _ _ Hg).
      intros p v _ Hp. now apply get2_map2_app. }
    unfold pack_alm. rewrite F0, F1, H0, H1.
    assert ((2 * Z.of_nat (2 * n - 1) - 1 =? Z.of_nat n)%Z = false) as ->
      by (apply Z.eqb_neq; lia).
    cbn [bind]. rewrite F0, H0.
    assert ((lmax =? 0)%Z = false) as -> by (apply Z.eqb_neq; unfold n in *; lia).
    unfold triu_indices_Z.
    assert ((Z.of_nat n - 1 + 1 <? 0)%Z = false) as -> by (apply Z.ltb_ge; lia).
    assert ((lmax + 1 <? 0)%Z = false) as -> by (apply Z.ltb_ge; lia).
    cbn [bind].
    replace (Z.to_nat (Z.of_nat n - 1 + 1)) with n by lia.
    fold n. split; exact Hread.
Qed.

Lemma pack_unpack_alm_witness :
  (full <- unpack_alm [(1, 0); (2, 1); (3, -1)] 1 true ;; pack_alm full None)
    = Ok [(1, 0); (2, 1); (3, -1)] /\
  (full <- unpack_alm [(1, 0); (2, 1); (3, -1)] 1 true ;; pack_alm full (Some 1%Z))
    = Ok [(1, 0); (2, 1); (3, -1)].
Proof.
  apply (pack_unpack_alm [(1, 0); (2, 1); (3, -1)] 1); simpl; lia.
Defined.

(** ** [np.unique] on complex numbers *)

Lemma complex_leb_le a b : complex_leb a b = true <-> complex_le a b.
Proof.
  unfold complex_leb, complex_le.
  rewrite orb_true_iff, andb_true_iff, negb_true_iff.
  rewrite R_ltb_true, R_eqb_true, R_ltb_false. reflexivity.
Qed.

Lemma complex_eqb_eq a b : complex_eqb a b = true <-> a = b.
Proof.
  unfold complex_eqb. rewrite andb_true_iff, !R_eqb_true.
  destruct a, b; simpl. split; [intros [-> ->]; reflexivity | intros H].
  injection H as -> ->. now split.
Qed.

Lemma complex_eqb_refl a : complex_eqb a a = true.
Proof. now apply complex_eqb_eq. Qed.

Lemma complex_le_total a b : complex_le a b \/ complex_le b a.
Proof.
  unfold complex_le.
  destruct (Rtotal_order (fst a) (fst b)) as [H|[H|H]]; [left; now left| |right; now left].
  destruct (Rle_or_lt (snd a) (snd b)) as [H'|H'].
  - left. right. now split.
  - right. right. split; [now symmetry | lra].
Qed.

Lemma complex_le_trans a b c : complex_le a b -> complex_le b c -> complex_le a c.
Proof. unfold complex_le. intros [H1|[H1 H1']] [H2|[H2 H2']]; [left|left|left|right]; lra. Qed.

Lemma complex_le_antisym a b : complex_le a b -> complex_le b a -> a = b.
Proof.
  unfold complex_le. destruct a, b; simpl.
  intros [H1|[H1 H1']] [H2|[H2 H2']]; try lra.
  f_equal; lra.
Qed.

Lemma complex_leb_total a b : complex_leb a b = true \/ complex_leb b a = true.
Proof.
  destruct (complex_le_total a b) as [H|H]; [left | right]; now apply complex_leb_le.
Qed.

Lemma sort_complex_sorted l : StronglySorted complex_le (sort_by complex_leb l).
Proof.
  apply Sorted_StronglySorted.
  - intros a b c. apply complex_le_trans.
  - rewrite <- (map_id (sort_by complex_leb l)).
    apply Sorted_map with (R := fun a b => complex_leb a b = true).
    + intros a b. apply complex_leb_le.
    + apply sort_by_sorted. apply complex_leb_total.
Qed.

Lemma uniq_from_incl prev l x : In x (uniq_from prev l) -> In x l.
Proof.
  revert prev. induction l as [|y l IH]; intros prev H; simpl in *; [easy|].
  destruct (complex_eqb y prev).
  - right. now apply IH with y.
  - destruct H as [H|H]; [now left | right; now apply IH with y].
Qed.

Lemma uniq_from_complete prev l x :
  In x l -> x = prev \/ In x (uniq_from prev l).
Proof.
  revert prev. induction l as [|y l IH]; intros prev H; simpl in *; [easy|].
  destruct (complex_eqb y prev) eqn:E.
  - apply complex_eqb_eq in E. subst y. destruct H as [H|H]; [now left|].
    now apply IH.
  - destruct H as [H|H]; [right; now left|].
    destruct (IH y H) as [->|H']; right; [now left | now right].
Qed.

Lemma uniq_sorted_in l x : In x (uniq_sorted l) <-> In x l.
Proof.
  destruct l as [|y l]; simpl; [reflexivity|]. split.
  - intros [H|H]; [now left | right; now apply uniq_from_incl with y].
  - intros [H|H]; [now left|].
    destruct (uniq_from_complete y l x H) as [->|H']; [now left | now right].
Qed.

Lemma uniq_from_NoDup prev l :
  StronglySorted complex_le (prev :: l) -> NoDup (prev :: uniq_from prev l).
Proof.
  revert prev. induction l as [|y l IH]; intros prev Hs; simpl.
  - constructor; [easy | constructor].
  - inversion Hs as [|? ? Hs' Hall]; subst.
    inversion Hall as [|? ? Hpy Hall']; subst.
    destruct (complex_eqb y prev) eqn:E.
    + apply complex_eqb_eq in E. subst y. now apply IH.
    + specialize (IH y Hs'). constructor; [|exact IH].
      intros [H|H].
      * subst y. now rewrite complex_eqb_refl in E.
      * apply uniq_from_incl in H.
        inversion Hs' as [|? ? _ Hally]; subst.
        rewrite Forall_forall in Hally. specialize (Hally prev H).
        assert (y = prev) by now apply complex_le_antisym.
        subst y. now rewrite complex_eqb_refl in E.
Qed.

Lemma uniq_sorted_NoDup l :
  StronglySorted complex_le l -> NoDup (uniq_sorted l).
Proof.
  destruct l as [|y l]; simpl; [constructor|]. apply uniq_from_NoDup.
Qed.

Lemma index_of_in x l d :
  In x l -> (index_of x l < length l)%nat /\ nth (index_of x l) l d = x.
Proof.
  induction l as [|y l IH]; simpl; [easy|]. intros H.
  destruct (complex_eqb y x) eqn:E.
  - apply complex_eqb_eq in E. split; [lia | exact E].
  - destruct H as [H|H]; [subst; now rewrite complex_eqb_refl in E|].
    destruct (IH H) as [H1 H2]. split; [lia | exact H2].
Qed.

Lemma index_of_nth l k d :
  NoDup l -> (k < length l)%nat -> index_of (nth k l d) l = k.
Proof.
  intros Hnd. revert k. induction Hnd as [|y l Hnin Hnd IH]; intros k Hk; simpl in *.
  - lia.
  - destruct k as [|k].
    + now rewrite complex_eqb_refl.
    + destruct (complex_eqb y (nth k l d)) eqn:E.
      * apply complex_eqb_eq in E. exfalso. apply Hnin. rewrite E.
        apply nth_In. lia.
      * f_equal. apply IH. lia.
Qed.

(** The three arrays of [np.unique]: the distinct values are those of the
    argument, none twice; [ind] points at a holder of each; [inv] points
    each element at its value. *)
Lemma np_unique_spec ar :
  let '(ub, ind, inv) := np_unique ar in
  NoDup ub /\ (forall x, In x ub <-> In x ar) /\
  length ind = length ub /\ length inv = length ar /\
  (forall k, (k < length ub)%nat ->
             (nth k ind 0 < length ar)%nat /\
             nth (nth k ind 0%nat) ar (0, 0) = nth k ub (0, 0)) /\
  (forall i, (i < length ar)%nat ->
             (nth i inv 0 < length ub)%nat /\
             nth (nth i inv 0%nat) ub (0, 0) = nth i ar (0, 0)).
Proof.
  unfold np_unique.
  set (ub := uniq_sorted (sort_by complex_leb ar)).
  assert (Hnd : NoDup ub) by apply uniq_sorted_NoDup, sort_complex_sorted.
  assert (Hin : forall x, In x ub <-> In x ar).
  { intros x. unfold ub. rewrite uniq_sorted_in. split; intros H.
    - apply (Permutation_in _ (sort_by_perm complex_leb ar) H).
    - apply (Permutation_in _ (Permutation_sym (sort_by_perm complex_leb ar)) H). }
  split; [exact Hnd|]. split; [exact Hin|].
  split; [apply length_map|]. split; [apply length_map|]. split.
  - intros k Hk.
    rewrite (nth_indep _ 0%nat (index_of (0, 0) ar)) by now rewrite length_map.
    rewrite (map_nth (fun u => index_of u ar)).
    apply index_of_in. apply Hin. now apply nth_In.
  - intros i Hi.
    rewrite (nth_indep _ 0%nat (index_of (0, 0) ub)) by now rewrite length_map.
    rewrite (map_nth (fun a => index_of a ub)).
    apply index_of_in. apply Hin. now apply nth_In.
Qed.

(** ** [np.bincount] *)

Lemma sum_indicator x a m :
  list_sum (map (fun k => if Nat.eq_dec x k then 1 else 0)%nat (seq a m)) =
  (if (a <=? x)%nat && (x <? a + m)%nat then 1 else 0)%nat.
Proof.
  revert a. induction m as [|m IH]; intros a; simpl.
  - destruct (a <=? x)%nat eqn:E1; simpl; [|reflexivity].
    destruct (x <? a + 0)%nat eqn:E2; [|reflexivity].
    apply Nat.leb_le in E1. apply Nat.ltb_lt in E2. lia.
  - rewrite IH. destruct (Nat.eq_dec x a) as [->|Hne].
    + assert ((a <=? a)%nat = true) as -> by now apply Nat.leb_le.
      assert ((a <? a + S m)%nat = true) as -> by (apply Nat.ltb_lt; lia).
      assert ((S a <=? a)%nat = false) as -> by (apply Nat.leb_gt; lia).
      reflexivity.
    + destruct (a <=? x)%nat eqn:E1; destruct (S a <=? x)%nat eqn:E2;
        destruct (x <? S a + m)%nat eqn:E3; destruct (x <? a + S m)%nat eqn:E4;
        simpl; try reflexivity;
        repeat match goal with
               | H : (_ <=? _)%nat = true |- _ => apply Nat.leb_le in H
               | H : (_ <=? _)%nat = false |- _ => apply Nat.leb_gt in H
               | H : (_ <? _)%nat = true |- _ => apply Nat.ltb_lt in H
               | H : (_ <? _)%nat = false |- _ => apply Nat.ltb_ge in H
               end; lia.
Qed.

Lemma list_sum_map_add {A : Type} (f g : A -> nat) l :
  list_sum (map (fun k => f k + g k)%nat l) =
  (list_sum (map f l) + list_sum (map g l))%nat.
Proof. induction l as [|a l IH]; simpl; lia. Qed.

Lemma sum_count_occ l m :
  Forall (fun x => x < m)%nat l ->
  list_sum (map (count_occ Nat.eq_dec l) (seq 0 m)) = length l.
Proof.
  induction 1 as [|x l Hx Hl IH]; simpl.
  - induction (seq 0 m); simpl; auto.
  - rewrite (map_ext _ (fun k => (if Nat.eq_dec x k then 1 else 0)
                                 + count_occ Nat.eq_dec l k)%nat)
      by (intros k; destruct (Nat.eq_dec x k); reflexivity).
    rewrite list_sum_map_add, IH, sum_indicator.
    assert ((x <? 0 + m)%nat = true) as -> by (apply Nat.ltb_lt; lia).
    reflexivity.
Qed.

(** The counts of [np.bincount] add up to the number of items counted. *)
Lemma np_bincount_sum x : list_sum (np_bincount x) = length x.
Proof.
  unfold np_bincount. destruct x as [|a x]; [reflexivity|].
  apply sum_count_occ. apply list_max_lt; [discriminate | lia].
Qed.

Lemma np_bincount_nth x k :
  (k < length (np_bincount x))%nat ->
  nth k (np_bincount x) 0%nat = count_occ Nat.eq_dec x k.
Proof.
  unfold np_bincount. destruct x as [|a x]; [simpl; lia|].
  rewrite length_map, length_seq. intros Hk.
  rewrite (nth_indep _ 0%nat (count_occ Nat.eq_dec (a :: x) 0)%nat)
    by now rewrite length_map, length_seq.
  rewrite (map_nth (count_occ Nat.eq_dec (a :: x))).
  now rewrite seq_nth.
Qed.

Lemma count_occ_map {A : Type} (f : A -> nat) l k :
  count_occ Nat.eq_dec (map f l) k = length (filter (fun a => f a =? k)%nat l).
Proof.
  induction l as [|a l IH]; simpl; [reflexivity|].
  destruct (Nat.eq_dec (f a) k) as [E|E].
  - apply Nat.eqb_eq in E. rewrite E. simpl. now rewrite IH.
  - apply Nat.eqb_neq in E. now rewrite E.
Qed.

Lemma nth_map_lt {A B : Type} (f : A -> B) l k d d' :
  (k < length l)%nat -> nth k (map f l) d = f (nth k l d').
Proof.
  intros H. rewrite (nth_indep _ d (f d')) by now rewrite length_map.
  apply map_nth.
Qed.

(** ** C3: the reduction of the feed pairs to unique baselines *)

Lemma separations_canonical pos fpairs :
  map_half_plane (separations pos fpairs) = map (canonical pos) fpairs.
Proof.
  rewrite map_half_plane_rows. unfold separations. rewrite map_map. reflexivity.
Qed.

Lemma index_of_iff ub a k :
  NoDup ub -> In a ub -> (k < length ub)%nat ->
  (index_of a ub =? k)%nat = complex_eqb a (nth k ub (0, 0)).
Proof.
  intros Hnd Ha Hk. apply eq_true_iff_eq.
  rewrite Nat.eqb_eq, complex_eqb_eq. split.
  - intros <-. symmetry. now apply index_of_in.
  - intros ->. now apply index_of_nth.
Qed.

(** What [_get_unique] returns, against the sorted distinct representatives. *)
Lemma get_unique_facts pos fpairs :
  let bl1 := map (canonical pos) fpairs in
  let ub := uniq_sorted (sort_by complex_leb bl1) in
  let upairs := fst (CylinderTelescope._get_unique pos fpairs) in
  let red := snd (CylinderTelescope._get_unique pos fpairs) in
  NoDup ub /\ (forall x, In x ub <-> In x bl1) /\
  length upairs = length ub /\ length red = length ub /\
  list_sum red = length fpairs /\
  (forall k, (k < length ub)%nat ->
     canonical pos (nth k upairs (0, 0)%nat) = nth k ub (0, 0)) /\
  (forall k, (k < length ub)%nat ->
     nth k red 0%nat =
     length (filter (fun p => complex_eqb (canonical pos p) (nth k ub (0, 0))) fpairs)).
Proof.
  cbn zeta. unfold CylinderTelescope._get_unique, np_unique.
  rewrite separations_canonical.
  set (bl1 := map (canonical pos) fpairs).
  set (ub := uniq_sorted (sort_by complex_leb bl1)).
  cbn [fst snd].
  set (inv := map (fun a => index_of a ub) bl1).
  assert (Hnd : NoDup ub) by apply uniq_sorted_NoDup, sort_complex_sorted.
  assert (Hin : forall x, In x ub <-> In x bl1).
  { intros x. unfold ub. rewrite uniq_sorted_in. split; intros H.
    - apply (Permutation_in _ (sort_by_perm complex_leb bl1) H).
    - apply (Permutation_in _ (Permutation_sym (sort_by_perm complex_leb bl1)) H). }
  assert (Hinv : Forall (fun x => x < length ub)%nat inv).
  { apply Forall_forall. intros x Hx. apply in_map_iff in Hx as (a & <- & Ha).
    apply (index_of_in a ub (0, 0)). now apply Hin. }
  assert (Hlred : length (np_bincount inv) = length ub).
  { unfold np_bincount. destruct inv as [|i0 inv'] eqn:Einv.
    - destruct bl1 as [|b bl1']; [|discriminate].
      destruct ub as [|u ub']; [reflexivity|].
      exfalso. apply (proj1 (Hin u)). now left.
    - rewrite length_map, length_seq. rewrite <- Einv in *.
      assert (Hne : inv <> []) by (rewrite Einv; discriminate).
      assert (Hub : (1 <= length ub)%nat).
      { destruct bl1 as [|b bl1']; [discriminate|].
        destruct ub as [|u ub']; [|simpl; lia].
        exfalso. apply (proj2 (Hin b)). now left. }
      assert (Hup : (list_max inv < length ub)%nat) by now apply list_max_lt.
      assert (Hlo : (length ub - 1 <= list_max inv)%nat).
      { set (u := nth (length ub - 1) ub (0, 0)).
        assert (Hu : In u ub) by (apply nth_In; lia).
        assert (Hi : In (index_of u ub) inv).
        { unfold inv. apply in_map_iff. exists u. split; [reflexivity|]. now apply Hin. }
        assert (Hall : Forall (fun k => k <= list_max inv)%nat inv)
          by now apply list_max_le.
        rewrite Forall_forall in Hall. specialize (Hall _ Hi).
        unfold u in Hall. rewrite index_of_nth in Hall by (auto; lia). exact Hall. }
      lia. }
  split; [exact Hnd|]. split; [exact Hin|].
  split; [now rewrite !length_map|]. split; [exact Hlred|]. split.
  - rewrite np_bincount_sum. unfold inv, bl1. now rewrite !length_map.
  - split.
    + intros k Hk.
      rewrite (nth_map_lt _ _ _ _ 0%nat) by now rewrite length_map.
      rewrite (nth_map_lt _ _ _ _ (0, 0)) by exact Hk.
      set (u := nth k ub (0, 0)).
      assert (Hu : In u bl1) by (apply Hin, nth_In; exact Hk).
      destruct (index_of_in u bl1 (0, 0) Hu) as [Hi Hv].
      unfold bl1 in Hi, Hv at 2. rewrite length_map in Hi.
      rewrite (nth_map_lt _ _ _ _ (0, 0)%nat) in Hv by exact Hi.
      exact Hv.
    + intros k Hk. rewrite np_bincount_nth by (rewrite Hlred; exact Hk).
      unfold inv. rewrite count_occ_map. unfold bl1 at 1.
      rewrite filter_map_swap, length_map. f_equal.
      apply filter_ext_in. intros p Hp.
      apply index_of_iff; auto. apply Hin. unfold bl1. now apply in_map.
Qed.

(** C3: for every feed geometry [calculate_baselines] sends each unordered
    feed pair to exactly one unique baseline (the one with the pair's
    half-plane representative), the redundancy of a baseline is the number
    of pairs sent to it, and the redundancies add up to
    nfeed (nfeed - 1) / 2. *)
Theorem calculate_baselines_redundancy feedpositions :
  let t := calculate_baselines feedpositions in
  let nfeed := length feedpositions in
  length (_redundancy t) = length (_baselines t) /\
  length (_feedpairs t) = length (_baselines t) /\
  (2 * list_sum (_redundancy t) = nfeed * (nfeed - 1))%nat /\
  (forall i j, (i < j < nfeed)%nat ->
     exists! k, (k < length (_baselines t))%nat /\
                half_plane_row (nth k (_baselines t) (0, 0)) =
                canonical feedpositions (i, j)) /\
  (forall k, (k < length (_baselines t))%nat ->
     nth k (_redundancy t) 0%nat =
     length (pairs_of_baseline feedpositions (nth k (_baselines t) (0, 0)))).
Proof.
  cbn zeta. unfold calculate_baselines.
  set (fpairs := triu_indices (length feedpositions) 1).
  pose proof (get_unique_facts feedpositions fpairs) as H. cbn zeta in H.
  destruct (CylinderTelescope._get_unique feedpositions fpairs) as [upairs red].
  cbn [fst snd] in H. cbn [_baselines _redundancy _feedpairs].
  set (bl1 := map (canonical feedpositions) fpairs) in *.
  set (ub := uniq_sorted (sort_by complex_leb bl1)) in *.
  destruct H as (Hnd & Hin & Hlu & Hlr & Hsum & Hcan & Hred).
  assert (Hlb : length (separations feedpositions upairs) = length ub)
    by (unfold separations; now rewrite length_map).
  assert (Hrow : forall k, (k < length ub)%nat ->
            half_plane_row (nth k (separations feedpositions upairs) (0, 0)) =
            nth k ub (0, 0)).
  { intros k Hk. rewrite <- (Hcan k Hk). unfold separations, canonical.
    now rewrite (nth_map_lt _ _ _ _ (0, 0)%nat) by (rewrite Hlu; exact Hk). }
  rewrite Hlb. split; [exact Hlr|]. split; [exact Hlu|]. split; [|split].
  - rewrite Hsum. unfold fpairs. apply triu_indices_length_1.
  - intros i j Hij.
    assert (Hp : In (i, j) fpairs) by (apply in_triu_indices; lia).
    assert (Hc : In (canonical feedpositions (i, j)) ub).
    { apply Hin. unfold bl1. now apply in_map. }
    destruct (index_of_in _ ub (0, 0) Hc) as [Hk Hv].
    exists (index_of (canonical feedpositions (i, j)) ub). split.
    + split; [exact Hk|]. now rewrite Hrow.
    + intros k' [Hk' Hv']. rewrite Hrow in Hv' by exact Hk'.
      rewrite <- Hv'. now rewrite index_of_nth.
  - intros k Hk. rewrite (Hred k Hk). unfold pairs_of_baseline.
    now rewrite Hrow.
Qed.

(** ** C6: the polarised buffer and the insertion of one result *)

Lemma list_set_twice {A : Type} (l : list A) i x y :
  list_set (list_set l i x) i y = list_set l i y.
Proof.
  revert i. induction l as [|a l IH]; intros [|i]; simpl; auto.
  now rewrite IH.
Qed.

Lemma list_set_id {A : Type} (l : list A) i x :
  nth_error l i = Some x -> list_set l i x = l.
Proof.
  revert i. induction l as [|a l IH]; intros [|i] H; simpl in *; try discriminate.
  - now injection H as ->.
  - now rewrite IH.
Qed.

Lemma assign_block_same_shape dst src :
  shape0 src = shape0 dst -> shape1 src = shape1 dst -> assign_block dst src = Ok src.
Proof.
  intros H0 H1. unfold assign_block. now rewrite H0, H1, !Nat.eqb_refl.
Qed.

Lemma copy_block_step trans ind pi pj arr0 e erow dst row src :
  (ind < length arr0)%nat ->
  nth_error e pi = Some erow -> nth_error erow pj = Some dst ->
  nth_error trans pi = Some row -> nth_error row pj = Some src ->
  shape0 src = shape0 dst -> shape1 src = shape1 dst ->
  PolarisedTelescope.copy_block trans ind pi (list_set arr0 ind e) pj =
  Ok (list_set arr0 ind (list_set e pi (list_set erow pj src))).
Proof.
  intros Hind He Hd Hr Hs H0 H1. unfold PolarisedTelescope.copy_block, item.
  rewrite Hr. cbn [bind]. rewrite Hs. cbn [bind].
  rewrite list_set_same by exact Hind. cbn [bind].
  rewrite He. cbn [bind]. rewrite Hd. cbn [bind].
  rewrite assign_block_same_shape by assumption. cbn [bind].
  now rewrite list_set_twice.
Qed.

Lemma copy_row trans ind pi arr0 e r c d0 d1 d2 s0 s1 s2 :
  (ind < length arr0)%nat ->
  nth_error e pi = Some [d0; d1; d2] ->
  nth_error trans pi = Some [s0; s1; s2] ->
  Forall (fun b => shape0 b = r /\ shape1 b = c) [d0; d1; d2] ->
  Forall (fun b => shape0 b = r /\ shape1 b = c) [s0; s1; s2] ->
  foldM (PolarisedTelescope.copy_block trans ind pi) (seq 0 3) (list_set arr0 ind e) =
  Ok (list_set arr0 ind (list_set e pi [s0; s1; s2])).
Proof.
  intros Hind He Ht Hd Hs.
  assert (Hpi : (pi < length e)%nat) by (apply nth_error_Some; congruence).
  repeat match goal with
         | H : Forall _ (_ :: _) |- _ => inversion H; clear H; subst
         | H : _ /\ _ |- _ => destruct H
         end.
  cbn [seq foldM].
  rewrite (copy_block_step trans ind pi 0 arr0 e [d0; d1; d2] d0 [s0; s1; s2] s0)
    by (auto; congruence).
  cbn [bind list_set].
  rewrite (copy_block_step trans ind pi 1 arr0 _ [s0; d1; d2] d1 [s0; s1; s2] s1)
    by (auto; try congruence; now apply list_set_same).
  cbn [bind list_set]. rewrite list_set_twice.
  rewrite (copy_block_step trans ind pi 2 arr0 _ [s0; s1; d2] d2 [s0; s1; s2] s2)
    by (auto; try congruence; now apply list_set_same).
  cbn [bind list_set]. now rewrite list_set_twice.
Qed.

Ltac three_items l :=
  destruct l as [|? [|? [|? [|? ?]]]]; try discriminate.

Ltac forall_items :=
  repeat match goal with
         | H : Forall _ (_ :: _) |- _ => apply Forall_cons_iff in H; destruct H as [? H]
         | H : Forall _ [] |- _ => clear H
         | H : _ /\ _ |- _ => destruct H
         end.

(** The insertion replaces the whole entry by the kernel's result. *)
Lemma copy_single_value arr trans ind e r c :
  nth_error arr ind = Some e -> grid33 r c e -> grid33 r c trans ->
  PolarisedTelescope._copy_single_into_array arr trans ind =
  Ok (list_set arr ind trans).
Proof.
  intros Harr [Hle He] [Hlt Ht].
  assert (Hind : (ind < length arr)%nat) by (apply nth_error_Some; congruence).
  three_items e. three_items trans. clear Hle Hlt.
  forall_items.
  repeat match goal with
         | H : length ?l = 3%nat |- _ => three_items l; clear H
         end.
  unfold PolarisedTelescope._copy_single_into_array.
  rewrite <- (list_set_id arr ind _ Harr) at 1.
  match goal with
  | |- foldM ?f _ _ = _ => set (F := f)
  end.
  change (seq 0 3) with [0; 1; 2]%nat. cbn [foldM]. subst F. cbn beta.
  erewrite (copy_row _ ind 0 arr) by (eauto; reflexivity).
  cbn [bind list_set].
  erewrite (copy_row _ ind 1 arr) by (eauto; reflexivity).
  cbn [bind list_set].
  erewrite (copy_row _ ind 2 arr) by (eauto; reflexivity).
  reflexivity.
Qed.

Lemma mapM_length {A B : Type} (f : A -> result B) l vs :
  mapM f l = Ok vs -> length vs = length l.
Proof.
  revert vs. induction l as [|a l IH]; intros vs H; simpl in H.
  - now injection H as <-.
  - destruct (f a); [|discriminate]. simpl in H.
    destruct (mapM f l) as [bs|]; [|discriminate]. simpl in H.
    injection H as <-. simpl. f_equal. now apply IH.
Qed.

(** A polarised transform is a triple of arrays (the T, E and B
    coefficients of the three maps given to [healpy.map2alm]). *)
Lemma sphtrans_complex_pol_length map2alm hpmaps lmax centered lside alms :
  sphtrans_complex_pol map2alm hpmaps lmax centered lside = Ok alms ->
  length alms = 3%nat.
Proof.
  assert (Hreal : forall maps res,
             sphtrans_real_pol map2alm maps lmax lside = Ok res -> length res = 3%nat).
  { intros maps res. unfold sphtrans_real_pol, fill_alms.
    destruct (np_zeros2 _ _); [|discriminate]. cbn [bind].
    destruct (triu_indices_Z _); [|discriminate]. cbn [bind].
    destruct (mapM _ (seq 0 3)) as [filled|] eqn:E; [|discriminate]. cbn [bind].
    intros H. injection H as <-. rewrite length_map.
    now apply mapM_length in E. }
  unfold sphtrans_complex_pol.
  destruct (sphtrans_real_pol map2alm (map (map fst) hpmaps) lmax lside)
    as [res|] eqn:Er; [|discriminate]. cbn [bind].
  destruct (mapM _ res) as [rlms|] eqn:Erl; [|discriminate]. cbn [bind].
  destruct (sphtrans_real_pol map2alm (map (map snd) hpmaps) lmax lside)
    as [ims|] eqn:Ei; [|discriminate]. cbn [bind].
  destruct (mapM _ ims) as [ilms|] eqn:Eil; [|discriminate]. cbn [bind].
  intros H. injection H as <-. rewrite map2_length.
  apply mapM_length in Erl, Eil. apply Hreal in Er, Ei. lia.
Qed.

(** What the polarised kernel returns: the transforms of the xx, xy and yy
    products, in this order, each a triple. *)
Lemma polarised_kernel_result map2alm cvIQU nside bl f lmax lside trans nside' :
  PolarisedTelescope._transfer_single map2alm cvIQU nside bl f lmax lside =
    (Ok trans, nside') ->
  exists xx xy yy,
    trans = [xx; xy; yy] /\
    sphtrans_complex_pol map2alm (cvIQU XX nside' bl f) lmax false lside = Ok xx /\
    sphtrans_complex_pol map2alm (cvIQU XY nside' bl f) lmax false lside = Ok xy /\
    sphtrans_complex_pol map2alm (cvIQU YY nside' bl f) lmax false lside = Ok yy /\
    length xx = 3%nat /\ length xy = 3%nat /\ length yy = 3%nat.
Proof.
  unfold PolarisedTelescope._transfer_single.
  destruct (refresh_grid nside lmax) as [n|]; [|discriminate].
  intros H. injection H as H <-.
  destruct (sphtrans_complex_pol map2alm (cvIQU XX n bl f) lmax false lside)
    as [xx|] eqn:Exx; [|discriminate].
  destruct (sphtrans_complex_pol map2alm (cvIQU XY n bl f) lmax false lside)
    as [xy|] eqn:Exy; [|discriminate].
  destruct (sphtrans_complex_pol map2alm (cvIQU YY n bl f) lmax false lside)
    as [yy|] eqn:Eyy; [|discriminate].
  cbn [bind] in H. injection H as <-.
  exists xx, xy, yy. repeat split; try reflexivity;
    eapply sphtrans_complex_pol_length; eassumption.
Qed.

(** C6, as stated, fails: on a fresh buffer for one pair and side length 0
    the insertion of a result whose nine blocks hold 1 leaves none of the
    nine slots at zero. *)
Lemma polarised_copy_nine_counterexample :
  [[(1, 0)]] <> [[Czero]] /\
  exists arr arr',
    PolarisedTelescope._make_matrix_array 1 0 = Ok arr /\
    PolarisedTelescope._copy_single_into_array arr nine_ones 0 = Ok arr' /\
    forall pi pj, (pi < 3)%nat -> (pj < 3)%nat ->
      slot arr 0 pi pj = Ok [[Czero]] /\ slot arr' 0 pi pj = Ok [[(1, 0)]].
Proof.
  split.
  - intros H. injection H as H. lra.
  - eexists. eexists. split; [reflexivity|]. split; [reflexivity|].
    intros pi pj Hi Hj.
    destruct pi as [|[|[|pi]]]; try lia;
      destruct pj as [|[|[|pj]]]; try lia; split; reflexivity.
Qed.

Lemma zeros_shape r c :
  (1 <= r)%nat ->
  shape0 (repeat (repeat Czero c) r) = r /\ shape1 (repeat (repeat Czero c) r) = c.
Proof.
  intros H. split.
  - apply repeat_length.
  - rewrite shape1_repeat by exact H. apply repeat_length.
Qed.


(** ** The shape of a transform, and what the side length of C1 costs *)

Lemma transpose_shape a n :
  (1 <= n)%nat -> shape0 a = n -> shape1 a = n ->
  shape0 (transpose a) = n /\ shape1 (transpose a) = n.
Proof.
  intros Hn H0 H1. unfold transpose. rewrite H1. split.
  - unfold shape0. now rewrite length_map, length_seq.
  - destruct n; [lia|]. simpl. now rewrite length_map.
Qed.

Lemma sphtrans_real_shape map2alm hpmap lmax lside a :
  (0 <= lmax)%Z ->
  sphtrans_real map2alm hpmap lmax lside = Ok a ->
  shape0 a = Z.to_nat (Z.max lside lmax + 1) /\
  shape1 a = Z.to_nat (Z.max lside lmax + 1).
Proof.
  intros Hl. unfold sphtrans_real.
  replace (if (lside <? lmax)%Z then lmax else lside) with (Z.max lside lmax)
    by (destruct (lside <? lmax)%Z eqn:E;
        [apply Z.ltb_lt in E | apply Z.ltb_ge in E]; lia).
  set (s := Z.max lside lmax).
  assert (Hs : (0 <= s)%Z) by (unfold s; lia).
  unfold np_zeros2.
  assert ((s + 1 <? 0)%Z = false) as -> by (apply Z.ltb_ge; lia).
  cbn [orb bind].
  destruct (triu_indices_Z (lmax + 1)) as [idx|]; [|discriminate]. cbn [bind].
  unfold fancy_set.
  destruct (broadcast_values (length idx) (map2alm hpmap lmax)) as [vals|];
    [|discriminate]. cbn [bind].
  destruct (set_items _ idx vals) as [alm|] eqn:E; [|discriminate]. cbn [bind].
  intros H. injection H as <-.
  destruct (set_items_shape _ _ _ _ E) as [H0 H1].
  destruct (zeros_shape (Z.to_nat (s + 1)) (Z.to_nat (s + 1))) as [Z0 Z1]; [lia|].
  apply transpose_shape; [lia | congruence | congruence].
Qed.

Lemma make_full_alm_shape half full n :
  (1 <= n)%nat -> shape0 half = n -> shape1 half = n ->
  _make_full_alm half false = Ok full ->
  shape0 full = n /\ shape1 full = (2 * n - 1)%nat.
Proof.
  intros Hn H0 H1. rewrite make_full_alm_value by lia.
  intros H. injection H as <-.
  destruct (full_alm_shape half) as [F0 F1]; [lia|]. split; congruence.
Qed.

Lemma add_times_i_shape a b n c :
  (1 <= n)%nat -> shape0 a = n -> shape1 a = c -> shape0 b = n -> shape1 b = c ->
  shape0 (add_times_i a b) = n /\ shape1 (add_times_i a b) = c.
Proof.
  intros Hn A0 A1 B0 B1. unfold add_times_i, shape0 in *. split.
  - rewrite map2_length. lia.
  - destruct a as [|ra a]; [simpl in A0; lia|].
    destruct b as [|rb b]; [simpl in B0; lia|].
    simpl in *. rewrite map2_length. lia.
Qed.

(** A complex transform for bandlimit [lmax] and side [lside] has the shape
    of the larger of the two. *)
Lemma sphtrans_complex_shape map2alm hpmap lmax lside blk :
  (0 <= lmax)%Z ->
  sphtrans_complex map2alm hpmap lmax false lside = Ok blk ->
  shape0 blk = Z.to_nat (Z.max lside lmax + 1) /\
  shape1 blk = (2 * Z.to_nat (Z.max lside lmax + 1) - 1)%nat.
Proof.
  intros Hl. unfold sphtrans_complex.
  destruct (sphtrans_real map2alm (map fst hpmap) lmax lside) as [re|] eqn:Er;
    [|discriminate]. cbn [bind].
  destruct (_make_full_alm re false) as [rlm|] eqn:Erl; [|discriminate]. cbn [bind].
  destruct (sphtrans_real map2alm (map snd hpmap) lmax lside) as [im|] eqn:Ei;
    [|discriminate]. cbn [bind].
  destruct (_make_full_alm im false) as [ilm|] eqn:Eil; [|discriminate]. cbn [bind].
  intros H. injection H as <-.
  set (n := Z.to_nat (Z.max lside lmax + 1)).
  assert (Hn : (1 <= n)%nat) by (unfold n; lia).
  destruct (sphtrans_real_shape _ _ _ _ _ Hl Er) as [R0 R1].
  destruct (sphtrans_real_shape _ _ _ _ _ Hl Ei) as [I0 I1].
  destruct (make_full_alm_shape re rlm n Hn R0 R1 Erl) as [FR0 FR1].
  destruct (make_full_alm_shape im ilm n Hn I0 I1 Eil) as [FI0 FI1].
  now apply add_times_i_shape.
Qed.

(** With [global_lmax] set, the request of the only pair of the two-feed
    telescope does not return, whatever the transform yields: the kernel is
    asked for the bandlimit 2 L, its result has side 2 L, and the buffer
    was allocated with side L. *)
Lemma unpolarised_global_request_raises map2alm cvis nside :
  exists e,
    outcome (transfer_matrices (UnpolarisedTelescope.variant map2alm cvis)
               two_feed_telescope nside [0%Z] [0%Z] true) = Raise e.
Proof.
  pose proof two_feed_lmax_row as [H0 H1].
  destruct two_feed_sides as [Hr Ht].
  set (L := lmax_row (0, - (1 / 2)) (1 / 2) 20) in *.
  unfold transfer_matrices.
  change (np_broadcast_arrays [0%Z] [0%Z]) with (Ok ([0%Z], [0%Z])).
  cbv iota beta.
  change (out_of_range [0%Z] 0 (nbase two_feed_telescope)) with false.
  change (out_of_range [0%Z] 0 (nfreq two_feed_telescope)) with false.
  cbv iota. rewrite Hr. unfold choose_lside. rewrite Ht.
  cbn [_make_matrix_array UnpolarisedTelescope.variant].
  unfold UnpolarisedTelescope._make_matrix_array, np_zeros2.
  assert ((L + 1 <? 0)%Z = false) as -> by (apply Z.ltb_ge; lia).
  assert ((2 * L + 1 <? 0)%Z = false) as -> by (apply Z.ltb_ge; lia).
  cbn [orb bind length repeat].
  change (np_argsort [(2 * L)%Z]) with [0%nat].
  cbn [transfer_loop nth _transfer_single _copy_single_into_array
       UnpolarisedTelescope.variant call_bl call_f call_lmax call_lside].
  unfold UnpolarisedTelescope._transfer_single.
  destruct (refresh_grid nside (2 * L)) as [nside'|e]; [|now exists e].
  destruct (sphtrans_complex map2alm (cvis nside' 0%Z 0%Z) (2 * L) false L)
    as [blk|e] eqn:Eblk; [|now exists e].
  assert (H2L : (0 <= 2 * L)%Z) by lia.
  destruct (sphtrans_complex_shape _ _ _ _ _ H2L Eblk) as [B0 B1].
  replace (Z.max L (2 * L)) with (2 * L)%Z in B0, B1 by lia.
  unfold UnpolarisedTelescope._copy_single_into_array, item. cbn [nth_error bind].
  unfold assign_block. rewrite B0, B1.
  destruct (zeros_shape (Z.to_nat (L + 1)) (Z.to_nat (2 * L + 1))) as [Z0 Z1]; [lia|].
  rewrite Z0, Z1.
  assert ((Z.to_nat (2 * L + 1) =? Z.to_nat (L + 1))%nat = false) as ->
    by (apply Nat.eqb_neq; lia).
  assert ((Z.to_nat (2 * L + 1) =? 1)%nat = false) as ->
    by (apply Nat.eqb_neq; lia).
  cbn [andb orb bind]. now exists ValueError.
Qed.

(** * Part III: further properties of the code *)

(** ** [nside_for_lmax]: the resolution against the bandlimit *)

Lemma powerRZ_2_exp z : powerRZ 2 z = exp (IZR z * ln 2).
Proof. rewrite powerRZ_Rpower by lra. reflexivity. Qed.

Lemma powerRZ_2_le a b : (a <= b)%Z -> powerRZ 2 a <= powerRZ 2 b.
Proof.
  intros H. rewrite !powerRZ_Rpower by lra. apply Rle_Rpower; [lra|].
  now apply IZR_le.
Qed.

Lemma IZR_pow_2 z : (0 <= z)%Z -> IZR (2 ^ z) = powerRZ 2 z.
Proof.
  intros H. rewrite <- Rpower_2_nonneg by exact H.
  symmetry. apply powerRZ_Rpower. lra.
Qed.

(** The ceiling of the binary logarithm brackets its argument between two
    consecutive powers of two. *)
Lemma ceil_log2_bracket x :
  0 < x ->
  powerRZ 2 (Zceil (ln x / ln 2) - 1) < x <= powerRZ 2 (Zceil (ln x / ln 2)).
Proof.
  intros Hx. pose proof ln_2_pos as HL.
  set (k := Zceil (ln x / ln 2)).
  pose proof (Zceil_bound (ln x / ln 2)) as [H1 H2]. fold k in H1, H2.
  assert (E : ln x / ln 2 * ln 2 = ln x) by (field; lra).
  rewrite !powerRZ_2_exp, minus_IZR.
  assert (Hlo : exp ((IZR k - 1) * ln 2) < exp (ln x)).
  { apply exp_increasing. rewrite <- E. apply Rmult_lt_compat_r; lra. }
  assert (Hhi : exp (ln x) <= exp (IZR k * ln 2)).
  { destruct (Rle_lt_or_eq_dec _ _ H2) as [Hlt|Heq].
    - left. apply exp_increasing. rewrite <- E. apply Rmult_lt_compat_r; lra.
    - right. f_equal. rewrite <- E, Heq. reflexivity. }
  rewrite (exp_ln x Hx) in Hlo, Hhi. now split.
Qed.

(** With exact logarithms the resolution for a bandlimit [lmax >= 0] and a
    boost of at least one is [2^e] with
    [2^boost (lmax + 1) <= 3 2^e < 2^(boost+1) (lmax + 1)]. *)
Lemma nside_for_lmax_exponent lmax boost :
  (0 <= lmax)%Z -> (1 <= boost)%Z ->
  exists e,
    (0 <= e)%Z /\ nside_for_lmax lmax boost = Ok (2 ^ e)%Z /\
    (2 ^ boost * (lmax + 1) <= 3 * 2 ^ e)%Z /\
    (3 * 2 ^ e < 2 ^ (boost + 1) * (lmax + 1))%Z.
Proof.
  intros Hl Hb. rewrite nside_for_lmax_value by exact Hl. cbv zeta.
  set (x := IZR (lmax + 1) / 3).
  assert (Hx : / 3 <= x).
  { unfold x. assert (1 <= IZR (lmax + 1)) by (apply IZR_le; lia). lra. }
  destruct (ceil_log2_bracket x) as [Hlo Hhi]; [lra|].
  set (k := Zceil (ln x / ln 2)) in *.
  assert (Hk : (-1 <= k)%Z).
  { destruct (Z_lt_le_dec k (-1)) as [Hlt|]; [|assumption]. exfalso.
    assert (powerRZ 2 k <= powerRZ 2 (-2)) by (apply powerRZ_2_le; lia).
    simpl in H. lra. }
  exists (boost + k)%Z.
  assert (He : (0 <= boost + k)%Z) by lia.
  assert ((0 <=? boost + k)%Z = true) as -> by now apply Z.leb_le.
  split; [exact He|]. split; [reflexivity|].
  assert (Pe : IZR (2 ^ (boost + k)) = powerRZ 2 boost * powerRZ 2 k).
  { rewrite IZR_pow_2 by exact He. apply powerRZ_add. lra. }
  assert (Pb : IZR (2 ^ boost) = powerRZ 2 boost) by (apply IZR_pow_2; lia).
  assert (Pb1 : IZR (2 ^ (boost + 1)) = 2 * powerRZ 2 boost).
  { rewrite IZR_pow_2 by lia. rewrite powerRZ_add by lra. simpl. lra. }
  assert (Pk : powerRZ 2 k = 2 * powerRZ 2 (k - 1)).
  { replace k with ((k - 1) + 1)%Z at 1 by lia.
    rewrite powerRZ_add by lra. simpl. lra. }
  assert (Hp : 0 < powerRZ 2 boost) by (apply powerRZ_lt; lra).
  assert (Hl3 : IZR (lmax + 1) = 3 * x) by (unfold x; field).
  split.
  - apply le_IZR. rewrite !mult_IZR, Pe, Pb, Hl3. nra.
  - apply lt_IZR. rewrite !mult_IZR, Pe, Pb1, Hl3. nra.
Qed.

(** X1: for a bandlimit [0 <= lmax <= 2^34] and an accuracy boost between 1
    (the default) and 32 the resolution is a power of two, [nside = 2^e],
    with [2^boost (lmax + 1) <= 3 nside <= 2^(boost+1) (lmax + 1)].  The
    upper bound is not strict: where [(lmax + 1) / 3] is a power of two the
    rounding of the floating-point logarithm can add one to the exponent,
    which reaches the bound and stays within it. *)
Theorem nside_for_lmax_bracket lmax boost :
  (0 <= lmax <= 2 ^ 34)%Z -> (1 <= boost <= 32)%Z ->
  exists e,
    (0 <= e)%Z /\ nside_for_lmax lmax boost = Ok (2 ^ e)%Z /\
    (2 ^ boost * (lmax + 1) <= 3 * 2 ^ e)%Z /\
    (3 * 2 ^ e <= 2 ^ (boost + 1) * (lmax + 1))%Z.
Proof.
  intros [Hl _] [Hb _].
  destruct (nside_for_lmax_exponent lmax boost Hl Hb) as (e & He & E & Hlo & Hhi).
  exists e. repeat split; try assumption. lia.
Qed.

Lemma nside_for_lmax_bracket_witness :
  exists e,
    (0 <= e)%Z /\ nside_for_lmax 5 1 = Ok (2 ^ e)%Z /\
    (2 ^ 1 * (5 + 1) <= 3 * 2 ^ e)%Z /\
    (3 * 2 ^ e <= 2 ^ (1 + 1) * (5 + 1))%Z.
Proof.
  apply (nside_for_lmax_bracket 5 1); lia.
Defined.

(** ** [unpack_alm]: where the coefficients go *)

Lemma mapM_nth {A B : Type} (f : A -> result B) l vs k d d' :
  mapM f l = Ok vs -> (k < length l)%nat -> f (nth k l d) = Ok (nth k vs d').
Proof.
  revert vs k. induction l as [|a l IH]; intros vs k H Hk; simpl in *; [lia|].
  destruct (f a) as [b|] eqn:Ea; [|discriminate]. simpl in H.
  destruct (mapM f l) as [bs|] eqn:El; [|discriminate]. simpl in H.
  injection H as <-. destruct k as [|k]; simpl; [exact Ea|].
  apply IH; [reflexivity | lia].
Qed.

(** The Healpix position of (l, m) is the rank of (m, l) among the
    indices of the upper triangle. *)
Lemma nth_flat_map_seq {A : Type} (f : nat -> list A) n i t d :
  (i < n)%nat -> (t < length (f i))%nat ->
  nth (length (flat_map f (seq 0 i)) + t) (flat_map f (seq 0 n)) d = nth t (f i) d.
Proof.
  intros Hi Ht.
  replace n with (i + S (n - S i))%nat by lia.
  rewrite seq_app, flat_map_app, app_nth2_plus.
  cbn [seq flat_map]. now rewrite app_nth1.
Qed.

Lemma triu_indices_nth n i j :
  (i <= j < n)%nat ->
  nth (alm_index (n - 1) j i) (triu_indices n 0) (0, 0)%nat = (i, j).
Proof.
  intros [Hij Hjn]. unfold triu_indices.
  destruct (triu_rows_length n 0 i) as [Hs|Hs]; [lia| |lia].
  match type of Hs with
  | context [length ?l] => remember (length l) as cnt eqn:Hcnt
  end.
  assert (Hidx : alm_index (n - 1) j i = (cnt + (j - i))%nat).
  { unfold alm_index. clear Hcnt.
    assert (Hd : exists d, n = (i + 1 + d)%nat) by (exists (n - 1 - i)%nat; lia).
    destruct Hd as [d Hd].
    assert (HS : (2 * cnt = i * (i + 3 + 2 * d))%nat)
      by (rewrite Hd in Hs; clear - Hs; nia).
    replace (2 * (n - 1) + 1 - i)%nat with (i + 2 * d + 1)%nat by lia.
    assert (Hi : (i <= cnt)%nat) by nia.
    assert (Hq : (i * (i + 2 * d + 1) = (cnt - i) * 2)%nat) by nia.
    rewrite Hq, Nat.div_mul by lia. lia. }
  rewrite Hidx, Hcnt.
  rewrite nth_flat_map_seq by (rewrite ?length_map, ?length_seq; lia).
  rewrite (nth_map_lt _ _ _ _ 0%nat) by (rewrite length_seq; lia).
  rewrite seq_nth by lia. f_equal. lia.
Qed.

Lemma unpack_alm_set_items alm lmax :
  (0 <= lmax)%Z ->
  length alm = length (triu_indices (Z.to_nat (lmax + 1)) 0) ->
  unpack_alm alm lmax false =
  set_items (repeat (repeat Czero (Z.to_nat (lmax + 1))) (Z.to_nat (lmax + 1)))
            (map swap (triu_indices (Z.to_nat (lmax + 1)) 0)) alm.
Proof.
  intros Hl Hlen. unfold unpack_alm, np_zeros2, triu_indices_Z.
  assert ((lmax + 1 <? 0)%Z = false) as -> by (apply Z.ltb_ge; lia).
  cbn [orb bind]. unfold fancy_set, broadcast_values. rewrite length_map.
  assert ((length alm =? length (triu_indices (Z.to_nat (lmax + 1)) 0))%nat = true)
    as -> by now apply Nat.eqb_eq.
  cbn [bind]. now destruct (set_items _ _ alm).
Qed.

Lemma triangle_length (alm : list complex) lmax :
  (0 <= lmax)%Z ->
  (2 * Z.of_nat (length alm) = (lmax + 1) * (lmax + 2))%Z <->
  length alm = length (triu_indices (Z.to_nat (lmax + 1)) 0).
Proof.
  intros Hl. pose proof (triu_indices_length_0 (Z.to_nat (lmax + 1))) as Ht.
  split; intros H; nia.
Qed.

Lemma unpack_alm_entries alm lmax :
  (0 <= lmax)%Z ->
  (2 * Z.of_nat (length alm) = (lmax + 1) * (lmax + 2))%Z ->
  exists a,
    unpack_alm alm lmax false = Ok a /\
    shape0 a = Z.to_nat (lmax + 1) /\ shape1 a = Z.to_nat (lmax + 1) /\
    (forall l m, (m <= l <= Z.to_nat lmax)%nat ->
       get2 a l m = Ok (nth (alm_index (Z.to_nat lmax) l m) alm Czero)) /\
    (forall l m, (l < m <= Z.to_nat lmax)%nat -> get2 a l m = Ok Czero).
Proof.
  intros Hl Hlen. apply triangle_length in Hlen; [|exact Hl].
  destruct (unpack_alm_half alm lmax Hl Hlen) as (a & Hu & H0 & H1 & Hg).
  exists a. split; [exact Hu|]. split; [exact H0|]. split; [exact H1|].
  set (n := Z.to_nat (lmax + 1)) in *.
  assert (Hn : (Z.to_nat lmax = n - 1)%nat) by (unfold n; lia).
  split.
  - intros l m Hlm. rewrite Hn.
    assert (Hk : (alm_index (n - 1) l m < length (triu_indices n 0))%nat).
    { destruct (Nat.lt_ge_cases (alm_index (n - 1) l m) (length (triu_indices n 0)))
        as [|Hge]; [assumption|].
      assert (Hml : (m <= l < n)%nat) by lia.
      pose proof (triu_indices_nth n m l Hml) as Hnth.
      rewrite nth_overflow in Hnth by exact Hge. injection Hnth as <- <-.
      pose proof (triu_indices_length_0 n) as Hlen0.
      change (alm_index (n - 1) 0 0) with 0%nat in Hge. nia. }
    unfold fancy_get in Hg.
    pose proof (mapM_nth _ _ _ (alm_index (n - 1) l m) (0, 0)%nat Czero Hg) as Hget.
    rewrite length_map in Hget. specialize (Hget Hk).
    rewrite (nth_map_lt swap _ _ _ (0, 0)%nat) in Hget by exact Hk.
    rewrite triu_indices_nth in Hget by lia. exact Hget.
  - intros l m Hlm.
    rewrite (unpack_alm_set_items alm lmax Hl Hlen) in Hu. fold n in Hu.
    rewrite (set_items_get_other _ _ _ _ _ _ Hu).
    + apply get2_zeros; lia.
    + intros Hin. apply in_map_iff in Hin as ([r c] & Heq & Hin).
      unfold swap in Heq. simpl in Heq. injection Heq as <- <-.
      apply in_triu_indices in Hin. lia.
Qed.

(** X2: [unpack_alm] without [fullm] returns the square array that holds the
    coefficient a_lm, taken from the Healpix position of (l, m), at [l, m]
    for [m <= l], and zero above the diagonal. *)
Theorem unpack_alm_layout alm lmax :
  (0 <= lmax)%Z ->
  (2 * Z.of_nat (length alm) = (lmax + 1) * (lmax + 2))%Z ->
  exists a,
    unpack_alm alm lmax false = Ok a /\
    shape0 a = Z.to_nat (lmax + 1) /\ shape1 a = Z.to_nat (lmax + 1) /\
    (forall l m, (m <= l <= Z.to_nat lmax)%nat ->
       get2 a l m = Ok (nth (alm_index (Z.to_nat lmax) l m) alm Czero)) /\
    (forall l m, (l < m <= Z.to_nat lmax)%nat -> get2 a l m = Ok Czero).
Proof. exact (unpack_alm_entries alm lmax). Qed.

Lemma unpack_alm_layout_witness :
  exists a,
    unpack_alm [(1, 0); (2, 1); (3, -1)] 1 false = Ok a /\
    shape0 a = Z.to_nat (1 + 1) /\ shape1 a = Z.to_nat (1 + 1) /\
    (forall l m, (m <= l <= Z.to_nat 1)%nat ->
       get2 a l m =
       Ok (nth (alm_index (Z.to_nat 1) l m) [(1, 0); (2, 1); (3, -1)] Czero)) /\
    (forall l m, (l < m <= Z.to_nat 1)%nat -> get2 a l m = Ok Czero).
Proof.
  apply (unpack_alm_layout [(1, 0); (2, 1); (3, -1)] 1); simpl; lia.
Defined.

(** X3: Packing what [unpack_alm] made without [fullm] gives the coefficients
    back. *)
Theorem pack_unpack_alm_half alm lmax :
  (0 <= lmax)%Z ->
  (2 * Z.of_nat (length alm) = (lmax + 1) * (lmax + 2))%Z ->
  (a <- unpack_alm alm lmax false ;; pack_alm a None) = Ok alm /\
  (a <- unpack_alm alm lmax false ;; pack_alm a (Some lmax)) = Ok alm.
Proof.
  intros Hl Hlen. apply triangle_length in Hlen; [|exact Hl].
  set (n := Z.to_nat (lmax + 1)).
  assert (Hn : (1 <= n)%nat) by (unfold n; lia).
  destruct (Nat.eq_dec n 1) as [Hn1|Hn1].
  - assert (lmax = 0%Z) as -> by (unfold n in Hn1; lia).
    destruct alm as [|x [|y alm]]; simpl in Hlen; try lia.
    split; reflexivity.
  - destruct (unpack_alm_half alm lmax Hl Hlen) as (half & Hu & H0 & H1 & Hg).
    fold n in H0, H1, Hg. rewrite Hu. cbn [bind].
    unfold pack_alm. rewrite H0, H1.
    assert ((2 * Z.of_nat n - 1 =? Z.of_nat n)%Z = false) as ->
      by (apply Z.eqb_neq; lia).
    cbn [bind]. rewrite H0.
    assert ((lmax =? 0)%Z = false) as -> by (apply Z.eqb_neq; unfold n in *; lia).
    unfold triu_indices_Z.
    assert ((Z.of_nat n - 1 + 1 <? 0)%Z = false) as -> by (apply Z.ltb_ge; lia).
    assert ((lmax + 1 <? 0)%Z = false) as -> by (apply Z.ltb_ge; lia).
    cbn [bind].
    replace (Z.to_nat (Z.of_nat n - 1 + 1)) with n by lia.
    fold n. split; exact Hg.
Qed.

Lemma pack_unpack_alm_half_witness :
  (a <- unpack_alm [(1, 0); (2, 1); (3, -1)] 1 false ;; pack_alm a None)
    = Ok [(1, 0); (2, 1); (3, -1)] /\
  (a <- unpack_alm [(1, 0); (2, 1); (3, -1)] 1 false ;; pack_alm a (Some 1%Z))
    = Ok [(1, 0); (2, 1); (3, -1)].
Proof.
  apply (pack_unpack_alm_half [(1, 0); (2, 1); (3, -1)] 1); simpl; lia.
Defined.

(** X4: A coefficient array of the wrong size is refused, except an array of
    one coefficient, which numpy spreads over the whole triangle. *)
Theorem unpack_alm_wrong_size alm lmax fullm :
  (1 <= lmax)%Z ->
  (2 * Z.of_nat (length alm) <> (lmax + 1) * (lmax + 2))%Z ->
  (length alm <> 1%nat -> unpack_alm alm lmax fullm = Raise ValueError) /\
  (forall v, alm = [v] ->
     exists a, unpack_alm alm lmax false = Ok a /\
       forall l m, (m <= l <= Z.to_nat lmax)%nat -> get2 a l m = Ok v).
Proof.
  intros Hl Hlen.
  assert (Hl0 : (0 <= lmax)%Z) by lia.
  assert (Hne : length alm <> length (triu_indices (Z.to_nat (lmax + 1)) 0)).
  { intros H. apply Hlen. now apply triangle_length. }
  set (idx := triu_indices (Z.to_nat (lmax + 1)) 0) in *.
  assert (Hpre : unpack_alm alm lmax fullm =
                 (vals <- broadcast_values (length idx) alm ;;
                  a <- set_items (repeat (repeat Czero (Z.to_nat (lmax + 1)))
                                         (Z.to_nat (lmax + 1))) (map swap idx) vals ;;
                  if fullm then _make_full_alm a false else Ok a)).
  { unfold unpack_alm, np_zeros2, triu_indices_Z.
    assert ((lmax + 1 <? 0)%Z = false) as -> by (apply Z.ltb_ge; lia).
    cbn [orb bind]. unfold fancy_set. rewrite length_map. fold idx.
    destruct (broadcast_values (length idx) alm); reflexivity. }
  split.
  - intros H1. rewrite Hpre. unfold broadcast_values.
    assert ((length alm =? length idx)%nat = false) as -> by now apply Nat.eqb_neq.
    destruct alm as [|x [|y alm]]; simpl in H1; try reflexivity. lia.
  - intros v ->.
    assert (Hrep : unpack_alm [v] lmax false =
                   unpack_alm (repeat v (length idx)) lmax false).
    { rewrite (unpack_alm_set_items (repeat v (length idx)) lmax Hl0)
        by apply repeat_length.
      fold idx. unfold unpack_alm, np_zeros2, triu_indices_Z.
      assert ((lmax + 1 <? 0)%Z = false) as -> by (apply Z.ltb_ge; lia).
      cbn [orb bind]. unfold fancy_set, broadcast_values. rewrite length_map.
      fold idx.
      assert ((length [v] =? length idx)%nat = false) as -> by now apply Nat.eqb_neq.
      cbn [bind]. now destruct (set_items _ _ (repeat v (length idx))). }
    destruct (unpack_alm_entries (repeat v (length idx)) lmax Hl0)
      as (a & Ha & _ & _ & Hlow & _).
    { apply triangle_length; [exact Hl0 | apply repeat_length]. }
    exists a. split; [now rewrite Hrep|].
    intros l m Hlm. rewrite (Hlow l m Hlm). f_equal.
    set (k := alm_index (Z.to_nat lmax) l m).
    destruct (Nat.lt_ge_cases k (length idx)) as [Hk|Hk].
    + rewrite (nth_indep _ Czero v) by now rewrite repeat_length.
      apply nth_repeat.
    + exfalso.
      assert (Hml : (m <= l < Z.to_nat (lmax + 1))%nat) by lia.
      pose proof (triu_indices_nth _ m l Hml) as Hnth.
      replace (Z.to_nat (lmax + 1) - 1)%nat with (Z.to_nat lmax) in Hnth by lia.
      fold k idx in Hnth. rewrite nth_overflow in Hnth by exact Hk.
      injection Hnth as <- <-.
      pose proof (triu_indices_length_0 (Z.to_nat (lmax + 1))) as Hlen0.
      fold idx in Hlen0. change k with 0%nat in Hk. nia.
Qed.

Lemma unpack_alm_wrong_size_witness :
  (length [(1, 0); (2, 0)] <> 1%nat ->
   unpack_alm [(1, 0); (2, 0)] 1 true = Raise ValueError) /\
  (forall v, [(1, 0); (2, 0)] = [v] ->
     exists a, unpack_alm [(1, 0); (2, 0)] 1 false = Ok a /\
       forall l m, (m <= l <= Z.to_nat 1)%nat -> get2 a l m = Ok v).
Proof.
  apply (unpack_alm_wrong_size [(1, 0); (2, 0)] 1 true); simpl; lia.
Defined.

(** ** [_make_full_alm]: the negative orders *)

Lemma nth_tl {A : Type} (l : list A) k d : nth k (tl l) d = nth (S k) l d.
Proof. destruct l; [now destruct k | reflexivity]. Qed.

Lemma length_tl {A : Type} (l : list A) : length (tl l) = (length l - 1)%nat.
Proof. destruct l; simpl; lia. Qed.

Lemma mfactor_nth n j :
  (j < n - 1)%nat -> nth j (mfactor n) 0%Z = ((-1) ^ Z.of_nat (n - 1 - j))%Z.
Proof.
  intros Hj. unfold mfactor.
  assert (Hlen : length (tl (seq 0 n)) = (n - 1)%nat)
    by (rewrite length_tl, length_seq; lia).
  rewrite (nth_map_lt _ _ _ _ 0%nat) by (rewrite length_rev; lia).
  rewrite rev_nth by lia. rewrite Hlen, nth_tl, seq_nth by lia.
  do 2 f_equal. lia.
Qed.

(** Column [j] of the negative-order block holds order [-(n - 1 - j)]. *)
Lemma alm_neg_row_nth row n j :
  length row = n -> (j < n - 1)%nat ->
  nth j (alm_neg_row n row) Czero =
  Cscale (IZR ((-1) ^ Z.of_nat (n - 1 - j))) (Cconj (nth (n - 1 - j) row Czero)).
Proof.
  intros Hrow Hj. unfold alm_neg_row.
  assert (Hlen : length (tl row) = (n - 1)%nat) by (rewrite length_tl; lia).
  rewrite (map2_nth _ _ _ _ 0%Z (Cconj Czero))
    by (rewrite ?mfactor_length, ?length_map, ?length_rev; lia).
  rewrite mfactor_nth by exact Hj.
  rewrite (map_nth Cconj), rev_nth by lia.
  rewrite Hlen, nth_tl. do 3 f_equal. lia.
Qed.

Lemma nth_error_map2_app_r (g : list complex -> list complex) a l row :
  nth_error a l = Some row ->
  nth_error (map2 (@app complex) a (map g a)) l = Some (row ++ g row).
Proof.
  revert l. induction a as [|r a IH]; intros [|l] H; simpl in *; try discriminate.
  - now injection H as ->.
  - now apply IH.
Qed.

Lemma nth_error_map2_app_l (g : list complex -> list complex) a l row :
  nth_error a l = Some row ->
  nth_error (map2 (@app complex) (map g a) a) l = Some (g row ++ row).
Proof.
  revert l. induction a as [|r a IH]; intros [|l] H; simpl in *; try discriminate.
  - now injection H as ->.
  - now apply IH.
Qed.

Lemma rectangular_shape1 c a : rectangular c a -> a <> [] -> shape1 a = c.
Proof.
  intros Hr Ha. destruct a as [|row a]; [contradiction|].
  inversion Hr; subst. reflexivity.
Qed.

Lemma get2_row a l m v :
  get2 a l m = Ok v ->
  exists row, nth_error a l = Some row /\ nth_error row m = Some v.
Proof.
  unfold get2. destruct (nth_error a l) as [row|]; [|discriminate].
  destruct (nth_error row m) as [w|] eqn:E; [|discriminate].
  intros H. injection H as ->. eauto.
Qed.

(** X5: In the layout of an FFT ([centered = False]) the non-negative orders
    stay in the first columns and order [-m] sits in column [2 n - 1 - m]
    (the column Python calls [-m]), holding [(-1)^m conj(a_lm)]. *)
Theorem make_full_alm_fft_layout half n :
  (1 <= n)%nat -> half <> [] -> rectangular n half ->
  exists full,
    _make_full_alm half false = Ok full /\
    shape0 full = shape0 half /\ shape1 full = (2 * n - 1)%nat /\
    forall l m v, get2 half l m = Ok v ->
      get2 full l m = Ok v /\
      ((1 <= m)%nat ->
       get2 full l (2 * n - 1 - m) =
       Ok (Cscale (IZR ((-1) ^ Z.of_nat m)) (Cconj v))).
Proof.
  intros Hn Hne Hrect.
  pose proof (rectangular_shape1 n half Hrect Hne) as Hs1.
  rewrite make_full_alm_value by lia. eexists. split; [reflexivity|].
  destruct (full_alm_shape half) as [F0 F1]; [lia|]. rewrite Hs1 in *.
  split; [exact F0|]. split; [exact F1|].
  intros l m v Hget. split; [now apply get2_map2_app|].
  intros Hm. destruct (get2_row _ _ _ _ Hget) as (row & Hrow & Hv).
  assert (Hlen : length row = n).
  { unfold rectangular in Hrect. rewrite Forall_forall in Hrect.
    apply Hrect. eapply nth_error_In; eassumption. }
  assert (Hmn : (m < n)%nat) by (rewrite <- Hlen; apply nth_error_Some; congruence).
  unfold get2. rewrite (nth_error_map2_app_r _ _ _ _ Hrow).
  rewrite nth_error_app2 by lia. rewrite Hlen.
  replace (2 * n - 1 - m - n)%nat with (n - 1 - m)%nat by lia.
  rewrite (nth_error_nth' _ Czero)
    by (rewrite alm_neg_row_length by exact Hlen; lia).
  rewrite alm_neg_row_nth by (auto; lia).
  replace (n - 1 - (n - 1 - m))%nat with m by lia.
  now rewrite (nth_error_nth _ _ Czero Hv).
Qed.

Lemma make_full_alm_fft_layout_witness :
  exists full,
    _make_full_alm [[(1, 0); (2, 1)]; [(3, 0); (4, -1)]] false = Ok full /\
    shape0 full = shape0 [[(1, 0); (2, 1)]; [(3, 0); (4, -1)]] /\
    shape1 full = (2 * 2 - 1)%nat /\
    forall l m v, get2 [[(1, 0); (2, 1)]; [(3, 0); (4, -1)]] l m = Ok v ->
      get2 full l m = Ok v /\
      ((1 <= m)%nat ->
       get2 full l (2 * 2 - 1 - m) =
       Ok (Cscale (IZR ((-1) ^ Z.of_nat m)) (Cconj v))).
Proof.
  apply (make_full_alm_fft_layout [[(1, 0); (2, 1)]; [(3, 0); (4, -1)]] 2).
  - lia.
  - discriminate.
  - repeat constructor.
Defined.

Lemma make_full_alm_centered_value half :
  (1 <= shape1 half)%nat ->
  _make_full_alm half true =
  Ok (map2 (@app complex) (map (alm_neg_row (shape1 half)) half) half).
Proof.
  intros H. unfold _make_full_alm, np_zeros2.
  assert ((Z.of_nat (shape0 half) <? 0)%Z = false) as -> by (apply Z.ltb_ge; lia).
  assert ((2 * Z.of_nat (shape1 half) - 1 <? 0)%Z = false) as ->
    by (apply Z.ltb_ge; lia).
  reflexivity.
Qed.

(** X6: In the centered layout order 0 sits in the middle column [n - 1],
    order [m] in column [n - 1 + m] and order [-m] in column [n - 1 - m],
    holding [(-1)^m conj(a_lm)]. *)
Theorem make_full_alm_centered_layout half n :
  (1 <= n)%nat -> half <> [] -> rectangular n half ->
  exists full,
    _make_full_alm half true = Ok full /\
    shape0 full = shape0 half /\ shape1 full = (2 * n - 1)%nat /\
    forall l m v, get2 half l m = Ok v ->
      get2 full l (n - 1 + m) = Ok v /\
      ((1 <= m)%nat ->
       get2 full l (n - 1 - m) =
       Ok (Cscale (IZR ((-1) ^ Z.of_nat m)) (Cconj v))).
Proof.
  intros Hn Hne Hrect.
  pose proof (rectangular_shape1 n half Hrect Hne) as Hs1.
  rewrite make_full_alm_centered_value by lia. eexists. split; [reflexivity|].
  rewrite Hs1.
  assert (Hrow0 : forall row, In row half -> length row = n).
  { unfold rectangular in Hrect. now rewrite Forall_forall in Hrect. }
  split; [|split].
  - unfold shape0. rewrite map2_length, length_map. lia.
  - destruct half as [|row half]; [contradiction|]. simpl.
    rewrite length_app, alm_neg_row_length by (apply Hrow0; now left).
    rewrite (Hrow0 row) by now left. lia.
  - intros l m v Hget. destruct (get2_row _ _ _ _ Hget) as (row & Hrow & Hv).
    assert (Hlen : length row = n) by (apply Hrow0; eapply nth_error_In; eassumption).
    assert (Hmn : (m < n)%nat) by (rewrite <- Hlen; apply nth_error_Some; congruence).
    unfold get2. rewrite (nth_error_map2_app_l _ _ _ _ Hrow). split.
    + rewrite nth_error_app2 by (rewrite alm_neg_row_length by exact Hlen; lia).
      rewrite alm_neg_row_length by exact Hlen.
      replace (n - 1 + m - (n - 1))%nat with m by lia. now rewrite Hv.
    + intros Hm.
      rewrite nth_error_app1 by (rewrite alm_neg_row_length by exact Hlen; lia).
      rewrite (nth_error_nth' _ Czero)
        by (rewrite alm_neg_row_length by exact Hlen; lia).
      rewrite alm_neg_row_nth by (auto; lia).
      replace (n - 1 - (n - 1 - m))%nat with m by lia.
      now rewrite (nth_error_nth _ _ Czero Hv).
Qed.

Lemma make_full_alm_centered_layout_witness :
  exists full,
    _make_full_alm [[(1, 0); (2, 1)]; [(3, 0); (4, -1)]] true = Ok full /\
    shape0 full = shape0 [[(1, 0); (2, 1)]; [(3, 0); (4, -1)]] /\
    shape1 full = (2 * 2 - 1)%nat /\
    forall l m v, get2 [[(1, 0); (2, 1)]; [(3, 0); (4, -1)]] l m = Ok v ->
      get2 full l (2 - 1 + m) = Ok v /\
      ((1 <= m)%nat ->
       get2 full l (2 - 1 - m) =
       Ok (Cscale (IZR ((-1) ^ Z.of_nat m)) (Cconj v))).
Proof.
  apply (make_full_alm_centered_layout [[(1, 0); (2, 1)]; [(3, 0); (4, -1)]] 2).
  - lia.
  - discriminate.
  - repeat constructor.
Defined.

(** ** [_make_half_alm] and the shape test of [pack_alm] *)

Lemma get_col_defined a c j :
  rectangular c a -> (j < c)%nat ->
  exists col, get_col a j = Ok col /\ length col = length a.
Proof.
  unfold get_col. intros Hr Hj. induction Hr as [|row a Hrow Hr IH]; simpl.
  - exists []. now split.
  - destruct (nth_error row j) as [v|] eqn:E.
    + destruct IH as (col & -> & Hlen). exists (v :: col). simpl. split; [reflexivity|].
      now f_equal.
    + apply nth_error_None in E. lia.
Qed.

Lemma half_alm_loop_cons alm_full alm mi mis :
  half_alm_loop alm_full alm (mi :: mis) =
  (col <- get_col alm_full mi ;;
   s <- pow_minus_one_half ;;
   alm' <- set_col alm mi (map (fun x => Cscale (1 / 2) (Cadd x (Cmul s x))) col) ;;
   half_alm_loop alm_full alm' mis).
Proof. destruct alm; reflexivity. Qed.

(** X7: [_make_half_alm] raises on every array of at least two rows and two
    columns (its loop evaluates [(-1)**0.5]); [pack_alm] calls it exactly on
    the arrays of shape (2 c - 1, c), which it therefore refuses. *)
Theorem make_half_alm_raises a c :
  (2 <= c)%nat -> (2 <= length a)%nat -> rectangular c a ->
  _make_half_alm a = Raise ValueError /\
  (length a = (2 * c - 1)%nat -> forall lmax, pack_alm a lmax = Raise ValueError).
Proof.
  intros Hc Hlen Hrect.
  assert (Hne : a <> []) by (destruct a; [simpl in Hlen; lia | discriminate]).
  assert (Hhalf : _make_half_alm a = Raise ValueError).
  { unfold _make_half_alm, shape0, np_zeros2.
    assert ((Z.of_nat (length a) <? 0)%Z = false) as -> by (apply Z.ltb_ge; lia).
    cbn [orb bind]. rewrite Nat2Z.id.
    destruct (get_col_defined a c 0 Hrect) as (col0 & -> & _); [lia|]. cbn [bind].
    unfold set_col at 1. rewrite shape1_repeat, repeat_length by lia.
    assert ((0 <? length a)%nat = true) as -> by (apply Nat.ltb_lt; lia).
    cbn [bind].
    replace (length a - 1)%nat with (S (length a - 2)) by lia.
    cbn [seq]. rewrite half_alm_loop_cons.
    destruct (get_col_defined a c 1 Hrect) as (col1 & -> & _); [lia|].
    reflexivity. }
  split; [exact Hhalf|].
  intros Hshape lmax. unfold pack_alm.
  rewrite (rectangular_shape1 c a Hrect Hne). unfold shape0 at 1.
  assert ((2 * Z.of_nat c - 1 =? Z.of_nat (length a))%Z = true) as ->
    by (apply Z.eqb_eq; lia).
  now rewrite Hhalf.
Qed.

Lemma make_half_alm_raises_witness :
  _make_half_alm [[(1, 0); (2, 0)]; [(3, 0); (4, 0)]; [(5, 0); (6, 0)]]
    = Raise ValueError /\
  (length [[(1, 0); (2, 0)]; [(3, 0); (4, 0)]; [(5, 0); (6, 0)]] = (2 * 2 - 1)%nat ->
   forall lmax,
     pack_alm [[(1, 0); (2, 0)]; [(3, 0); (4, 0)]; [(5, 0); (6, 0)]] lmax
       = Raise ValueError).
Proof.
  apply (make_half_alm_raises
           [[(1, 0); (2, 0)]; [(3, 0); (4, 0)]; [(5, 0); (6, 0)]] 2).
  - lia.
  - simpl. lia.
  - repeat constructor.
Defined.

(** ** [sphtrans_real]: the transform as a two-dimensional array *)

Lemma get2_transpose a i j v :
  get2 a j i = Ok v -> (i < shape1 a)%nat -> get2 (transpose a) i j = Ok v.
Proof.
  intros Hget Hi. destruct (get2_row _ _ _ _ Hget) as (row & Hrow & Hv).
  unfold get2, transpose.
  rewrite nth_error_map, (nth_error_nth' _ 0%nat) by (rewrite length_seq; lia).
  rewrite seq_nth by lia. cbn [option_map Nat.add].
  rewrite nth_error_map, Hrow. cbn [option_map].
  now rewrite (nth_error_nth _ _ Czero Hv).
Qed.

Lemma mapM_map {A B D : Type} (f : B -> result D) (g : A -> B) l :
  mapM f (map g l) = mapM (fun x => f (g x)) l.
Proof.
  induction l as [|a l IH]; simpl; [reflexivity|]. now rewrite IH.
Qed.

(** What [sphtrans_real] computes before the transposition. *)
Lemma sphtrans_real_steps map2alm hpmap lmax lside :
  (0 <= lmax)%Z ->
  length (map2alm hpmap lmax) = length (triu_indices (Z.to_nat (lmax + 1)) 0) ->
  exists alm,
    set_items (repeat (repeat Czero (Z.to_nat (Z.max lside lmax + 1)))
                      (Z.to_nat (Z.max lside lmax + 1)))
              (triu_indices (Z.to_nat (lmax + 1)) 0) (map2alm hpmap lmax) = Ok alm /\
    sphtrans_real map2alm hpmap lmax lside = Ok (transpose alm) /\
    shape0 alm = Z.to_nat (Z.max lside lmax + 1) /\
    shape1 alm = Z.to_nat (Z.max lside lmax + 1) /\
    fancy_get alm (triu_indices (Z.to_nat (lmax + 1)) 0) = Ok (map2alm hpmap lmax).
Proof.
  intros Hl Hlen. unfold sphtrans_real.
  replace (if (lside <? lmax)%Z then lmax else lside) with (Z.max lside lmax)
    by (destruct (lside <? lmax)%Z eqn:E;
        [apply Z.ltb_lt in E | apply Z.ltb_ge in E]; lia).
  set (s := Z.max lside lmax).
  assert (Hs : (lmax <= s)%Z) by (unfold s; lia).
  unfold np_zeros2, triu_indices_Z.
  assert ((s + 1 <? 0)%Z = false) as -> by (apply Z.ltb_ge; lia).
  assert ((lmax + 1 <? 0)%Z = false) as -> by (apply Z.ltb_ge; lia).
  cbn [orb bind]. unfold fancy_set, broadcast_values.
  set (idx := triu_indices (Z.to_nat (lmax + 1)) 0) in *.
  assert ((length (map2alm hpmap lmax) =? length idx)%nat = true) as ->
    by now apply Nat.eqb_eq.
  cbn [bind].
  destruct (set_items_defined idx
              (repeat (repeat Czero (Z.to_nat (s + 1))) (Z.to_nat (s + 1)))
              (map2alm hpmap lmax)) as [alm Halm].
  { intros i j Hin. apply in_triu_indices in Hin. exists Czero.
    apply get2_zeros; lia. }
  exists alm. rewrite Halm. cbn [bind]. split; [reflexivity|]. split; [reflexivity|].
  destruct (set_items_shape _ _ _ _ Halm) as [H0 H1].
  destruct (zeros_shape (Z.to_nat (s + 1)) (Z.to_nat (s + 1))) as [Z0 Z1]; [lia|].
  split; [congruence|]. split; [congruence|].
  apply (set_items_get _ _ _ _ (triu_indices_NoDup _ _) Hlen Halm).
Qed.

Lemma sphtrans_real_entries map2alm hpmap lmax lside :
  (0 <= lmax)%Z ->
  (2 * Z.of_nat (length (map2alm hpmap lmax)) = (lmax + 1) * (lmax + 2))%Z ->
  exists a,
    sphtrans_real map2alm hpmap lmax lside = Ok a /\
    shape0 a = Z.to_nat (Z.max lside lmax + 1) /\
    shape1 a = Z.to_nat (Z.max lside lmax + 1) /\
    (forall l m, (m <= l <= Z.to_nat lmax)%nat ->
       get2 a l m =
       Ok (nth (alm_index (Z.to_nat lmax) l m) (map2alm hpmap lmax) Czero)) /\
    (forall l m, (l <= Z.to_nat (Z.max lside lmax))%nat ->
                 (m <= Z.to_nat (Z.max lside lmax))%nat ->
                 (l < m \/ Z.to_nat lmax < l)%nat ->
       get2 a l m = Ok Czero).
Proof.
  intros Hl Hlen. apply triangle_length in Hlen; [|exact Hl].
  destruct (sphtrans_real_steps map2alm hpmap lmax lside Hl Hlen)
    as (alm & Hset & Hres & H0 & H1 & Hget).
  set (s := Z.max lside lmax) in *.
  assert (Hs : (lmax <= s)%Z) by (unfold s; lia).
  set (n := Z.to_nat (lmax + 1)) in *.
  exists (transpose alm). split; [exact Hres|].
  destruct (transpose_shape alm (Z.to_nat (s + 1))) as [T0 T1]; [lia | assumption..|].
  split; [exact T0|]. split; [exact T1|]. split.
  - intros l m Hlm. apply get2_transpose; [|rewrite H1; lia].
    assert (Hml : (m <= l < n)%nat) by (unfold n; lia).
    pose proof (triu_indices_nth n m l Hml) as Hnth.
    replace (n - 1)%nat with (Z.to_nat lmax) in Hnth by (unfold n; lia).
    set (k := alm_index (Z.to_nat lmax) l m) in *.
    assert (Hk : (k < length (triu_indices n 0))%nat).
    { destruct (Nat.lt_ge_cases k (length (triu_indices n 0))) as [|Hge];
        [assumption|].
      rewrite nth_overflow in Hnth by exact Hge. injection Hnth as <- <-.
      pose proof (triu_indices_length_0 n) as Hlen0.
      change k with 0%nat in Hge. nia. }
    unfold fancy_get in Hget.
    pose proof (mapM_nth _ _ _ k (0, 0)%nat Czero Hget Hk) as Hk'.
    now rewrite Hnth in Hk'.
  - intros l m Hls Hms Hout. apply get2_transpose; [|rewrite H1; lia].
    rewrite (set_items_get_other _ _ _ _ _ _ Hset).
    + apply get2_zeros; lia.
    + intros Hin. apply in_triu_indices in Hin. unfold n in *. lia.
Qed.

(** X8: When [healpy.map2alm] returns the [(lmax + 1)(lmax + 2) / 2] packed
    coefficients, [sphtrans_real] returns the square array of side
    [max(lside, lmax) + 1] that holds a_lm at [l, m] for [m <= l <= lmax]
    and zero everywhere else. *)
Theorem sphtrans_real_layout map2alm hpmap lmax lside :
  (0 <= lmax)%Z ->
  (2 * Z.of_nat (length (map2alm hpmap lmax)) = (lmax + 1) * (lmax + 2))%Z ->
  exists a,
    sphtrans_real map2alm hpmap lmax lside = Ok a /\
    shape0 a = Z.to_nat (Z.max lside lmax + 1) /\
    shape1 a = Z.to_nat (Z.max lside lmax + 1) /\
    (forall l m, (m <= l <= Z.to_nat lmax)%nat ->
       get2 a l m =
       Ok (nth (alm_index (Z.to_nat lmax) l m) (map2alm hpmap lmax) Czero)) /\
    (forall l m, (l <= Z.to_nat (Z.max lside lmax))%nat ->
                 (m <= Z.to_nat (Z.max lside lmax))%nat ->
                 (l < m \/ Z.to_nat lmax < l)%nat ->
       get2 a l m = Ok Czero).
Proof. exact (sphtrans_real_entries map2alm hpmap lmax lside). Qed.

Lemma sphtrans_real_layout_witness :
  exists a,
    sphtrans_real (fun _ _ => [(1, 0); (2, 1); (3, -1)]) [] 1 2 = Ok a /\
    shape0 a = Z.to_nat (Z.max 2 1 + 1) /\
    shape1 a = Z.to_nat (Z.max 2 1 + 1) /\
    (forall l m, (m <= l <= Z.to_nat 1)%nat ->
       get2 a l m =
       Ok (nth (alm_index (Z.to_nat 1) l m) [(1, 0); (2, 1); (3, -1)] Czero)) /\
    (forall l m, (l <= Z.to_nat (Z.max 2 1))%nat ->
                 (m <= Z.to_nat (Z.max 2 1))%nat ->
                 (l < m \/ Z.to_nat 1 < l)%nat ->
       get2 a l m = Ok Czero).
Proof.
  apply (sphtrans_real_layout (fun _ _ => [(1, 0); (2, 1); (3, -1)]) [] 1 2);
    simpl; lia.
Defined.

(** X9: Packing the array of [sphtrans_real] with the bandlimit gives the
    coefficients of [healpy.map2alm] back, whatever the side length; without
    the bandlimit it does when the array is not padded. *)
Theorem pack_alm_sphtrans_real map2alm hpmap lmax lside :
  (1 <= lmax)%Z ->
  (2 * Z.of_nat (length (map2alm hpmap lmax)) = (lmax + 1) * (lmax + 2))%Z ->
  (a <- sphtrans_real map2alm hpmap lmax lside ;; pack_alm a (Some lmax))
    = Ok (map2alm hpmap lmax) /\
  ((lside <= lmax)%Z ->
   (a <- sphtrans_real map2alm hpmap lmax lside ;; pack_alm a None)
     = Ok (map2alm hpmap lmax)).
Proof.
  intros Hl Hlen. assert (Hl0 : (0 <= lmax)%Z) by lia.
  apply triangle_length in Hlen; [|exact Hl0].
  destruct (sphtrans_real_steps map2alm hpmap lmax lside Hl0 Hlen)
    as (alm & Hset & Hres & H0 & H1 & Hget).
  set (s := Z.max lside lmax) in *.
  assert (Hs : (lmax <= s)%Z) by (unfold s; lia).
  destruct (transpose_shape alm (Z.to_nat (s + 1))) as [T0 T1]; [lia | assumption..|].
  assert (Hread : fancy_get (transpose alm)
                    (map swap (triu_indices (Z.to_nat (lmax + 1)) 0))
                  = Ok (map2alm hpmap lmax)).
  { unfold fancy_get in *. rewrite mapM_map.
    apply (mapM_ok_ext _ _ _ _ Hget). intros [r c] v Hin Hv. simpl in *.
    apply get2_transpose; [exact Hv|]. apply in_triu_indices in Hin.
    rewrite H1. lia. }
  rewrite Hres. cbn [bind]. unfold pack_alm. rewrite T0, T1.
  assert ((2 * Z.of_nat (Z.to_nat (s + 1)) - 1 =? Z.of_nat (Z.to_nat (s + 1)))%Z
          = false) as -> by (apply Z.eqb_neq; lia).
  cbn [bind]. rewrite T0. unfold triu_indices_Z. split.
  - assert ((lmax =? 0)%Z = false) as -> by (apply Z.eqb_neq; lia).
    assert ((lmax + 1 <? 0)%Z = false) as -> by (apply Z.ltb_ge; lia).
    exact Hread.
  - intros Hside. assert (Hsl : s = lmax) by (unfold s; lia).
    assert ((Z.of_nat (Z.to_nat (s + 1)) - 1 + 1 <? 0)%Z = false) as ->
      by (apply Z.ltb_ge; lia).
    cbn [bind].
    replace (Z.to_nat (Z.of_nat (Z.to_nat (s + 1)) - 1 + 1))
      with (Z.to_nat (lmax + 1)) by lia.
    exact Hread.
Qed.

Lemma pack_alm_sphtrans_real_witness :
  (a <- sphtrans_real (fun _ _ => [(1, 0); (2, 1); (3, -1)]) [] 1 2 ;;
   pack_alm a (Some 1%Z)) = Ok [(1, 0); (2, 1); (3, -1)] /\
  ((2 <= 1)%Z ->
   (a <- sphtrans_real (fun _ _ => [(1, 0); (2, 1); (3, -1)]) [] 1 2 ;;
    pack_alm a None) = Ok [(1, 0); (2, 1); (3, -1)]).
Proof.
  apply (pack_alm_sphtrans_real (fun _ _ => [(1, 0); (2, 1); (3, -1)]) [] 1 2);
    simpl; lia.
Defined.

(** ** [sphtrans_complex] *)

Lemma get2_add_times_i a b i j x y :
  get2 a i j = Ok x -> get2 b i j = Ok y ->
  get2 (add_times_i a b) i j = Ok (Cadd x (Cmul Ci y)).
Proof.
  intros Ha Hb.
  destruct (get2_row _ _ _ _ Ha) as (ra & Hra & Hx).
  destruct (get2_row _ _ _ _ Hb) as (rb & Hrb & Hy).
  assert (Hrow : forall (f : complex -> complex -> complex) la lb k u v,
            nth_error la k = Some u -> nth_error lb k = Some v ->
            nth_error (map2 f la lb) k = Some (f u v)).
  { intros f la. induction la as [|u0 la IH]; intros [|v0 lb] [|k] u v Hu Hv;
      simpl in *; try discriminate.
    - now injection Hu as ->; injection Hv as ->.
    - now apply IH. }
  assert (Hrows : forall (f : list complex -> list complex -> list complex)
                         la lb k u v,
            nth_error la k = Some u -> nth_error lb k = Some v ->
            nth_error (map2 f la lb) k = Some (f u v)).
  { intros f la. induction la as [|u0 la IH]; intros [|v0 lb] [|k] u v Hu Hv;
      simpl in *; try discriminate.
    - now injection Hu as ->; injection Hv as ->.
    - now apply IH. }
  unfold get2, add_times_i.
  rewrite (Hrows _ _ _ _ _ _ Hra Hrb).
  now rewrite (Hrow _ _ _ _ _ _ Hx Hy).
Qed.

Lemma sphtrans_complex_entries map2alm hpmap lmax lside :
  (0 <= lmax)%Z ->
  (2 * Z.of_nat (length (map2alm (map fst hpmap) lmax)) = (lmax + 1) * (lmax + 2))%Z ->
  (2 * Z.of_nat (length (map2alm (map snd hpmap) lmax)) = (lmax + 1) * (lmax + 2))%Z ->
  exists blk,
    sphtrans_complex map2alm hpmap lmax false lside = Ok blk /\
    shape0 blk = Z.to_nat (Z.max lside lmax + 1) /\
    shape1 blk = (2 * Z.to_nat (Z.max lside lmax + 1) - 1)%nat /\
    forall l m, (m <= l <= Z.to_nat lmax)%nat ->
      get2 blk l m =
      Ok (Cadd (nth (alm_index (Z.to_nat lmax) l m)
                    (map2alm (map fst hpmap) lmax) Czero)
               (Cmul Ci (nth (alm_index (Z.to_nat lmax) l m)
                             (map2alm (map snd hpmap) lmax) Czero))).
Proof.
  intros Hl Hre Him.
  destruct (sphtrans_real_entries map2alm (map fst hpmap) lmax lside Hl Hre)
    as (re & Er & R0 & R1 & Rlow & _).
  destruct (sphtrans_real_entries map2alm (map snd hpmap) lmax lside Hl Him)
    as (im & Ei & I0 & I1 & Ilow & _).
  set (n := Z.to_nat (Z.max lside lmax + 1)) in *.
  assert (Hn : (1 <= n)%nat) by (unfold n; lia).
  assert (Eblk : sphtrans_complex map2alm hpmap lmax false lside =
            Ok (add_times_i
                  (map2 (@app complex) re (map (alm_neg_row (shape1 re)) re))
                  (map2 (@app complex) im (map (alm_neg_row (shape1 im)) im)))).
  { unfold sphtrans_complex. rewrite Er. cbn [bind].
    rewrite make_full_alm_value by lia. cbn [bind]. rewrite Ei. cbn [bind].
    rewrite make_full_alm_value by lia. reflexivity. }
  eexists. split; [exact Eblk|].
  destruct (sphtrans_complex_shape _ _ _ _ _ Hl Eblk) as [B0 B1].
  split; [exact B0|]. split; [exact B1|].
  intros l m Hlm. apply get2_add_times_i; apply get2_map2_app; auto.
Qed.

(** X10: When [healpy.map2alm] returns the packed coefficients of the real and
    of the imaginary part, [sphtrans_complex] returns an array of
    [s + 1] rows and [2 s + 1] columns, [s = max(lside, lmax)], whose
    entry [l, m], [m <= l <= lmax], is the coefficient of the real part plus
    i times the coefficient of the imaginary part. *)
Theorem sphtrans_complex_layout map2alm hpmap lmax lside :
  (0 <= lmax)%Z ->
  (2 * Z.of_nat (length (map2alm (map fst hpmap) lmax)) = (lmax + 1) * (lmax + 2))%Z ->
  (2 * Z.of_nat (length (map2alm (map snd hpmap) lmax)) = (lmax + 1) * (lmax + 2))%Z ->
  exists blk,
    sphtrans_complex map2alm hpmap lmax false lside = Ok blk /\
    shape0 blk = Z.to_nat (Z.max lside lmax + 1) /\
    shape1 blk = (2 * Z.to_nat (Z.max lside lmax + 1) - 1)%nat /\
    forall l m, (m <= l <= Z.to_nat lmax)%nat ->
      get2 blk l m =
      Ok (Cadd (nth (alm_index (Z.to_nat lmax) l m)
                    (map2alm (map fst hpmap) lmax) Czero)
               (Cmul Ci (nth (alm_index (Z.to_nat lmax) l m)
                             (map2alm (map snd hpmap) lmax) Czero))).
Proof. exact (sphtrans_complex_entries map2alm hpmap lmax lside). Qed.

Lemma sphtrans_complex_layout_witness :
  exists blk,
    sphtrans_complex (fun _ _ => [(1, 0); (2, 1); (3, -1)]) [] 1 false 2 = Ok blk /\
    shape0 blk = Z.to_nat (Z.max 2 1 + 1) /\
    shape1 blk = (2 * Z.to_nat (Z.max 2 1 + 1) - 1)%nat /\
    forall l m, (m <= l <= Z.to_nat 1)%nat ->
      get2 blk l m =
      Ok (Cadd (nth (alm_index (Z.to_nat 1) l m) [(1, 0); (2, 1); (3, -1)] Czero)
               (Cmul Ci (nth (alm_index (Z.to_nat 1) l m)
                             [(1, 0); (2, 1); (3, -1)] Czero))).
Proof.
  apply (sphtrans_complex_layout (fun _ _ => [(1, 0); (2, 1); (3, -1)]) [] 1 2);
    simpl; lia.
Defined.

(** ** [map_half_plane]: where the fold works *)

Lemma half_plane_row_right u v : 0 < u -> half_plane_row (u, v) = (u, v).
Proof.
  intros H. unfold half_plane_row. simpl.
  assert (R_ltb u 0 = false) as -> by (apply R_ltb_false; lra). simpl.
  assert (R_eqb u 0 = false) as -> by (apply R_eqb_false; lra). reflexivity.
Qed.

Lemma half_plane_row_left u v : u < 0 -> half_plane_row (u, v) = (- u, - v).
Proof.
  intros H. unfold half_plane_row. simpl.
  assert (R_ltb u 0 = true) as -> by (apply R_ltb_true; lra). simpl.
  assert (R_eqb (- u) 0 = false) as -> by (apply R_eqb_false; lra). reflexivity.
Qed.

Lemma half_plane_row_axis_low v : v < 1 -> half_plane_row (0, v) = (0, - v).
Proof.
  intros H. unfold half_plane_row. simpl.
  assert (R_ltb 0 0 = false) as -> by (apply R_ltb_false; lra). simpl.
  rewrite R_eqb_refl.
  assert (R_ltb v 1 = true) as -> by (apply R_ltb_true; lra). simpl.
  unfold vneg. simpl. now rewrite Ropp_0.
Qed.

Lemma half_plane_row_axis_high v : 1 <= v -> half_plane_row (0, v) = (0, v).
Proof.
  intros H. unfold half_plane_row. simpl.
  assert (R_ltb 0 0 = false) as -> by (apply R_ltb_false; lra). simpl.
  rewrite R_eqb_refl.
  assert (R_ltb v 1 = false) as -> by (apply R_ltb_false; lra). reflexivity.
Qed.

Lemma vec2_eq (a b c d : R) : (a, b) = (c, d) <-> a = c /\ b = d.
Proof.
  split; [intros H; injection H as -> ->; now split | intros [-> ->]; reflexivity].
Qed.

Lemma Rabs_ge_1 v : 1 <= Rabs v <-> v <= -1 \/ 1 <= v.
Proof.
  unfold Rabs. destruct (Rcase_abs v); split; intros H; try lra;
    destruct H; lra.
Qed.

Lemma half_plane_row_cases (a : vec2) :
  0 <= fst (half_plane_row a) /\
  (half_plane_row (vneg a) = half_plane_row a <->
   fst a <> 0 \/ snd a = 0 \/ 1 <= Rabs (snd a)) /\
  (half_plane_row (half_plane_row a) = half_plane_row a <->
   fst a <> 0 \/ snd a = 0 \/ 1 <= Rabs (snd a)).
Proof.
  destruct a as [u v]. rewrite Rabs_ge_1. unfold vneg. simpl.
  destruct (Rtotal_order u 0) as [Hu|[Hu|Hu]].
  - rewrite (half_plane_row_left u v Hu).
    rewrite !half_plane_row_right by lra.
    simpl. repeat split; intros; try reflexivity; try lra; left; lra.
  - subst u. rewrite Ropp_0.
    destruct (Rlt_or_le v 1) as [Hv|Hv].
    + rewrite (half_plane_row_axis_low v Hv). simpl. split; [lra|].
      destruct (Rlt_or_le (- v) 1) as [Hv'|Hv'].
      * rewrite (half_plane_row_axis_low (- v) Hv'). rewrite !vec2_eq.
        split; (split; [intros [_ H]; right; left; lra
                       | intros [H|[H|[H|H]]]; split; lra]).
      * rewrite (half_plane_row_axis_high (- v) Hv'). rewrite !vec2_eq.
        split; (split; [intros _; right; right; left; lra | intros _; split; lra]).
    + rewrite (half_plane_row_axis_high v Hv). simpl. split; [lra|].
      rewrite (half_plane_row_axis_low (- v)) by lra.
      rewrite (half_plane_row_axis_high v Hv). rewrite !vec2_eq.
      split; (split; [intros _; right; right; right; lra | intros _; split; lra]).
  - rewrite (half_plane_row_right u v Hu).
    rewrite (half_plane_row_left (- u) (- v)) by lra.
    rewrite (half_plane_row_right u v Hu). rewrite !vec2_eq.
    simpl. split; [lra|].
    split; (split; [intros _; left; lra | intros _; split; lra]).
Qed.

Lemma map_eq_Forall {A B : Type} (f g : A -> B) (l : list A) :
  map f l = map g l <-> Forall (fun a => f a = g a) l.
Proof.
  induction l as [|a l IH]; simpl.
  - split; [constructor | reflexivity].
  - rewrite Forall_cons_iff, <- IH. split.
    + intros H. injection H as H1 H2. now split.
    + intros [-> ->]. reflexivity.
Qed.

(** X11: Every row of the result of [map_half_plane] has a non-negative first
    coordinate.  The function sends an array and its negation to the same
    result exactly when every row is off the axis [u = 0], is the zero
    vector, or lies on the axis with [|v| >= 1]; and it leaves its own
    result unchanged under exactly the same condition. *)
Theorem map_half_plane_characterisation (arr : list vec2) :
  Forall (fun a => 0 <= fst a) (map_half_plane arr) /\
  (map_half_plane (map vneg arr) = map_half_plane arr <->
   Forall (fun a => fst a <> 0 \/ snd a = 0 \/ 1 <= Rabs (snd a)) arr) /\
  (map_half_plane (map_half_plane arr) = map_half_plane arr <->
   Forall (fun a => fst a <> 0 \/ snd a = 0 \/ 1 <= Rabs (snd a)) arr).
Proof.
  rewrite !map_half_plane_rows, !map_map. repeat split.
  - apply Forall_map, Forall_forall. intros a _.
    apply (half_plane_row_cases a).
  - intros H. apply map_eq_Forall in H. revert H. apply Forall_impl.
    intros a. apply (half_plane_row_cases a).
  - intros H. apply map_eq_Forall. revert H. apply Forall_impl.
    intros a. apply (half_plane_row_cases a).
  - intros H. apply map_eq_Forall in H. revert H. apply Forall_impl.
    intros a. apply (half_plane_row_cases a).
  - intros H. apply map_eq_Forall. revert H. apply Forall_impl.
    intros a. apply (half_plane_row_cases a).
Qed.

(** ** The kernels and the grid cache *)

Lemma refresh_grid_value nside lmax : refresh_grid nside lmax = nside_for_lmax lmax 1.
Proof.
  unfold refresh_grid. destruct (nside_for_lmax lmax 1) as [n|e]; [|reflexivity].
  cbn [bind]. destruct (nside =? n)%Z eqn:E; cbn [negb]; [|reflexivity].
  apply Z.eqb_eq in E. now subst.
Qed.

Lemma nside_for_lmax_defined lmax boost :
  (-1 <= lmax)%Z -> exists n, nside_for_lmax lmax boost = Ok n.
Proof.
  intros H. unfold nside_for_lmax.
  assert ((lmax + 1 <? 0)%Z = false) as -> by (apply Z.ltb_ge; lia).
  destruct (lmax + 1 =? 0)%Z; eexists; reflexivity.
Qed.

Lemma nside_for_lmax_undefined lmax boost :
  (lmax < -1)%Z -> nside_for_lmax lmax boost = Raise ValueError.
Proof.
  intros H. unfold nside_for_lmax.
  now assert ((lmax + 1 <? 0)%Z = true) as -> by (apply Z.ltb_lt; lia).
Qed.


(** ** [transfer_matrices]: the empty request *)

Lemma np_argsort_nil : np_argsort [] = [].
Proof. reflexivity. Qed.

Lemma request_lmax_nil tel : request_lmax tel [] [] = [].
Proof. reflexivity. Qed.

(** X13: An empty (integer) request passes both range checks.  Without
    [global_lmax] the side length is the maximum of no bandlimit and the
    call raises [ValueError] before anything is allocated; with it, the
    call returns the empty buffer it allocated for the telescope's own
    bandlimit, and the kernel is never invoked. *)
Theorem transfer_matrices_empty_request (V : Variant) tel (st : vstate V) :
  transfer_matrices V tel st [] [] false = (Raise ValueError, no_effects, st) /\
  forall L arr,
    telescope_lmax tel = Ok L -> _make_matrix_array V 0 L = Ok arr ->
    transfer_matrices V tel st [] [] true =
    (Ok arr, {| allocated := [(0%nat, L)]; kernel_calls := []; copied := [] |}, st).
Proof.
  split.
  - reflexivity.
  - intros L arr HL Harr. unfold transfer_matrices.
    change (np_broadcast_arrays [] []) with (Ok (@nil Z, @nil Z)). cbv iota beta.
    change (out_of_range [] 0 (nbase tel)) with false.
    change (out_of_range [] 0 (nfreq tel)) with false. cbv iota.
    rewrite request_lmax_nil. unfold choose_lside. rewrite HL.
    cbn [length]. rewrite Harr. rewrite np_argsort_nil. reflexivity.
Qed.

Lemma transfer_matrices_empty_request_witness :
  exists L,
    transfer_matrices (UnpolarisedTelescope.variant (fun _ _ => []) (fun _ _ _ => []))
      two_feed_telescope 2%Z [] [] true =
    (Ok [], {| allocated := [(0%nat, L)]; kernel_calls := []; copied := [] |}, 2%Z).
Proof.
  destruct two_feed_sides as [_ Ht].
  pose proof two_feed_lmax_row as [H0 _].
  exists (lmax_row (0, - (1 / 2))%R (1 / 2) 20).
  apply (transfer_matrices_empty_request
           (UnpolarisedTelescope.variant (fun _ _ => []) (fun _ _ _ => []))
           two_feed_telescope 2%Z).
  - exact Ht.
  - cbn [_make_matrix_array UnpolarisedTelescope.variant].
    unfold UnpolarisedTelescope._make_matrix_array, np_zeros2.
    assert ((lmax_row (0, - (1 / 2))%R (1 / 2) 20 + 1 <? 0)%Z = false) as ->
      by (apply Z.ltb_ge; lia).
    assert ((2 * lmax_row (0, - (1 / 2))%R (1 / 2) 20 + 1 <? 0)%Z = false) as ->
      by (apply Z.ltb_ge; lia).
    reflexivity.
Defined.

(** ** [transfer_for_frequency], [transfer_for_baseline] *)

Lemma in_range_arange n : out_of_range (map Z.of_nat (seq 0 n)) 0 (Z.of_nat n) = false.
Proof.
  unfold out_of_range, in_range. apply negb_false_iff. apply andb_true_iff.
  split; apply forallb_forall; intros x Hx; apply in_map_iff in Hx;
    destruct Hx as (k & <- & Hk); apply in_seq in Hk.
  - apply Z.leb_le. lia.
  - apply Z.ltb_lt. lia.
Qed.

Lemma np_broadcast_same_length a b :
  length a = length b -> np_broadcast_arrays a b = Ok (a, b).
Proof.
  intros H. unfold np_broadcast_arrays.
  now assert ((length a =? length b)%nat = true) as -> by now apply Nat.eqb_eq.
Qed.

(** X14: Either convenience method validates its argument through
    [transfer_matrices]: a frequency index outside [0, nfreq) (negative ones
    included) makes [transfer_for_frequency] raise the frequency error, as
    soon as the telescope has a baseline; a baseline index outside
    [0, nbase) makes [transfer_for_baseline] raise the baseline error, as
    soon as it has a frequency.  Nothing is allocated or computed. *)
Theorem transfer_for_invalid_argument (V : Variant) tel (st : vstate V) :
  (forall freq, baselines tel <> [] -> ~ (0 <= freq < nfreq tel)%Z ->
     transfer_for_frequency V tel st freq =
     (Raise (InvalidIndex FrequencyIndex), no_effects, st)) /\
  (forall baseline, wavelengths tel <> [] -> ~ (0 <= baseline < nbase tel)%Z ->
     transfer_for_baseline V tel st baseline =
     (Raise (InvalidIndex BaselineIndex), no_effects, st)).
Proof.
  split.
  - intros freq Hne Hf. unfold transfer_for_frequency, transfer_matrices.
    rewrite np_broadcast_same_length by now rewrite !length_map.
    unfold nbase. rewrite in_range_arange.
    rewrite out_of_range_intro; [reflexivity|].
    exists freq. split; [|exact Hf].
    destruct (baselines tel) as [|b bs]; [congruence|]. now left.
  - intros baseline Hne Hb. unfold transfer_for_baseline, transfer_matrices.
    rewrite np_broadcast_same_length by now rewrite !length_map.
    rewrite out_of_range_intro; [reflexivity|].
    exists baseline. split; [|exact Hb].
    destruct (wavelengths tel) as [|w ws]; [congruence|]. now left.
Qed.

Lemma transfer_for_invalid_argument_witness :
  transfer_for_frequency
    (PolarisedTelescope.variant (fun _ _ => []) (fun _ _ _ _ => []))
    two_feed_telescope 2%Z (-1)%Z =
  (Raise (InvalidIndex FrequencyIndex), no_effects, 2%Z).
Proof.
  apply (transfer_for_invalid_argument
           (PolarisedTelescope.variant (fun _ _ => []) (fun _ _ _ _ => []))
           two_feed_telescope 2%Z).
  - discriminate.
  - unfold nfreq. simpl. lia.
Defined.

(** ** The telescope's bandlimits *)

Lemma fold_left_max_spec l : forall x,
  (x <= fold_left Z.max l x)%Z /\
  Forall (fun y => (y <= fold_left Z.max l x)%Z) l /\
  (fold_left Z.max l x = x \/ In (fold_left Z.max l x) l).
Proof.
  induction l as [|a l IH]; intros x; simpl.
  - split; [lia|]. split; [constructor | now left].
  - destruct (IH (Z.max x a)) as (H1 & H2 & H3). split; [lia|]. split.
    + constructor; [lia | exact H2].
    + destruct H3 as [H3|H3]; [|now right; right].
      rewrite H3. destruct (Z.max_spec x a) as [[_ ->]|[_ ->]]; [right|]; now left.
Qed.

Lemma np_max_spec l m :
  np_max l = Ok m -> In m l /\ Forall (fun y => (y <= m)%Z) l.
Proof.
  destruct l as [|x l]; [discriminate|]. simpl. intros H. injection H as <-.
  destruct (fold_left_max_spec l x) as (H1 & H2 & H3). split.
  - destruct H3 as [->|H3]; [now left | now right].
  - now constructor.
Qed.

Lemma np_max_defined l : l <> [] -> exists m, np_max l = Ok m.
Proof. destruct l; [congruence | intros _; eexists; reflexivity]. Qed.

Lemma map2_repeat {A B D : Type} (f : A -> B -> D) l x :
  map2 f l (repeat x (length l)) = map (fun a => f a x) l.
Proof. induction l as [|a l IH]; simpl; [reflexivity | now rewrite IH]. Qed.

Lemma telescope_lmax_rows tel wl :
  last_item (wavelengths tel) = Ok wl ->
  telescope_lmax tel =
    np_max (map (fun b => lmax_row b wl (u_width tel)) (baselines tel)) /\
  telescope_mmax tel =
    np_max (map (fun b => mmax_row b wl (u_width tel)) (baselines tel)).
Proof.
  intros Hwl. unfold telescope_lmax, telescope_mmax. rewrite Hwl. cbn [bind].
  rewrite max_lm_rows, !map2_repeat. split; reflexivity.
Qed.

Lemma telescope_bandlimits_moderate tel wl :
  last_item (wavelengths tel) = Ok wl ->
  baselines tel <> [] ->
  (forall b, In b (baselines tel) -> moderate b wl (u_width tel)) ->
  exists L M,
    telescope_lmax tel = Ok L /\ telescope_mmax tel = Ok M /\
    (0 <= M <= L)%Z /\
    (forall b, In b (baselines tel) ->
       (lmax_row b wl (u_width tel) <= L)%Z /\
       (mmax_row b wl (u_width tel) <= M)%Z) /\
    (exists b, In b (baselines tel) /\ lmax_row b wl (u_width tel) = L) /\
    (exists b, In b (baselines tel) /\ mmax_row b wl (u_width tel) = M).
Proof.
  intros Hwl Hne Hmod.
  destruct (telescope_lmax_rows tel wl Hwl) as [EL EM].
  destruct (np_max_defined
              (map (fun b => lmax_row b wl (u_width tel)) (baselines tel)))
    as [L HL]; [destruct (baselines tel); [congruence | discriminate]|].
  destruct (np_max_defined
              (map (fun b => mmax_row b wl (u_width tel)) (baselines tel)))
    as [M HM]; [destruct (baselines tel); [congruence | discriminate]|].
  exists L, M. rewrite EL, EM. split; [exact HL|]. split; [exact HM|].
  destruct (np_max_spec _ _ HL) as [HLin HLall].
  destruct (np_max_spec _ _ HM) as [HMin HMall].
  rewrite Forall_forall in HLall, HMall.
  apply in_map_iff in HLin. destruct HLin as (bL & HbL & HinL).
  apply in_map_iff in HMin. destruct HMin as (bM & HbM & HinM).
  assert (Hall : forall b, In b (baselines tel) ->
            (lmax_row b wl (u_width tel) <= L)%Z /\
            (mmax_row b wl (u_width tel) <= M)%Z).
  { intros b Hb. split; [apply HLall | apply HMall]; apply in_map_iff;
      exists b; now split. }
  split; [|split; [exact Hall | split; [now exists bL | now exists bM]]].
  destruct (mmax_row_moderate _ _ _ (Hmod bM HinM)) as [_ [Hm0 _]].
  destruct (lmax_row_moderate _ _ _ (Hmod bM HinM)) as [_ [Hml _]].
  destruct (Hall bM HinM) as [HlL _]. lia.
Qed.

(** X15: The properties [lmax] and [mmax] evaluate [max_lm] at the last
    wavelength.  Without a frequency band they raise [IndexError], without
    a baseline [ValueError]; otherwise, on moderate inputs, they return the
    largest l- and m-bandlimit over the baselines, each attained by some
    baseline, and the m-bandlimit of the telescope is between 0 and its
    l-bandlimit. *)
Theorem telescope_bandlimits tel :
  (wavelengths tel = [] ->
   telescope_lmax tel = Raise IndexError /\ telescope_mmax tel = Raise IndexError) /\
  (wavelengths tel <> [] -> baselines tel = [] ->
   telescope_lmax tel = Raise ValueError /\ telescope_mmax tel = Raise ValueError) /\
  (forall wl,
     last_item (wavelengths tel) = Ok wl ->
     baselines tel <> [] ->
     (forall b, In b (baselines tel) -> moderate b wl (u_width tel)) ->
     exists L M,
       telescope_lmax tel = Ok L /\ telescope_mmax tel = Ok M /\
       (0 <= M <= L)%Z /\
       (forall b, In b (baselines tel) ->
          (lmax_row b wl (u_width tel) <= L)%Z /\
          (mmax_row b wl (u_width tel) <= M)%Z) /\
       (exists b, In b (baselines tel) /\ lmax_row b wl (u_width tel) = L) /\
       (exists b, In b (baselines tel) /\ mmax_row b wl (u_width tel) = M)).
Proof.
  split; [|split].
  - intros H. unfold telescope_lmax, telescope_mmax. rewrite H. split; reflexivity.
  - intros Hw Hb.
    assert (exists wl, last_item (wavelengths tel) = Ok wl) as [wl Hwl].
    { unfold last_item. destruct (rev (wavelengths tel)) eqn:E.
      - apply (f_equal (@rev R)) in E. rewrite rev_involutive in E. now destruct Hw.
      - eexists; reflexivity. }
    destruct (telescope_lmax_rows tel wl Hwl) as [-> ->]. rewrite Hb.
    split; reflexivity.
  - exact (telescope_bandlimits_moderate tel).
Qed.

Lemma telescope_bandlimits_witness :
  exists L M,
    telescope_lmax two_feed_telescope = Ok L /\
    telescope_mmax two_feed_telescope = Ok M /\
    (0 <= M <= L)%Z /\
    (forall b, In b (baselines two_feed_telescope) ->
       (lmax_row b (1 / 2) (u_width two_feed_telescope) <= L)%Z /\
       (mmax_row b (1 / 2) (u_width two_feed_telescope) <= M)%Z) /\
    (exists b, In b (baselines two_feed_telescope) /\
               lmax_row b (1 / 2) (u_width two_feed_telescope) = L) /\
    (exists b, In b (baselines two_feed_telescope) /\
               mmax_row b (1 / 2) (u_width two_feed_telescope) = M).
Proof.
  apply (telescope_bandlimits two_feed_telescope).
  - reflexivity.
  - discriminate.
  - intros b [<-|[]]. exact moderate_example.
Defined.

(** ** The bandlimits against the wavelength *)

Lemma div_le_longer x wl wl' : 0 <= x -> 0 < wl -> wl <= wl' -> x / wl' <= x / wl.
Proof.
  intros Hx Hwl Hle. unfold Rdiv. apply Rmult_le_compat_l; [exact Hx|].
  apply Rinv_le_contravar; assumption.
Qed.

Lemma moderate_longer b wl wl' width :
  moderate b wl width -> wl <= wl' -> moderate b wl' width.
Proof.
  intros (Hwl & Hw & Hu & Hv) Hle. pose proof PI_RGT_0 as Hpi.
  pose proof (Rabs_pos (fst b)) as Hfu. pose proof (Rabs_pos (snd b)) as Hfv.
  repeat split; try lra.
  - apply Rle_trans with (2 := Hu). apply div_le_longer; try assumption.
    apply Rmult_le_pos; lra.
  - apply Rle_trans with (2 := Hv). apply div_le_longer; try assumption.
    apply Rmult_le_pos; lra.
Qed.

(** A longer wavelength never raises a bandlimit. *)
Lemma bandlimits_antitone b wl wl' width :
  moderate b wl width -> wl <= wl' ->
  (0 <= mmax_row b wl' width <= mmax_row b wl width)%Z /\
  (0 <= lmax_row b wl' width <= lmax_row b wl width)%Z.
Proof.
  intros Hm Hle. pose proof (moderate_longer _ _ _ _ Hm Hle) as Hm'.
  destruct Hm as (Hwl & Hw & Hu & Hv) eqn:Em. clear Em.
  pose proof PI_RGT_0 as Hpi.
  pose proof (Rabs_pos (fst b)) as Hfu.
  assert (Hm0 : moderate b wl width) by (repeat split; assumption).
  destruct (mmax_row_moderate _ _ _ Hm0) as [E1 [A1 B1]].
  destruct (mmax_row_moderate _ _ _ Hm') as [E2 [A2 B2]].
  destruct (lmax_row_moderate _ _ _ Hm0) as [F1 [C1 D1]].
  destruct (lmax_row_moderate _ _ _ Hm') as [F2 [C2 D2]].
  assert (Hmm : (mmax_row b wl' width <= mmax_row b wl width)%Z).
  { rewrite E1, E2. unfold full_width_mmax. apply Zceil_le.
    apply div_le_longer; try assumption. apply Rmult_le_pos; lra. }
  split; [lia|]. split; [lia|].
  rewrite F1, F2. unfold stated_lmax. apply Zceil_le. apply sqrt_le_1_alt.
  set (m := mmax_row b wl width) in *. set (m' := mmax_row b wl' width) in *.
  assert (H1 : IZR m' ^ 2 <= IZR m ^ 2).
  { apply IZR_le in A2. apply IZR_le in Hmm. simpl. nra. }
  assert (H2 : (2 * PI * snd b / wl') ^ 2 <= (2 * PI * snd b / wl) ^ 2).
  { unfold Rdiv. rewrite (Rpow_mult_distr _ (/ wl')), (Rpow_mult_distr _ (/ wl)).
    apply Rmult_le_compat_l; [apply pow2_ge_0|].
    assert (Hi : 0 < / wl' <= / wl).
    { split; [apply Rinv_0_lt_compat; lra | apply Rinv_le_contravar; lra]. }
    simpl. nra. }
  lra.
Qed.

Lemma take_nth {A : Type} (d : A) arr indices k :
  (k < length indices)%nat ->
  nth k (take d arr indices) d = nth (Z.to_nat (nth k indices 0%Z)) arr d.
Proof.
  intros Hk. unfold take.
  rewrite (nth_indep _ d (nth (Z.to_nat 0%Z) arr d)) by now rewrite length_map.
  now rewrite (map_nth (fun i => nth (Z.to_nat i) arr d)).
Qed.

Lemma request_lmax_length tel bl f :
  length bl = length f -> length (request_lmax tel bl f) = length bl.
Proof.
  intros H. unfold request_lmax. rewrite max_lm_rows, length_map, map2_length.
  unfold take. rewrite !length_map. lia.
Qed.

Lemma request_lmax_nth tel bl f k :
  length bl = length f -> (k < length bl)%nat ->
  nth k (request_lmax tel bl f) 0%Z =
  wrap64 (lmax_row (nth (Z.to_nat (nth k bl 0%Z)) (baselines tel) (0, 0))
                   (nth (Z.to_nat (nth k f 0%Z)) (wavelengths tel) 0)
                   (u_width tel) * 2).
Proof.
  intros Hlen Hk. unfold request_lmax. rewrite max_lm_rows.
  assert (Hlm : length (map2 (fun b wl => lmax_row b wl (u_width tel))
                          (take (0, 0) (baselines tel) bl)
                          (take 0 (wavelengths tel) f)) = length bl).
  { rewrite map2_length. unfold take. rewrite !length_map. lia. }
  rewrite (nth_indep _ 0%Z (wrap64 (0 * 2))) by now rewrite length_map, Hlm.
  rewrite (map_nth (fun l => wrap64 (l * 2))).
  rewrite (map2_nth _ _ _ _ (0, 0) 0 0%Z)
    by (unfold take; rewrite length_map; lia).
  rewrite !take_nth by lia. reflexivity.
Qed.

Lemma request_lmax_rows tel wl L bl f :
  last_item (wavelengths tel) = Ok wl ->
  (forall w, In w (wavelengths tel) -> wl <= w) ->
  (forall b, In b (baselines tel) -> moderate b wl (u_width tel)) ->
  telescope_lmax tel = Ok L ->
  length bl = length f ->
  out_of_range bl 0 (nbase tel) = false ->
  out_of_range f 0 (nfreq tel) = false ->
  forall k, (k < length bl)%nat ->
    nth k (request_lmax tel bl f) 0%Z =
      (2 * lmax_row (nth (Z.to_nat (nth k bl 0%Z)) (baselines tel) (0, 0)%R)
                    (nth (Z.to_nat (nth k f 0%Z)) (wavelengths tel) 0%R)
                    (u_width tel))%Z /\
    (0 <= nth k (request_lmax tel bl f) 0%Z <= 2 * L)%Z.
Proof.
  intros Hwl Hmin Hmod HL Hlen Hbl Hf k Hk.
  rewrite request_lmax_nth by assumption.
  set (b := nth (Z.to_nat (nth k bl 0%Z)) (baselines tel) (0, 0)).
  set (w := nth (Z.to_nat (nth k f 0%Z)) (wavelengths tel) 0).
  assert (Hb : In b (baselines tel)).
  { apply nth_In.
    pose proof (out_of_range_elim _ _ _ Hbl (nth k bl 0%Z) (nth_In _ _ Hk)) as Hr.
    unfold nbase in Hr. lia. }
  assert (Hw : In w (wavelengths tel)).
  { apply nth_In.
    assert (Hkf : (k < length f)%nat) by lia.
    pose proof (out_of_range_elim _ _ _ Hf (nth k f 0%Z) (nth_In _ _ Hkf)) as Hr.
    unfold nfreq in Hr. lia. }
  destruct (bandlimits_antitone b wl w (u_width tel) (Hmod b Hb) (Hmin w Hw))
    as [_ [Hl0 Hl1]].
  destruct (lmax_row_moderate _ _ _ (Hmod b Hb)) as [_ [_ Hup]].
  destruct (telescope_lmax_rows tel wl Hwl) as [EL _]. rewrite EL in HL.
  destruct (np_max_spec _ _ HL) as [_ Hall]. rewrite Forall_forall in Hall.
  assert (HbL : (lmax_row b wl (u_width tel) <= L)%Z).
  { apply Hall. apply in_map_iff. exists b. now split. }
  rewrite wrap64_small by lia. split; lia.
Qed.

(** X16: When the last wavelength is the shortest one, no requested pair needs
    more than the telescope's bandlimit L: every per-pair bandlimit of a
    valid request is twice the l-bandlimit of its baseline at its
    wavelength, and lies between 0 and 2 L; so does the side length chosen
    without [global_lmax]. *)
Theorem request_lmax_within_twice_global tel wl L bl f :
  last_item (wavelengths tel) = Ok wl ->
  (forall w, In w (wavelengths tel) -> wl <= w) ->
  (forall b, In b (baselines tel) -> moderate b wl (u_width tel)) ->
  telescope_lmax tel = Ok L ->
  length bl = length f ->
  out_of_range bl 0 (nbase tel) = false ->
  out_of_range f 0 (nfreq tel) = false ->
  (forall k, (k < length bl)%nat ->
     nth k (request_lmax tel bl f) 0%Z =
       (2 * lmax_row (nth (Z.to_nat (nth k bl 0%Z)) (baselines tel) (0, 0)%R)
                     (nth (Z.to_nat (nth k f 0%Z)) (wavelengths tel) 0%R)
                     (u_width tel))%Z /\
     (0 <= nth k (request_lmax tel bl f) 0%Z <= 2 * L)%Z) /\
  (forall lside, choose_lside tel (request_lmax tel bl f) false = Ok lside ->
     (0 <= lside <= 2 * L)%Z).
Proof.
  intros Hwl Hmin Hmod HL Hlen Hbl Hf.
  pose proof (request_lmax_rows tel wl L bl f Hwl Hmin Hmod HL Hlen Hbl Hf) as Hrows.
  split; [exact Hrows|].
  intros lside Hs. unfold choose_lside in Hs.
  destruct (np_max_spec _ _ Hs) as [Hin _].
  apply (In_nth _ _ 0%Z) in Hin. destruct Hin as (k & Hk & <-).
  rewrite request_lmax_length in Hk by exact Hlen.
  apply (Hrows k Hk).
Qed.

Lemma request_lmax_within_twice_global_witness :
  exists L,
    (forall k, (k < 1)%nat ->
       nth k (request_lmax two_feed_telescope [0%Z] [0%Z]) 0%Z =
         (2 * lmax_row (nth (Z.to_nat (nth k [0%Z] 0%Z))
                            (baselines two_feed_telescope) (0, 0)%R)
                       (nth (Z.to_nat (nth k [0%Z] 0%Z))
                            (wavelengths two_feed_telescope) 0%R)
                       (u_width two_feed_telescope))%Z /\
       (0 <= nth k (request_lmax two_feed_telescope [0%Z] [0%Z]) 0%Z <= 2 * L)%Z) /\
    (forall lside,
       choose_lside two_feed_telescope
         (request_lmax two_feed_telescope [0%Z] [0%Z]) false = Ok lside ->
       (0 <= lside <= 2 * L)%Z).
Proof.
  destruct two_feed_sides as [_ Ht].
  exists (lmax_row (0, - (1 / 2))%R (1 / 2) 20).
  apply (request_lmax_within_twice_global two_feed_telescope (1 / 2)
           (lmax_row (0, - (1 / 2))%R (1 / 2) 20) [0%Z] [0%Z]).
  - reflexivity.
  - intros w [<-|[]]. lra.
  - intros b [<-|[]]. exact moderate_example.
  - exact Ht.
  - reflexivity.
  - reflexivity.
  - reflexivity.
Defined.

(** ** The loop of [transfer_matrices], one step at a time *)

Lemma transfer_loop_step_ok (V : Variant) bl f lmax lside ind order
  (arr : tarray V) eff (st : vstate V) trans st' arr' :
  _transfer_single V st (nth ind bl 0%Z) (nth ind f 0%Z) (nth ind lmax 0%Z) lside
    = (Ok trans, st') ->
  _copy_single_into_array V arr trans ind = Ok arr' ->
  exists eff',
    transfer_loop V bl f lmax lside (ind :: order) arr eff st =
    transfer_loop V bl f lmax lside order arr' eff' st'.
Proof.
  intros H1 H2. simpl. rewrite H1, H2. eexists. reflexivity.
Qed.

Lemma transfer_loop_step_kernel_raises (V : Variant) bl f lmax lside ind order
  (arr : tarray V) eff (st : vstate V) e st' :
  _transfer_single V st (nth ind bl 0%Z) (nth ind f 0%Z) (nth ind lmax 0%Z) lside
    = (Raise e, st') ->
  outcome (transfer_loop V bl f lmax lside (ind :: order) arr eff st) = Raise e.
Proof.
  intros H1. simpl. rewrite H1. reflexivity.
Qed.

Lemma transfer_loop_step_copy_raises (V : Variant) bl f lmax lside ind order
  (arr : tarray V) eff (st : vstate V) trans st' e :
  _transfer_single V st (nth ind bl 0%Z) (nth ind f 0%Z) (nth ind lmax 0%Z) lside
    = (Ok trans, st') ->
  _copy_single_into_array V arr trans ind = Raise e ->
  outcome (transfer_loop V bl f lmax lside (ind :: order) arr eff st) = Raise e.
Proof.
  intros H1 H2. simpl. rewrite H1, H2. reflexivity.
Qed.

Lemma Forall_list_set {A : Type} (P : A -> Prop) l i v :
  Forall P l -> P v -> Forall P (list_set l i v).
Proof.
  intros Hl Hv. revert i. induction Hl as [|x l Hx Hl IH]; intros [|i]; simpl;
    constructor; auto.
Qed.

Lemma nth_list_set_same {A : Type} (l : list A) i v d :
  (i < length l)%nat -> nth i (list_set l i v) d = v.
Proof.
  intros H. apply nth_error_nth. now apply list_set_same.
Qed.

Lemma nth_list_set_other {A : Type} (l : list A) i j v d :
  i <> j -> nth j (list_set l i v) d = nth j l d.
Proof.
  intros H. pose proof (list_set_other l i j v H) as E.
  destruct (nth_error l j) as [x|] eqn:Ex.
  - rewrite (nth_error_nth _ _ d E). symmetry. now apply nth_error_nth.
  - apply nth_error_None in E. apply nth_error_None in Ex.
    now rewrite !nth_overflow.
Qed.

(** ** The unpolarised variant inside [transfer_matrices] *)

Section UnpolarisedRequests.

Variable map2alm : list R -> Z -> list complex.
Variable cvis : Z -> Z -> Z -> list complex.

Local Abbreviation V := (UnpolarisedTelescope.variant map2alm cvis).

Lemma unpolarised_buffer shape lside :
  (0 <= lside)%Z ->
  exists arr,
    UnpolarisedTelescope._make_matrix_array shape lside = Ok arr /\
    length arr = shape /\ blocks_of_side lside arr.
Proof.
  intros H. unfold UnpolarisedTelescope._make_matrix_array, np_zeros2.
  assert ((lside + 1 <? 0)%Z = false) as -> by (apply Z.ltb_ge; lia).
  assert ((2 * lside + 1 <? 0)%Z = false) as -> by (apply Z.ltb_ge; lia).
  cbn [orb bind]. eexists. split; [reflexivity|]. split; [apply repeat_length|].
  unfold blocks_of_side. apply Forall_forall. intros blk Hin.
  apply repeat_spec in Hin. subst blk. apply zeros_shape. lia.
Qed.

Lemma unpolarised_kernel nside bl f lmax lside :
  (0 <= lmax)%Z ->
  exists n,
    nside_for_lmax lmax 1 = Ok n /\
    UnpolarisedTelescope._transfer_single map2alm cvis nside bl f lmax lside =
    (sphtrans_complex map2alm (cvis n bl f) lmax false lside, n).
Proof.
  intros H. destruct (nside_for_lmax_defined lmax 1) as [n Hn]; [lia|].
  exists n. split; [exact Hn|].
  unfold UnpolarisedTelescope._transfer_single.
  now rewrite refresh_grid_value, Hn.
Qed.

Lemma unpolarised_copy_fits arr blk ind lside :
  blocks_of_side lside arr -> (ind < length arr)%nat ->
  shape0 blk = Z.to_nat (lside + 1) -> shape1 blk = Z.to_nat (2 * lside + 1) ->
  UnpolarisedTelescope._copy_single_into_array arr blk ind =
    Ok (list_set arr ind blk).
Proof.
  intros Harr Hind H0 H1. unfold UnpolarisedTelescope._copy_single_into_array, item.
  destruct (nth_error arr ind) as [dst|] eqn:E;
    [|apply nth_error_None in E; lia].
  cbn [bind]. unfold blocks_of_side in Harr. rewrite Forall_forall in Harr.
  destruct (Harr dst (nth_error_In _ _ E)) as [D0 D1].
  rewrite assign_block_same_shape by congruence. reflexivity.
Qed.

Lemma unpolarised_copy_misfit arr blk ind lside s :
  blocks_of_side lside arr -> (0 <= lside < s)%Z ->
  shape0 blk = Z.to_nat (s + 1) -> shape1 blk = Z.to_nat (2 * s + 1) ->
  exists e, UnpolarisedTelescope._copy_single_into_array arr blk ind = Raise e.
Proof.
  intros Harr Hs H0 H1. unfold UnpolarisedTelescope._copy_single_into_array, item.
  destruct (nth_error arr ind) as [dst|] eqn:E; [|now exists IndexError].
  cbn [bind]. unfold blocks_of_side in Harr. rewrite Forall_forall in Harr.
  destruct (Harr dst (nth_error_In _ _ E)) as [D0 D1].
  unfold assign_block. rewrite H0, H1, D0, D1.
  assert ((Z.to_nat (s + 1) =? Z.to_nat (lside + 1))%nat = false) as ->
    by (apply Nat.eqb_neq; lia).
  assert ((Z.to_nat (s + 1) =? 1)%nat = false) as ->
    by (apply Nat.eqb_neq; lia).
  cbn [andb orb bind]. now exists ValueError.
Qed.

Lemma unpolarised_loop_returns bl f lmax lside order :
  packed_output map2alm -> (0 <= lside)%Z -> NoDup order ->
  forall arr eff st,
    blocks_of_side lside arr ->
    (forall i, In i order ->
       (i < length arr)%nat /\ (0 <= nth i lmax 0 <= lside)%Z) ->
    exists arr',
      outcome (transfer_loop V bl f lmax lside order arr eff st) = Ok arr' /\
      length arr' = length arr /\ blocks_of_side lside arr' /\
      (forall i, In i order ->
         unpolarised_block map2alm cvis bl f lmax lside i = Ok (nth i arr' [])) /\
      (forall i, ~ In i order -> nth i arr' [] = nth i arr []).
Proof.
  intros Hpack Hside. induction order as [|ind order IH];
    intros Hnd arr eff st Harr Hord.
  - exists arr. simpl. repeat split; auto. intros i [].
  - inversion Hnd as [|? ? Hnotin Hnd']; subst.
    destruct (Hord ind (or_introl eq_refl)) as [Hind Hl].
    destruct (unpolarised_kernel st (nth ind bl 0%Z) (nth ind f 0%Z)
                (nth ind lmax 0%Z) lside) as (n & Hn & Hker); [lia|].
    destruct (sphtrans_complex_entries map2alm
                (cvis n (nth ind bl 0%Z) (nth ind f 0%Z)) (nth ind lmax 0%Z) lside)
      as (blk & Hblk & B0 & B1 & _); [lia | apply Hpack; lia | apply Hpack; lia|].
    replace (Z.max lside (nth ind lmax 0%Z)) with lside in B0, B1 by lia.
    assert (B1' : shape1 blk = Z.to_nat (2 * lside + 1)) by lia.
    rewrite Hblk in Hker.
    pose proof (unpolarised_copy_fits arr blk ind lside Harr Hind B0 B1') as Hcopy.
    destruct (transfer_loop_step_ok V bl f lmax lside ind order arr eff st
                blk n (list_set arr ind blk) Hker Hcopy) as [eff' Hstep].
    rewrite Hstep.
    destruct (IH Hnd' (list_set arr ind blk) eff' n) as (arr' & Ho & Hlen & Hsh & Hin & Hout).
    + apply Forall_list_set; [exact Harr | now split].
    + intros i Hi. rewrite list_set_length. apply Hord. now right.
    + exists arr'. split; [exact Ho|]. rewrite list_set_length in Hlen.
      split; [exact Hlen|]. split; [exact Hsh|]. split.
      * intros i [<-|Hi]; [|now apply Hin].
        rewrite (Hout ind Hnotin), nth_list_set_same by exact Hind.
        unfold unpolarised_block. rewrite Hn. cbn [bind]. exact Hblk.
      * intros i Hi. rewrite Hout by (intros H; apply Hi; now right).
        apply nth_list_set_other. intros ->. apply Hi. now left.
Qed.

Lemma unpolarised_loop_raises bl f lmax lside order :
  (0 <= lside)%Z ->
  (forall i, In i order -> (0 <= nth i lmax 0)%Z) ->
  (exists i, In i order /\ (lside < nth i lmax 0)%Z) ->
  forall arr eff st,
    blocks_of_side lside arr ->
    exists e, outcome (transfer_loop V bl f lmax lside order arr eff st) = Raise e.
Proof.
  intros Hside. induction order as [|ind order IH];
    intros Hpos (k & Hk & Hbig) arr eff st Harr; [destruct Hk|].
  destruct (unpolarised_kernel st (nth ind bl 0%Z) (nth ind f 0%Z)
              (nth ind lmax 0%Z) lside) as (n & Hn & Hker);
    [apply Hpos; now left|].
  destruct (sphtrans_complex map2alm (cvis n (nth ind bl 0%Z) (nth ind f 0%Z))
              (nth ind lmax 0%Z) false lside) as [blk|e] eqn:Hblk.
  2:{ exists e.
      apply (transfer_loop_step_kernel_raises V bl f lmax lside ind order arr eff st
               e n Hker). }
  destruct (sphtrans_complex_shape _ _ _ _ _ (Hpos ind (or_introl eq_refl)) Hblk)
    as [B0 B1].
  destruct (Z.le_gt_cases (nth ind lmax 0%Z) lside) as [Hfit|Hmis].
  - replace (Z.max lside (nth ind lmax 0%Z)) with lside in B0, B1 by lia.
    assert (B1' : shape1 blk = Z.to_nat (2 * lside + 1)) by lia.
    destruct (Nat.lt_ge_cases ind (length arr)) as [Hind|Hind].
    + pose proof (unpolarised_copy_fits arr blk ind lside Harr Hind B0 B1') as Hcopy.
      destruct (transfer_loop_step_ok V bl f lmax lside ind order arr eff st
                  blk n (list_set arr ind blk) Hker Hcopy) as [eff' Hstep].
      rewrite Hstep. apply IH.
      * intros i Hi. apply Hpos. now right.
      * exists k. split; [|exact Hbig]. destruct Hk as [->|Hk]; [lia | exact Hk].
      * apply Forall_list_set; [exact Harr | now split].
    + exists IndexError.
      apply (transfer_loop_step_copy_raises V bl f lmax lside ind order arr eff st
               blk n IndexError Hker).
      cbn [_copy_single_into_array UnpolarisedTelescope.variant].
      unfold UnpolarisedTelescope._copy_single_into_array, item.
      apply nth_error_None in Hind. now rewrite Hind.
  - replace (Z.max lside (nth ind lmax 0%Z)) with (nth ind lmax 0%Z) in B0, B1 by lia.
    assert (B1' : shape1 blk = Z.to_nat (2 * nth ind lmax 0%Z + 1)) by lia.
    destruct (unpolarised_copy_misfit arr blk ind lside (nth ind lmax 0%Z)
                Harr (conj Hside Hmis) B0 B1') as [e He].
    exists e.
    apply (transfer_loop_step_copy_raises V bl f lmax lside ind order arr eff st
             blk n e Hker He).
Qed.

Lemma unpolarised_request_outcome tel nside bl f global_lmax lside :
  length bl = length f ->
  out_of_range bl 0 (nbase tel) = false ->
  out_of_range f 0 (nfreq tel) = false ->
  choose_lside tel (request_lmax tel bl f) global_lmax = Ok lside ->
  (0 <= lside)%Z ->
  (forall k, (k < length bl)%nat -> (0 <= nth k (request_lmax tel bl f) 0)%Z) ->
  (packed_output map2alm ->
   (forall k, (k < length bl)%nat -> (nth k (request_lmax tel bl f) 0 <= lside)%Z) ->
   exists arr,
     outcome (transfer_matrices V tel nside bl f global_lmax) = Ok arr /\
     length arr = length bl /\ blocks_of_side lside arr /\
     forall k, (k < length bl)%nat ->
       unpolarised_block map2alm cvis bl f (request_lmax tel bl f) lside k
       = Ok (nth k arr [])) /\
  ((exists k, (k < length bl)%nat /\ (lside < nth k (request_lmax tel bl f) 0)%Z) ->
   exists e, outcome (transfer_matrices V tel nside bl f global_lmax) = Raise e).
Proof.
  intros Hlen Hbl Hf Hside Hs0 Hpos.
  assert (Hstart : exists arr0 eff0,
            length arr0 = length bl /\ blocks_of_side lside arr0 /\
            transfer_matrices V tel nside bl f global_lmax =
            transfer_loop V bl f (request_lmax tel bl f) lside
              (np_argsort (request_lmax tel bl f)) arr0 eff0 nside).
  { destruct (unpolarised_buffer (length bl) lside Hs0) as (arr0 & Ha & Hl0 & Hsh).
    exists arr0. eexists. split; [exact Hl0|]. split; [exact Hsh|].
    unfold transfer_matrices. rewrite (np_broadcast_same_length _ _ Hlen).
    rewrite Hbl, Hf, Hside.
    cbn [_make_matrix_array UnpolarisedTelescope.variant]. rewrite Ha.
    reflexivity. }
  destruct Hstart as (arr0 & eff0 & Hl0 & Hsh & ->).
  pose proof (np_argsort_perm (request_lmax tel bl f)) as Hperm.
  rewrite request_lmax_length in Hperm by exact Hlen.
  assert (Hmem : forall i, In i (np_argsort (request_lmax tel bl f)) <->
                           (i < length bl)%nat).
  { intros i. split; intros H.
    - apply (Permutation_in _ Hperm) in H. apply in_seq in H. lia.
    - apply (Permutation_in _ (Permutation_sym Hperm)). apply in_seq. lia. }
  split.
  - intros Hpack Hfit.
    destruct (unpolarised_loop_returns bl f (request_lmax tel bl f) lside
                (np_argsort (request_lmax tel bl f)) Hpack Hs0) with
      (arr := arr0) (eff := eff0) (st := nside)
      as (arr & Ho & Hl & Hsh' & Hin & _).
    + apply (Permutation_NoDup (Permutation_sym Hperm)). apply seq_NoDup.
    + exact Hsh.
    + intros i Hi. apply Hmem in Hi. rewrite Hl0. split; [exact Hi|].
      split; [now apply Hpos | now apply Hfit].
    + exists arr. split; [exact Ho|]. split; [congruence|]. split; [exact Hsh'|].
      intros k Hk. apply Hin. now apply Hmem.
  - intros (k & Hk & Hbig).
    apply unpolarised_loop_raises; try assumption.
    + intros i Hi. apply Hpos. now apply Hmem.
    + exists k. split; [now apply Hmem | exact Hbig].
Qed.

End UnpolarisedRequests.

Lemma zero_coefficients_packed : packed_output zero_coefficients.
Proof.
  intros hpmap lmax Hl. unfold zero_coefficients. rewrite repeat_length.
  assert (He : exists q, ((lmax + 1) * (lmax + 2) = q * 2)%Z).
  { destruct (Z.Even_or_Odd lmax) as [[k ->]|[k ->]].
    - exists ((2 * k + 1) * (k + 1))%Z. ring.
    - exists ((k + 1) * (2 * k + 1 + 2))%Z. ring. }
  destruct He as [q Hq]. rewrite Hq, Z.div_mul by lia.
  assert (0 <= q)%Z by nia. lia.
Qed.

(** X17: For the unpolarised variant and a valid request whose per-pair
    bandlimits are not negative, the side length decides the outcome of
    [transfer_matrices]: when every per-pair bandlimit is within the side
    length (and [healpy.map2alm] returns packed coefficients) the call
    returns a buffer with one block of shape (lside+1, 2 lside+1) per
    requested pair, the block at position k being the transform of the
    pair's visibility on the grid of the pair's bandlimit; when some
    per-pair bandlimit exceeds the side length the call raises. *)
Theorem unpolarised_request_fits_or_raises map2alm cvis tel nside bl f
  global_lmax lside :
  length bl = length f ->
  out_of_range bl 0 (nbase tel) = false ->
  out_of_range f 0 (nfreq tel) = false ->
  choose_lside tel (request_lmax tel bl f) global_lmax = Ok lside ->
  (0 <= lside)%Z ->
  (forall k, (k < length bl)%nat -> (0 <= nth k (request_lmax tel bl f) 0)%Z) ->
  (packed_output map2alm ->
   (forall k, (k < length bl)%nat -> (nth k (request_lmax tel bl f) 0 <= lside)%Z) ->
   exists arr,
     outcome (transfer_matrices (UnpolarisedTelescope.variant map2alm cvis)
                tel nside bl f global_lmax) = Ok arr /\
     length arr = length bl /\ blocks_of_side lside arr /\
     forall k, (k < length bl)%nat ->
       unpolarised_block map2alm cvis bl f (request_lmax tel bl f) lside k
       = Ok (nth k arr [])) /\
  ((exists k, (k < length bl)%nat /\ (lside < nth k (request_lmax tel bl f) 0)%Z) ->
   exists e,
     outcome (transfer_matrices (UnpolarisedTelescope.variant map2alm cvis)
                tel nside bl f global_lmax) = Raise e).
Proof. exact (unpolarised_request_outcome map2alm cvis tel nside bl f global_lmax lside). Qed.

Lemma two_feed_request_nonneg k :
  (k < 1)%nat -> (0 <= nth k (request_lmax two_feed_telescope [0%Z] [0%Z]) 0)%Z.
Proof.
  destruct two_feed_sides as [Hr _]. pose proof two_feed_lmax_row as [H0 _].
  intros Hk. rewrite Hr. destruct k; [cbn [nth]; lia | lia].
Qed.

Lemma unpolarised_request_fits_or_raises_witness :
  (packed_output zero_coefficients ->
   (forall k, (k < length [0%Z])%nat ->
      (nth k (request_lmax two_feed_telescope [0%Z] [0%Z]) 0
       <= 2 * lmax_row (0, - (1 / 2))%R (1 / 2) 20)%Z) ->
   exists arr,
     outcome (transfer_matrices
                (UnpolarisedTelescope.variant zero_coefficients (fun _ _ _ => []))
                two_feed_telescope 2%Z [0%Z] [0%Z] false) = Ok arr /\
     length arr = length [0%Z] /\
     blocks_of_side (2 * lmax_row (0, - (1 / 2))%R (1 / 2) 20) arr /\
     forall k, (k < length [0%Z])%nat ->
       unpolarised_block zero_coefficients (fun _ _ _ => []) [0%Z] [0%Z]
         (request_lmax two_feed_telescope [0%Z] [0%Z])
         (2 * lmax_row (0, - (1 / 2))%R (1 / 2) 20) k
       = Ok (nth k arr [])) /\
  ((exists k, (k < length [0%Z])%nat /\
      (2 * lmax_row (0, - (1 / 2))%R (1 / 2) 20
       < nth k (request_lmax two_feed_telescope [0%Z] [0%Z]) 0)%Z) ->
   exists e,
     outcome (transfer_matrices
                (UnpolarisedTelescope.variant zero_coefficients (fun _ _ _ => []))
                two_feed_telescope 2%Z [0%Z] [0%Z] false) = Raise e).
Proof.
  destruct two_feed_sides as [Hr _]. pose proof two_feed_lmax_row as [H0 _].
  apply (unpolarised_request_fits_or_raises zero_coefficients (fun _ _ _ => [])
           two_feed_telescope 2%Z [0%Z] [0%Z] false
           (2 * lmax_row (0, - (1 / 2))%R (1 / 2) 20)).
  - reflexivity.
  - reflexivity.
  - reflexivity.
  - unfold choose_lside. rewrite Hr. reflexivity.
  - lia.
  - exact two_feed_request_nonneg.
Defined.

(** X18: Without [global_lmax] the side length is the largest per-pair
    bandlimit, so every block fits: for the unpolarised variant, a valid
    non-empty request with non-negative per-pair bandlimits always returns,
    and position k of the result holds the transform of the k-th pair. *)
Theorem unpolarised_local_request_returns map2alm cvis tel nside bl f :
  packed_output map2alm ->
  bl <> [] ->
  length bl = length f ->
  out_of_range bl 0 (nbase tel) = false ->
  out_of_range f 0 (nfreq tel) = false ->
  (forall k, (k < length bl)%nat -> (0 <= nth k (request_lmax tel bl f) 0)%Z) ->
  exists lside arr,
    np_max (request_lmax tel bl f) = Ok lside /\
    outcome (transfer_matrices (UnpolarisedTelescope.variant map2alm cvis)
               tel nside bl f false) = Ok arr /\
    length arr = length bl /\ blocks_of_side lside arr /\
    forall k, (k < length bl)%nat ->
      unpolarised_block map2alm cvis bl f (request_lmax tel bl f) lside k
      = Ok (nth k arr []).
Proof.
  intros Hpack Hne Hlen Hbl Hf Hpos.
  destruct (np_max_defined (request_lmax tel bl f)) as [lside Hs].
  { intros E. apply (f_equal (@length Z)) in E.
    rewrite request_lmax_length in E by exact Hlen.
    destruct bl; [congruence | discriminate]. }
  destruct (np_max_spec _ _ Hs) as [Hin Hall]. rewrite Forall_forall in Hall.
  assert (H0 : (0 <= lside)%Z).
  { apply (In_nth _ _ 0%Z) in Hin. destruct Hin as (k & Hk & <-).
    rewrite request_lmax_length in Hk by exact Hlen. now apply Hpos. }
  destruct (unpolarised_request_outcome map2alm cvis tel nside bl f false lside
              Hlen Hbl Hf Hs H0 Hpos) as [Hret _].
  destruct Hret as (arr & Ho & Hl & Hsh & Hblk); [exact Hpack | |].
  - intros k Hk. apply Hall. apply nth_In.
    now rewrite request_lmax_length by exact Hlen.
  - exists lside, arr. repeat split; assumption.
Qed.

Lemma unpolarised_local_request_returns_witness :
  exists lside arr,
    np_max (request_lmax two_feed_telescope [0%Z] [0%Z]) = Ok lside /\
    outcome (transfer_matrices
               (UnpolarisedTelescope.variant zero_coefficients (fun _ _ _ => []))
               two_feed_telescope 2%Z [0%Z] [0%Z] false) = Ok arr /\
    length arr = length [0%Z] /\ blocks_of_side lside arr /\
    forall k, (k < length [0%Z])%nat ->
      unpolarised_block zero_coefficients (fun _ _ _ => []) [0%Z] [0%Z]
        (request_lmax two_feed_telescope [0%Z] [0%Z]) lside k
      = Ok (nth k arr []).
Proof.
  apply (unpolarised_local_request_returns zero_coefficients (fun _ _ _ => [])
           two_feed_telescope 2%Z [0%Z] [0%Z]).
  - exact zero_coefficients_packed.
  - discriminate.
  - reflexivity.
  - reflexivity.
  - reflexivity.
  - exact two_feed_request_nonneg.
Defined.

(** ** [transfer_for_frequency] at the last frequency *)

Lemma last_item_nth {A : Type} (l : list A) x d :
  last_item l = Ok x -> l <> [] /\ nth (length l - 1) l d = x.
Proof.
  unfold last_item. destruct (rev l) as [|y r] eqn:E; [discriminate|].
  intros H. injection H as ->.
  apply (f_equal (@rev A)) in E. rewrite rev_involutive in E. simpl in E. subst l.
  split; [intros H; apply (f_equal (@length A)) in H;
          rewrite length_app in H; simpl in H; lia|].
  rewrite length_app. simpl.
  replace (length (rev r) + 1 - 1)%nat with (length (rev r) + 0)%nat by lia.
  now rewrite app_nth2_plus.
Qed.

Lemma nth_arange n k : (k < n)%nat -> nth k (map Z.of_nat (seq 0 n)) 0%Z = Z.of_nat k.
Proof.
  intros H. rewrite (nth_map_lt _ _ _ _ 0%nat) by now rewrite length_seq.
  now rewrite seq_nth.
Qed.

(** X19: With [global_lmax] (the default, and what [transfer_for_frequency]
    passes) the buffer has the side of the telescope's bandlimit L, while
    the kernel is asked for twice the bandlimit of each pair.  At the last
    frequency some baseline attains L, so for an unpolarised telescope of
    positive width [transfer_for_frequency] raises there: the block of that
    baseline, of side 2 L, does not fit the buffer. *)
Theorem transfer_for_last_frequency_raises map2alm cvis tel nside wl :
  last_item (wavelengths tel) = Ok wl ->
  baselines tel <> [] ->
  0 < u_width tel ->
  (forall b, In b (baselines tel) -> moderate b wl (u_width tel)) ->
  exists e,
    outcome (transfer_for_frequency (UnpolarisedTelescope.variant map2alm cvis)
               tel nside (nfreq tel - 1)) = Raise e.
Proof.
  intros Hwl Hne Hw Hmod.
  destruct (telescope_bandlimits_moderate tel wl Hwl Hne Hmod)
    as (L & M & HL & HM & HML & Hall & (bL & HbL & EL) & (bM & HbM & EM)).
  destruct (last_item_nth _ _ 0 Hwl) as [Hwne Hlast].
  assert (HM1 : (1 <= M)%Z).
  { destruct (mmax_row_moderate _ _ _ (Hmod bM HbM)) as [E _].
    rewrite <- EM, E. unfold full_width_mmax.
    assert (0 < Zceil (2 * PI * (Rabs (fst bM) + u_width tel) / wl))%Z; [|lia].
    apply Zceil_lower. destruct (Hmod bM HbM) as (Hwl0 & _).
    pose proof PI_RGT_0. pose proof (Rabs_pos (fst bM)).
    apply Rdiv_lt_0_compat; [|exact Hwl0]. apply Rmult_lt_0_compat; lra. }
  unfold transfer_for_frequency.
  set (n := length (baselines tel)).
  set (bl := map Z.of_nat (seq 0 n)).
  set (f := map (fun _ : Z => (nfreq tel - 1)%Z) bl).
  assert (Hlbl : length bl = n) by (unfold bl; now rewrite length_map, length_seq).
  assert (Hlen : length bl = length f) by (unfold f; now rewrite length_map).
  assert (Hnf : (1 <= nfreq tel)%Z).
  { unfold nfreq. destruct (wavelengths tel); [congruence | simpl; lia]. }
  assert (Hentry : forall k, (k < length bl)%nat ->
            nth k (request_lmax tel bl f) 0%Z =
            (2 * lmax_row (nth k (baselines tel) (0, 0)%R) wl (u_width tel))%Z /\
            (0 <= lmax_row (nth k (baselines tel) (0, 0)%R) wl (u_width tel))%Z).
  { intros k Hk. rewrite request_lmax_nth by assumption.
    unfold bl at 1. rewrite nth_arange by lia. rewrite Nat2Z.id.
    unfold f. rewrite (nth_map_lt _ _ _ _ 0%Z) by exact Hk.
    replace (Z.to_nat (nfreq tel - 1)) with (length (wavelengths tel) - 1)%nat
      by (unfold nfreq; lia).
    rewrite Hlast.
    assert (Hin : In (nth k (baselines tel) (0, 0)) (baselines tel))
      by (apply nth_In; fold n; lia).
    destruct (lmax_row_moderate _ _ _ (Hmod _ Hin)) as [_ [Hlo Hhi]].
    destruct (mmax_row_moderate _ _ _ (Hmod _ Hin)) as [_ [Hm0 _]].
    rewrite wrap64_small by lia. split; lia. }
  destruct (unpolarised_request_outcome map2alm cvis tel nside bl f true L)
    as [_ Hraise].
  - exact Hlen.
  - unfold bl, n, nbase. apply in_range_arange.
  - apply negb_false_iff. unfold in_range. apply andb_true_iff.
    split; apply forallb_forall; intros x Hx; unfold f in Hx;
      apply in_map_iff in Hx; destruct Hx as (y & <- & _).
    + apply Z.leb_le. lia.
    + apply Z.ltb_lt. lia.
  - exact HL.
  - lia.
  - intros k Hk. destruct (Hentry k Hk) as [-> H0]. lia.
  - apply Hraise. apply (In_nth _ _ (0, 0)) in HbL.
    destruct HbL as (k & Hk & Ek). exists k.
    assert (Hk' : (k < length bl)%nat) by (rewrite Hlbl; exact Hk).
    split; [exact Hk'|]. destruct (Hentry k Hk') as [-> _].
    assert (E : lmax_row (nth k (baselines tel) (0, 0)) wl (u_width tel) = L)
      by (rewrite <- EL; f_equal; exact Ek).
    rewrite E. lia.
Qed.

Lemma transfer_for_last_frequency_raises_witness :
  exists e,
    outcome (transfer_for_frequency
               (UnpolarisedTelescope.variant zero_coefficients (fun _ _ _ => []))
               two_feed_telescope 2%Z (nfreq two_feed_telescope - 1)) = Raise e.
Proof.
  apply (transfer_for_last_frequency_raises zero_coefficients (fun _ _ _ => [])
           two_feed_telescope 2%Z (1 / 2)).
  - reflexivity.
  - discriminate.
  - simpl. lra.
  - intros b [<-|[]]. exact moderate_example.
Defined.

(** ** [calculate_baselines]: the order of the table *)

Lemma uniq_from_sorted prev l :
  StronglySorted complex_le l -> StronglySorted complex_le (uniq_from prev l).
Proof.
  intros Hs. revert prev. induction Hs as [|y l Hs IH Hall]; intros prev; simpl.
  - constructor.
  - destruct (complex_eqb y prev); [apply IH|].
    constructor; [apply IH|]. rewrite Forall_forall in *.
    intros x Hx. apply Hall. now apply uniq_from_incl in Hx.
Qed.

Lemma uniq_sorted_sorted l :
  StronglySorted complex_le l -> StronglySorted complex_le (uniq_sorted l).
Proof.
  intros Hs. destruct l as [|y l]; simpl; [constructor|].
  inversion Hs as [|? ? Hs' Hall]; subst.
  constructor; [now apply uniq_from_sorted|]. rewrite Forall_forall in *.
  intros x Hx. apply Hall. now apply uniq_from_incl in Hx.
Qed.

Lemma StronglySorted_nth {A : Type} (R : A -> A -> Prop) l d :
  StronglySorted R l ->
  forall k k', (k < k' < length l)%nat -> R (nth k l d) (nth k' l d).
Proof.
  induction 1 as [|x l Hs IH Hall]; intros k k' Hk; simpl in *; [lia|].
  destruct k' as [|k']; [lia|]. destruct k as [|k].
  - rewrite Forall_forall in Hall. apply Hall. apply nth_In. lia.
  - apply IH. lia.
Qed.

Lemma get_unique_pairs pos fpairs :
  Forall (fun p => In p fpairs) (fst (CylinderTelescope._get_unique pos fpairs)).
Proof.
  unfold CylinderTelescope._get_unique, np_unique. cbn [fst].
  set (bl1 := map_half_plane (separations pos fpairs)).
  assert (Hlen : length bl1 = length fpairs).
  { unfold bl1, separations. now rewrite map_half_plane_length, length_map. }
  apply Forall_forall. intros p Hp.
  apply in_map_iff in Hp as (i & <- & Hi).
  apply in_map_iff in Hi as (u & <- & Hu).
  rewrite uniq_sorted_in in Hu.
  apply (Permutation_in _ (sort_by_perm complex_leb bl1)) in Hu.
  destruct (index_of_in u bl1 (0, 0) Hu) as [Hlt _].
  apply nth_In. rewrite <- Hlen. exact Hlt.
Qed.

(** X20: The table of [calculate_baselines] is ordered: the half-plane
    representatives of the unique baselines come out in the order numpy
    sorts complex numbers (by u, then by v) and no two of them are equal;
    every baseline stands for at least one feed pair; and every recorded
    feed pair (i, j) is a pair of distinct feeds of the telescope with
    i < j. *)
Theorem calculate_baselines_sorted feedpositions :
  let t := calculate_baselines feedpositions in
  (forall k k', (k < k' < length (_baselines t))%nat ->
     complex_le (half_plane_row (nth k (_baselines t) (0, 0)))
                (half_plane_row (nth k' (_baselines t) (0, 0))) /\
     half_plane_row (nth k (_baselines t) (0, 0)) <>
     half_plane_row (nth k' (_baselines t) (0, 0))) /\
  Forall (fun r => (1 <= r)%nat) (_redundancy t) /\
  Forall (fun p => (fst p < snd p < length feedpositions)%nat) (_feedpairs t).
Proof.
  cbn zeta. unfold calculate_baselines.
  set (fpairs := triu_indices (length feedpositions) 1).
  pose proof (get_unique_facts feedpositions fpairs) as H. cbn zeta in H.
  pose proof (get_unique_pairs feedpositions fpairs) as Hpairs.
  destruct (CylinderTelescope._get_unique feedpositions fpairs) as [upairs red].
  cbn [fst snd] in H, Hpairs. cbn [_baselines _redundancy _feedpairs].
  set (bl1 := map (canonical feedpositions) fpairs) in *.
  set (ub := uniq_sorted (sort_by complex_leb bl1)) in *.
  destruct H as (Hnd & Hin & Hlu & Hlr & Hsum & Hcan & Hred).
  assert (Hlb : length (separations feedpositions upairs) = length ub)
    by (unfold separations; now rewrite length_map).
  assert (Hrow : forall k, (k < length ub)%nat ->
            half_plane_row (nth k (separations feedpositions upairs) (0, 0)) =
            nth k ub (0, 0)).
  { intros k Hk. rewrite <- (Hcan k Hk). unfold separations, canonical.
    now rewrite (nth_map_lt _ _ _ _ (0, 0)%nat) by (rewrite Hlu; exact Hk). }
  assert (Hsorted : StronglySorted complex_le ub)
    by apply uniq_sorted_sorted, sort_complex_sorted.
  rewrite Hlb. split; [|split].
  - intros k k' Hk. rewrite !Hrow by lia. split.
    + now apply StronglySorted_nth.
    + intros E. apply (NoDup_nth ub (0, 0)) in E; try assumption; lia.
  - apply Forall_forall. intros r Hr.
    apply (In_nth _ _ 0%nat) in Hr. destruct Hr as (k & Hk & <-).
    rewrite Hlr in Hk. rewrite (Hred k Hk).
    assert (Hu : In (nth k ub (0, 0)) bl1) by (apply Hin; now apply nth_In).
    apply in_map_iff in Hu. destruct Hu as (p & Hp & Hpin).
    assert (Hf : In p (filter (fun p => complex_eqb (canonical feedpositions p)
                                                    (nth k ub (0, 0))) fpairs)).
    { apply filter_In. split; [exact Hpin|]. now apply complex_eqb_eq. }
    destruct (filter _ fpairs); [destruct Hf | simpl; lia].
  - revert Hpairs. apply Forall_impl. intros [i j] Hp.
    apply in_triu_indices in Hp. simpl. lia.
Qed.

(** ** [CylinderTelescope.feedpositions] *)

Lemma feed_positions_list_in_range cyl indices :
  (0 <= num_feeds cyl)%Z ->
  Forall (fun i => (0 <= i < num_cylinders cyl)%Z) indices ->
  feed_positions_list cyl indices =
  inr (map (fun i => map (fun k => (IZR i * cylinder_width cyl,
                                    IZR (Z.of_nat k) * feed_spacing cyl))
                         (seq 0 (Z.to_nat (num_feeds cyl)))) indices).
Proof.
  intros Hf. induction 1 as [|i indices Hi Hall IH]; simpl; [reflexivity|].
  unfold feed_positions_cylinder.
  assert ((i >=? num_cylinders cyl)%Z = false) as -> by (rewrite Z.geb_leb; apply Z.leb_gt; lia).
  assert ((i <? 0)%Z = false) as -> by (apply Z.ltb_ge; lia).
  assert ((num_feeds cyl <? 0)%Z = false) as -> by (apply Z.ltb_ge; lia).
  cbn [orb]. now rewrite IH.
Qed.

Lemma flat_map_length_const {A B : Type} (f : A -> list B) l c :
  (forall x, In x l -> length (f x) = c) ->
  length (flat_map f l) = (length l * c)%nat.
Proof.
  intros H. induction l as [|x l IH]; simpl; [reflexivity|].
  rewrite length_app, H by now left. rewrite IH; [reflexivity|].
  intros y Hy. apply H. now right.
Qed.

Lemma feedpositions_grid cyl :
  (1 <= num_cylinders cyl)%Z -> (0 <= num_feeds cyl)%Z ->
  exists pos,
    feedpositions cyl = Positions pos /\
    length pos = (Z.to_nat (num_cylinders cyl) * Z.to_nat (num_feeds cyl))%nat /\
    forall c k, (c < Z.to_nat (num_cylinders cyl))%nat ->
                (k < Z.to_nat (num_feeds cyl))%nat ->
      nth (c * Z.to_nat (num_feeds cyl) + k) pos (0, 0) =
      (IZR (Z.of_nat c) * cylinder_width cyl, IZR (Z.of_nat k) * feed_spacing cyl).
Proof.
  intros Hc Hf. unfold feedpositions.
  rewrite feed_positions_list_in_range.
  2: exact Hf.
  2:{ apply Forall_forall. intros i Hi. apply in_map_iff in Hi as (c & <- & Hin).
      apply in_seq in Hin. lia. }
  set (nc := Z.to_nat (num_cylinders cyl)). set (nf := Z.to_nat (num_feeds cyl)).
  set (row := fun c : nat =>
                map (fun k => (IZR (Z.of_nat c) * cylinder_width cyl,
                               IZR (Z.of_nat k) * feed_spacing cyl)) (seq 0 nf)).
  rewrite map_map. fold row.
  assert (Hrow : forall c, length (row c) = nf)
    by (intros c; unfold row; now rewrite length_map, length_seq).
  exists (flat_map row (seq 0 nc)). split; [|split].
  - rewrite <- flat_map_concat_map.
    destruct (map row (seq 0 nc)) eqn:E; [|reflexivity].
    apply (f_equal (@length (list vec2))) in E.
    rewrite length_map, length_seq in E. simpl in E. unfold nc in E. lia.
  - rewrite (flat_map_length_const row _ nf) by (intros; apply Hrow).
    now rewrite length_seq.
  - intros c k Hcn Hkn.
    replace (c * nf)%nat with (length (flat_map row (seq 0 c))).
    2:{ rewrite (flat_map_length_const row _ nf) by (intros; apply Hrow).
        now rewrite length_seq. }
    rewrite nth_flat_map_seq by (rewrite ?Hrow; assumption).
    unfold row.
    rewrite (nth_map_lt _ _ _ _ 0%nat) by now rewrite length_seq.
    now rewrite seq_nth.
Qed.

Lemma feedpositions_no_cylinder cyl :
  (num_cylinders cyl <= 0)%Z -> feedpositions cyl = NumpyError ValueError.
Proof.
  intros H. unfold feedpositions.
  replace (Z.to_nat (num_cylinders cyl)) with 0%nat by lia. reflexivity.
Qed.

Lemma feedpositions_negative_feeds cyl :
  (1 <= num_cylinders cyl)%Z -> (num_feeds cyl < 0)%Z ->
  feedpositions cyl = NumpyError ValueError.
Proof.
  intros Hc Hf. unfold feedpositions.
  destruct (Z.to_nat (num_cylinders cyl)) as [|n] eqn:E; [lia|].
  cbn [seq map feed_positions_list]. unfold feed_positions_cylinder.
  assert ((Z.of_nat 0 >=? num_cylinders cyl)%Z = false) as ->
    by (rewrite Z.geb_leb; apply Z.leb_gt; lia).
  assert ((num_feeds cyl <? 0)%Z = true) as -> by (apply Z.ltb_lt; lia).
  reflexivity.
Qed.

(** X21: [feedpositions] never raises the cylinder-index exception: the indices
    it passes to [feed_positions_cylinder] are in range.  With at least one
    cylinder and a non-negative number of feeds it returns the
    num_cylinders * num_feeds positions cylinder after cylinder, feed k of
    cylinder c at (c * cylinder_width, k * feed_spacing); without a cylinder,
    or with a negative number of feeds, numpy raises [ValueError]. *)
Theorem feedpositions_layout cyl :
  feedpositions cyl <> InvalidCylinder /\
  ((num_cylinders cyl <= 0)%Z -> feedpositions cyl = NumpyError ValueError) /\
  ((1 <= num_cylinders cyl)%Z -> (num_feeds cyl < 0)%Z ->
   feedpositions cyl = NumpyError ValueError) /\
  ((1 <= num_cylinders cyl)%Z -> (0 <= num_feeds cyl)%Z ->
   exists pos,
     feedpositions cyl = Positions pos /\
     length pos = (Z.to_nat (num_cylinders cyl) * Z.to_nat (num_feeds cyl))%nat /\
     forall c k, (c < Z.to_nat (num_cylinders cyl))%nat ->
                 (k < Z.to_nat (num_feeds cyl))%nat ->
       nth (c * Z.to_nat (num_feeds cyl) + k) pos (0, 0) =
       (IZR (Z.of_nat c) * cylinder_width cyl, IZR (Z.of_nat k) * feed_spacing cyl)).
Proof.
  split; [|split; [exact (feedpositions_no_cylinder cyl)
                  | split; [exact (feedpositions_negative_feeds cyl)
                           | exact (feedpositions_grid cyl)]]].
  destruct (Z.le_gt_cases (num_cylinders cyl) 0) as [Hc|Hc].
  - rewrite feedpositions_no_cylinder by exact Hc. discriminate.
  - destruct (Z.lt_ge_cases (num_feeds cyl) 0) as [Hf|Hf].
    + rewrite feedpositions_negative_feeds by lia. discriminate.
    + destruct (feedpositions_grid cyl) as (pos & -> & _); [lia | lia|].
      discriminate.
Qed.

Lemma feedpositions_layout_witness :
  exists pos,
    feedpositions {| num_cylinders := 2; num_feeds := 6;
                     cylinder_width := 20; feed_spacing := 1 / 2 |} = Positions pos /\
    length pos = (Z.to_nat 2 * Z.to_nat 6)%nat /\
    forall c k, (c < Z.to_nat 2)%nat -> (k < Z.to_nat 6)%nat ->
      nth (c * Z.to_nat 6 + k) pos (0, 0) =
      (IZR (Z.of_nat c) * 20, IZR (Z.of_nat k) * (1 / 2)).
Proof.
  apply (feedpositions_layout {| num_cylinders := 2; num_feeds := 6;
                                 cylinder_width := 20; feed_spacing := 1 / 2 |});
    simpl; lia.
Defined.

(** ** The fold on the feed pairs of a cylinder telescope *)

Lemma cylinder_position cyl pos i :
  feedpositions cyl = Positions pos -> (i < length pos)%nat ->
  (0 < Z.to_nat (num_feeds cyl))%nat /\
  nth i pos (0, 0) =
  (IZR (Z.of_nat (i / Z.to_nat (num_feeds cyl))) * cylinder_width cyl,
   IZR (Z.of_nat (i mod Z.to_nat (num_feeds cyl))) * feed_spacing cyl).
Proof.
  intros Hpos Hi.
  destruct (Z.le_gt_cases (num_cylinders cyl) 0) as [Hc|Hc].
  { rewrite feedpositions_no_cylinder in Hpos by exact Hc. discriminate. }
  destruct (Z.lt_ge_cases (num_feeds cyl) 0) as [Hf|Hf].
  { rewrite feedpositions_negative_feeds in Hpos by lia. discriminate. }
  destruct (feedpositions_grid cyl) as (pos' & E & Hlen & Hnth); [lia | lia|].
  rewrite E in Hpos. injection Hpos as ->.
  set (nf := Z.to_nat (num_feeds cyl)) in *.
  assert (Hnf : (0 < nf)%nat) by (destruct nf; [lia | lia]).
  split; [exact Hnf|].
  pose proof (Nat.div_mod_eq i nf) as Hdm.
  pose proof (Nat.mod_upper_bound i nf) as Hmod.
  assert (Hdiv : (i / nf < Z.to_nat (num_cylinders cyl))%nat).
  { apply Nat.Div0.div_lt_upper_bound. lia. }
  rewrite Hdm at 1. rewrite (Nat.mul_comm nf). apply Hnth; [exact Hdiv | lia].
Qed.

Lemma cylinder_pair_fold cyl pos i j :
  feedpositions cyl = Positions pos ->
  0 < cylinder_width cyl -> 0 < feed_spacing cyl ->
  (i < j < length pos)%nat ->
  canonical pos (i, j) = vsub (nth j pos (0, 0)) (nth i pos (0, 0)).
Proof.
  intros Hpos Hw Hs Hij. unfold canonical. cbn [fst snd].
  destruct (cylinder_position cyl pos i Hpos) as [Hnf Hi]; [lia|].
  destruct (cylinder_position cyl pos j Hpos) as [_ Hj]; [lia|].
  rewrite Hi, Hj. set (nf := Z.to_nat (num_feeds cyl)) in *.
  pose proof (Nat.div_mod_eq i nf) as Hdi.
  pose proof (Nat.div_mod_eq j nf) as Hdj.
  pose proof (Nat.mod_upper_bound i nf) as Hmi.
  pose proof (Nat.mod_upper_bound j nf) as Hmj.
  assert (Hle : (i / nf <= j / nf)%nat) by (apply Nat.Div0.div_le_mono; lia).
  set (ci := (i / nf)%nat) in *. set (cj := (j / nf)%nat) in *.
  set (ki := (i mod nf)%nat) in *. set (kj := (j mod nf)%nat) in *.
  unfold vsub. cbn [fst snd].
  destruct (Nat.eq_dec ci cj) as [Ec|Ec].
  - rewrite Ec.
    replace (IZR (Z.of_nat cj) * cylinder_width cyl
             - IZR (Z.of_nat cj) * cylinder_width cyl) with 0 by ring.
    assert (Hk : (ki < kj)%nat) by nia.
    assert (HK : IZR (Z.of_nat ki) < IZR (Z.of_nat kj)) by (apply IZR_lt; lia).
    rewrite half_plane_row_axis_low by nra. f_equal. ring.
  - assert (Hc : IZR (Z.of_nat ci) < IZR (Z.of_nat cj)) by (apply IZR_lt; lia).
    rewrite half_plane_row_left by nra. f_equal; ring.
Qed.

(** X22: On the feed pairs (i, j), i < j, of a cylinder telescope with positive
    cylinder width and feed spacing the fold of [_get_unique] is the plain
    negation: the representative of the pair is the position of feed j
    minus the position of feed i.  So two pairs get the same representative
    (and end up in the same unique baseline) exactly when their separations
    are equal. *)
Theorem cylinder_pairs_fold_by_negation cyl pos :
  feedpositions cyl = Positions pos ->
  0 < cylinder_width cyl -> 0 < feed_spacing cyl ->
  forall i j k l, (i < j < length pos)%nat -> (k < l < length pos)%nat ->
    canonical pos (i, j) = vsub (nth j pos (0, 0)) (nth i pos (0, 0)) /\
    (canonical pos (i, j) = canonical pos (k, l) <->
     vsub (nth i pos (0, 0)) (nth j pos (0, 0)) =
     vsub (nth k pos (0, 0)) (nth l pos (0, 0))).
Proof.
  intros Hpos Hw Hs i j k l Hij Hkl.
  rewrite (cylinder_pair_fold cyl pos i j Hpos Hw Hs Hij).
  rewrite (cylinder_pair_fold cyl pos k l Hpos Hw Hs Hkl).
  split; [reflexivity|].
  destruct (nth i pos (0, 0)) as [ui vi], (nth j pos (0, 0)) as [uj vj],
    (nth k pos (0, 0)) as [uk vk], (nth l pos (0, 0)) as [ul vl].
  unfold vsub. cbn [fst snd]. rewrite !vec2_eq. split; intros [H1 H2]; split; lra.
Qed.

Lemma cylinder_pairs_fold_by_negation_witness :
  canonical [(0 * 20, 0 * (1 / 2)); (0 * 20, 1 * (1 / 2));
             (1 * 20, 0 * (1 / 2)); (1 * 20, 1 * (1 / 2))] (0, 1)%nat =
    vsub (0 * 20, 1 * (1 / 2)) (0 * 20, 0 * (1 / 2)) /\
  (canonical [(0 * 20, 0 * (1 / 2)); (0 * 20, 1 * (1 / 2));
              (1 * 20, 0 * (1 / 2)); (1 * 20, 1 * (1 / 2))] (0, 1)%nat =
   canonical [(0 * 20, 0 * (1 / 2)); (0 * 20, 1 * (1 / 2));
              (1 * 20, 0 * (1 / 2)); (1 * 20, 1 * (1 / 2))] (2, 3)%nat <->
   vsub (0 * 20, 0 * (1 / 2)) (0 * 20, 1 * (1 / 2)) =
   vsub (1 * 20, 0 * (1 / 2)) (1 * 20, 1 * (1 / 2))).
Proof.
  apply (cylinder_pairs_fold_by_negation
           {| num_cylinders := 2; num_feeds := 2;
              cylinder_width := 20; feed_spacing := 1 / 2 |}
           [(0 * 20, 0 * (1 / 2)); (0 * 20, 1 * (1 / 2));
            (1 * 20, 0 * (1 / 2)); (1 * 20, 1 * (1 / 2))]
           eq_refl ltac:(simpl; lra) ltac:(simpl; lra) 0%nat 1%nat 2%nat 3%nat);
    simpl; lia.
Defined.

(** ** The frequency bands and their wavelengths *)

Lemma last_item_last {A : Type} (l : list A) d :
  l <> [] -> last_item l = Ok (nth (length l - 1) l d).
Proof.
  intros Hne. destruct (exists_last Hne) as (l' & a & ->).
  unfold last_item. rewrite rev_app_distr. simpl.
  rewrite length_app. simpl.
  replace (length l' + 1 - 1)%nat with (length l' + 0)%nat by lia.
  now rewrite app_nth2_plus.
Qed.

Lemma linspace_samples lo hi num :
  (1 <= num)%Z -> lo <= hi ->
  exists freqs,
    np_linspace lo hi num = Ok freqs /\
    length freqs = Z.to_nat num /\
    nth 0 freqs 0 = lo /\
    nth (Z.to_nat num - 1) freqs 0 = (if (num =? 1)%Z then lo else hi) /\
    (forall i j, (i <= j < Z.to_nat num)%nat -> nth i freqs 0 <= nth j freqs 0).
Proof.
  intros Hn Hle. unfold np_linspace.
  assert ((num <? 0)%Z = false) as -> by (apply Z.ltb_ge; lia).
  destruct (num =? 1)%Z eqn:E1.
  - apply Z.eqb_eq in E1. subst num. exists [lo]. simpl.
    repeat split; try reflexivity.
    intros i j Hij. assert (i = 0%nat) as -> by lia.
    assert (j = 0%nat) as -> by lia. simpl. lra.
  - apply Z.eqb_neq in E1.
    set (n := Z.to_nat num).
    set (step := (hi - lo) / IZR (num - 1)).
    assert (Hd : 0 < IZR (num - 1)) by (apply IZR_lt; lia).
    assert (Hstep : 0 <= step).
    { unfold step. apply Rmult_le_pos; [lra|]. left. now apply Rinv_0_lt_compat. }
    assert (Hnth : forall i, (i < n)%nat ->
              nth i (map (fun i => lo + IZR (Z.of_nat i) * step) (seq 0 n)) 0 =
              lo + IZR (Z.of_nat i) * step).
    { intros i Hi. rewrite (nth_map_lt _ _ _ _ 0%nat) by now rewrite length_seq.
      now rewrite seq_nth. }
    eexists. split; [reflexivity|]. fold step. fold n.
    split; [now rewrite length_map, length_seq|]. split; [|split].
    + rewrite Hnth by (unfold n; lia). simpl. ring.
    + rewrite Hnth by (unfold n; lia).
      replace (Z.of_nat (n - 1)) with (num - 1)%Z by (unfold n; lia).
      unfold step. field. lra.
    + intros i j Hij. rewrite !Hnth by lia.
      assert (IZR (Z.of_nat i) <= IZR (Z.of_nat j)) by (apply IZR_le; lia).
      nra.
Qed.

(** X23: For at least one band and 0 < freq_lower <= freq_upper,
    [calculate_frequencies] returns num_freq frequencies in ascending order
    from freq_lower to freq_upper (the single band is freq_lower); for a
    positive speed of light the wavelengths are positive and the last one,
    at which the telescope's bandlimits are evaluated, is the shortest. *)
Theorem frequencies_ascending_wavelengths_descending lo hi num c :
  (1 <= num)%Z -> 0 < lo -> lo <= hi -> 0 < c ->
  exists freqs,
    calculate_frequencies lo hi num = Ok freqs /\
    length freqs = Z.to_nat num /\
    nth 0 freqs 0 = lo /\
    last_item freqs = Ok (if (num =? 1)%Z then lo else hi) /\
    (forall i j, (i <= j < Z.to_nat num)%nat -> nth i freqs 0 <= nth j freqs 0) /\
    exists wl,
      last_item (band_wavelengths c freqs) = Ok wl /\
      wl = c / (1000000 * (if (num =? 1)%Z then lo else hi)) /\
      forall w, In w (band_wavelengths c freqs) -> 0 < wl <= w.
Proof.
  intros Hn Hlo Hle Hc. unfold calculate_frequencies.
  destruct (linspace_samples lo hi num Hn Hle) as (freqs & E & Hlen & H0 & Hl & Hmono).
  exists freqs. split; [exact E|]. split; [exact Hlen|]. split; [exact H0|].
  assert (Hne : freqs <> []).
  { intros ->. simpl in Hlen. lia. }
  assert (Hlast : last_item freqs = Ok (if (num =? 1)%Z then lo else hi)).
  { rewrite (last_item_last freqs 0 Hne), Hlen. now rewrite Hl. }
  split; [exact Hlast|]. split; [exact Hmono|].
  set (top := if (num =? 1)%Z then lo else hi) in *.
  assert (Htop : 0 < top) by (unfold top; destruct (num =? 1)%Z; lra).
  exists (c / (1000000 * top)). split; [|split; [reflexivity|]].
  - unfold band_wavelengths.
    rewrite (last_item_last _ 0) by (destruct freqs; [congruence | discriminate]).
    rewrite length_map, Hlen.
    rewrite (nth_map_lt _ _ _ _ 0) by lia. now rewrite Hl.
  - intros w Hw. unfold band_wavelengths in Hw.
    apply in_map_iff in Hw as (fr & <- & Hin).
    apply (In_nth _ _ 0) in Hin. destruct Hin as (i & Hi & <-).
    rewrite Hlen in Hi.
    assert (H1 : lo <= nth i freqs 0).
    { rewrite <- H0. apply Hmono. lia. }
    assert (H2 : nth i freqs 0 <= top).
    { rewrite <- Hl. apply Hmono. lia. }
    split.
    + apply Rdiv_lt_0_compat; lra.
    + apply div_le_longer; lra.
Qed.

Lemma frequencies_ascending_wavelengths_descending_witness :
  exists freqs,
    calculate_frequencies 400 800 50 = Ok freqs /\
    length freqs = Z.to_nat 50 /\
    nth 0 freqs 0 = 400 /\
    last_item freqs = Ok (if (50 =? 1)%Z then 400 else 800) /\
    (forall i j, (i <= j < Z.to_nat 50)%nat -> nth i freqs 0 <= nth j freqs 0) /\
    exists wl,
      last_item (band_wavelengths 299792458 freqs) = Ok wl /\
      wl = 299792458 / (1000000 * (if (50 =? 1)%Z then 400 else 800)) /\
      forall w, In w (band_wavelengths 299792458 freqs) -> 0 < wl <= w.
Proof.
  apply (frequencies_ascending_wavelengths_descending 400 800 50 299792458);
    [lia | lra | lra | lra].
Defined.

(** ** The resolution of the grid along a run *)

Lemma resolution_nonneg l : (0 <= resolution l)%Z.
Proof.
  unfold resolution.
  destruct (Z.lt_ge_cases l (-1)) as [H|H].
  - rewrite nside_for_lmax_undefined by exact H. lia.
  - destruct (Z.eq_dec l (-1)) as [->|Hl]; [simpl; lia|].
    rewrite nside_for_lmax_value by lia. cbv zeta.
    destruct (0 <=? _)%Z eqn:E; [|lia]. apply Z.leb_le in E.
    apply Z.pow_nonneg. lia.
Qed.

Lemma resolution_mono l1 l2 : (l1 <= l2)%Z -> (resolution l1 <= resolution l2)%Z.
Proof.
  intros H12. pose proof (resolution_nonneg l2) as H2.
  destruct (Z.lt_ge_cases l1 0) as [H1|H1].
  - assert (E : resolution l1 = 0%Z); [|lia].
    unfold resolution. destruct (Z.lt_ge_cases l1 (-1)) as [H|H].
    + now rewrite nside_for_lmax_undefined by exact H.
    + assert (l1 = -1)%Z as -> by lia. reflexivity.
  - unfold resolution.
    rewrite (nside_for_lmax_value l1), (nside_for_lmax_value l2) by lia.
    cbv zeta.
    set (k1 := Zceil (ln (IZR (l1 + 1) / 3) / ln 2)).
    set (k2 := Zceil (ln (IZR (l2 + 1) / 3) / ln 2)).
    assert (Hk : (k1 <= k2)%Z).
    { apply Zceil_le. pose proof ln_2_pos as HL.
      apply Rmult_le_compat_r; [left; now apply Rinv_0_lt_compat|].
      assert (Ha : 0 < IZR (l1 + 1)) by (apply IZR_lt; lia).
      assert (Hb : IZR (l1 + 1) <= IZR (l2 + 1)) by (apply IZR_le; lia).
      apply ln_le_mono; lra. }
    destruct (0 <=? 1 + k1)%Z eqn:E1; destruct (0 <=? 1 + k2)%Z eqn:E2.
    + apply Z.leb_le in E1, E2. apply Z.pow_le_mono_r; lia.
    + apply Z.leb_le in E1. apply Z.leb_gt in E2. lia.
    + apply Z.leb_le in E2. apply Z.pow_nonneg. lia.
    + lia.
Qed.

Lemma Sorted_map_mono (g : Z -> Z) l :
  (forall a b, (a <= b)%Z -> (g a <= g b)%Z) ->
  Sorted Z.le l -> Sorted Z.le (map g l).
Proof.
  intros Hg. induction 1 as [|x l Hs IH Hhd]; simpl; constructor; [exact IH|].
  destruct Hhd; simpl; constructor. now apply Hg.
Qed.

Lemma kernel_calls_by_argsort (V : Variant) tel (st : vstate V) bl f global_lmax :
  exists lmax k,
    map call_lmax
        (kernel_calls (effects_of (transfer_matrices V tel st bl f global_lmax))) =
    firstn k (map (fun i => nth i lmax 0%Z) (np_argsort lmax)).
Proof.
  unfold transfer_matrices.
  destruct (np_broadcast_arrays bl f) as [[bl' f']|e];
    [|exists [], 0%nat; reflexivity].
  destruct (out_of_range bl' 0 (nbase tel)); [exists [], 0%nat; reflexivity|].
  destruct (out_of_range f' 0 (nfreq tel)); [exists [], 0%nat; reflexivity|].
  set (lmax := request_lmax tel bl' f').
  destruct (choose_lside tel lmax global_lmax) as [lside|e];
    [|exists [], 0%nat; reflexivity].
  destruct (_make_matrix_array V (length bl') lside) as [arr|e];
    [|exists [], 0%nat; reflexivity].
  match goal with
  | |- context [transfer_loop V bl' f' lmax lside (np_argsort lmax) arr ?e st] =>
      pose proof (transfer_loop_trace V bl' f' lmax lside (np_argsort lmax) arr e st)
        as Ht; cbn zeta in Ht; destruct Ht as (_ & k & _ & Hc & _)
  end.
  simpl in Hc. exists lmax, k. rewrite Hc, map_map. simpl.
  now rewrite firstn_map.
Qed.

(** X24: The point of running through the request by ascending bandlimit: the
    resolution the kernel needs never decreases from one invocation to the
    next, for every variant and every request, so the kernel never has to
    go back to a grid it has left. *)
Theorem kernel_resolution_never_decreases (V : Variant) tel (st : vstate V)
  bl f global_lmax :
  Sorted Z.le
    (map (fun c => resolution (call_lmax c))
         (kernel_calls (effects_of (transfer_matrices V tel st bl f global_lmax)))).
Proof.
  destruct (kernel_calls_by_argsort V tel st bl f global_lmax) as (lmax & k & E).
  rewrite <- (map_map call_lmax resolution), E.
  apply Sorted_map_mono; [exact resolution_mono|].
  apply Sorted_firstn. apply np_argsort_sorted.
Qed.

(** ** The polarised transforms *)

Lemma fancy_set_real_component t hp lmax lside :
  (0 <= lmax)%Z ->
  (2 * Z.of_nat (length t) = (lmax + 1) * (lmax + 2))%Z ->
  exists alm,
    fancy_set (repeat (repeat Czero (Z.to_nat (Z.max lside lmax + 1)))
                      (Z.to_nat (Z.max lside lmax + 1)))
              (triu_indices (Z.to_nat (lmax + 1)) 0) t = Ok alm /\
    sphtrans_real (fun _ _ => t) hp lmax lside = Ok (transpose alm).
Proof.
  intros Hl Hlen. pose proof Hlen as Hlen'.
  apply triangle_length in Hlen'; [|exact Hl].
  destruct (sphtrans_real_steps (fun _ _ => t) hp lmax lside Hl Hlen')
    as (alm & Hset & Hres & _).
  exists alm. split; [|exact Hres].
  unfold fancy_set, broadcast_values. rewrite Hlen', Nat.eqb_refl. cbn [bind].
  exact Hset.
Qed.

Lemma sphtrans_real_pol_components map2alm_pol hpmaps lmax lside t0 t1 t2 rest :
  (0 <= lmax)%Z ->
  map2alm_pol hpmaps lmax = t0 :: t1 :: t2 :: rest ->
  (2 * Z.of_nat (length t0) = (lmax + 1) * (lmax + 2))%Z ->
  (2 * Z.of_nat (length t1) = (lmax + 1) * (lmax + 2))%Z ->
  (2 * Z.of_nat (length t2) = (lmax + 1) * (lmax + 2))%Z ->
  exists a0 a1 a2,
    sphtrans_real (fun _ _ => t0) [] lmax lside = Ok a0 /\
    sphtrans_real (fun _ _ => t1) [] lmax lside = Ok a1 /\
    sphtrans_real (fun _ _ => t2) [] lmax lside = Ok a2 /\
    sphtrans_real_pol map2alm_pol hpmaps lmax lside = Ok [a0; a1; a2].
Proof.
  intros Hl Ht H0 H1 H2.
  destruct (fancy_set_real_component t0 [] lmax lside Hl H0) as (m0 & F0 & S0).
  destruct (fancy_set_real_component t1 [] lmax lside Hl H1) as (m1 & F1 & S1).
  destruct (fancy_set_real_component t2 [] lmax lside Hl H2) as (m2 & F2 & S2).
  exists (transpose m0), (transpose m1), (transpose m2).
  split; [exact S0|]. split; [exact S1|]. split; [exact S2|].
  unfold sphtrans_real_pol.
  replace (if (lside <? lmax)%Z then lmax else lside) with (Z.max lside lmax)
    by (destruct (lside <? lmax)%Z eqn:E;
        [apply Z.ltb_lt in E | apply Z.ltb_ge in E]; lia).
  unfold np_zeros2, triu_indices_Z.
  assert ((Z.max lside lmax + 1 <? 0)%Z = false) as -> by (apply Z.ltb_ge; lia).
  assert ((lmax + 1 <? 0)%Z = false) as -> by (apply Z.ltb_ge; lia).
  cbn [orb bind]. rewrite Ht. unfold fill_alms.
  cbn [seq mapM repeat nth_error]. rewrite F0. cbn [bind].
  rewrite F1. cbn [bind]. rewrite F2. reflexivity.
Qed.

Lemma sphtrans_real_pol_entries map2alm_pol hpmaps lmax lside :
  (0 <= lmax)%Z ->
  (3 <= length (map2alm_pol hpmaps lmax))%nat ->
  (forall i, (i < 3)%nat ->
     (2 * Z.of_nat (length (nth i (map2alm_pol hpmaps lmax) []))
      = (lmax + 1) * (lmax + 2))%Z) ->
  exists alms,
    sphtrans_real_pol map2alm_pol hpmaps lmax lside = Ok alms /\
    length alms = 3%nat /\
    forall i, (i < 3)%nat ->
      shape0 (nth i alms []) = Z.to_nat (Z.max lside lmax + 1) /\
      shape1 (nth i alms []) = Z.to_nat (Z.max lside lmax + 1) /\
      (forall l m, (m <= l <= Z.to_nat lmax)%nat ->
         get2 (nth i alms []) l m =
         Ok (nth (alm_index (Z.to_nat lmax) l m)
                 (nth i (map2alm_pol hpmaps lmax) []) Czero)) /\
      (forall l m, (l <= Z.to_nat (Z.max lside lmax))%nat ->
                   (m <= Z.to_nat (Z.max lside lmax))%nat ->
                   (l < m \/ Z.to_nat lmax < l)%nat ->
         get2 (nth i alms []) l m = Ok Czero).
Proof.
  intros Hl Hlen Hpack.
  destruct (map2alm_pol hpmaps lmax) as [|t0 [|t1 [|t2 rest]]] eqn:Et;
    try (simpl in Hlen; lia).
  assert (H0 := Hpack 0%nat ltac:(lia)).
  assert (H1 := Hpack 1%nat ltac:(lia)).
  assert (H2 := Hpack 2%nat ltac:(lia)).
  cbn [nth] in H0, H1, H2.
  destruct (sphtrans_real_pol_components map2alm_pol hpmaps lmax lside
              t0 t1 t2 rest Hl Et H0 H1 H2) as (a0 & a1 & a2 & S0 & S1 & S2 & E).
  exists [a0; a1; a2]. split; [exact E|]. split; [reflexivity|].
  destruct (sphtrans_real_entries (fun _ _ => t0) [] lmax lside Hl H0)
    as (b0 & B0 & P0).
  destruct (sphtrans_real_entries (fun _ _ => t1) [] lmax lside Hl H1)
    as (b1 & B1 & P1).
  destruct (sphtrans_real_entries (fun _ _ => t2) [] lmax lside Hl H2)
    as (b2 & B2 & P2).
  assert (b0 = a0) as -> by congruence.
  assert (b1 = a1) as -> by congruence.
  assert (b2 = a2) as -> by congruence.
  intros i Hi. destruct i as [|[|[|i]]]; [exact P0 | exact P1 | exact P2 | lia].
Qed.

(** X25: When [healpy.map2alm] returns, for a [T, Q, U] triple, three packed
    coefficient arrays, [sphtrans_real_pol] returns three square arrays of
    side [max(lside, lmax) + 1]; the i-th holds the coefficients of the
    i-th output of [healpy.map2alm] at [l, m] for [m <= l <= lmax] and zero
    everywhere else. *)
Theorem sphtrans_real_pol_layout map2alm_pol hpmaps lmax lside :
  (0 <= lmax)%Z ->
  (3 <= length (map2alm_pol hpmaps lmax))%nat ->
  (forall i, (i < 3)%nat ->
     (2 * Z.of_nat (length (nth i (map2alm_pol hpmaps lmax) []))
      = (lmax + 1) * (lmax + 2))%Z) ->
  exists alms,
    sphtrans_real_pol map2alm_pol hpmaps lmax lside = Ok alms /\
    length alms = 3%nat /\
    forall i, (i < 3)%nat ->
      shape0 (nth i alms []) = Z.to_nat (Z.max lside lmax + 1) /\
      shape1 (nth i alms []) = Z.to_nat (Z.max lside lmax + 1) /\
      (forall l m, (m <= l <= Z.to_nat lmax)%nat ->
         get2 (nth i alms []) l m =
         Ok (nth (alm_index (Z.to_nat lmax) l m)
                 (nth i (map2alm_pol hpmaps lmax) []) Czero)) /\
      (forall l m, (l <= Z.to_nat (Z.max lside lmax))%nat ->
                   (m <= Z.to_nat (Z.max lside lmax))%nat ->
                   (l < m \/ Z.to_nat lmax < l)%nat ->
         get2 (nth i alms []) l m = Ok Czero).
Proof. exact (sphtrans_real_pol_entries map2alm_pol hpmaps lmax lside). Qed.

Lemma three_packed_example i :
  (i < 3)%nat ->
  (2 * Z.of_nat (length (nth i three_packed []))
   = (1 + 1) * (1 + 2))%Z.
Proof.
  intros Hi. destruct i as [|[|[|i]]]; [reflexivity | reflexivity | reflexivity | lia].
Qed.

Lemma sphtrans_real_pol_layout_witness :
  exists alms,
    sphtrans_real_pol (fun _ _ => three_packed) [] 1 2 = Ok alms /\
    length alms = 3%nat /\
    forall i, (i < 3)%nat ->
      shape0 (nth i alms []) = Z.to_nat (Z.max 2 1 + 1) /\
      shape1 (nth i alms []) = Z.to_nat (Z.max 2 1 + 1) /\
      (forall l m, (m <= l <= Z.to_nat 1)%nat ->
         get2 (nth i alms []) l m =
         Ok (nth (alm_index (Z.to_nat 1) l m)
                 (nth i three_packed []) Czero)) /\
      (forall l m, (l <= Z.to_nat (Z.max 2 1))%nat ->
                   (m <= Z.to_nat (Z.max 2 1))%nat ->
                   (l < m \/ Z.to_nat 1 < l)%nat ->
         get2 (nth i alms []) l m = Ok Czero).
Proof.
  apply (sphtrans_real_pol_layout
           (fun _ _ => three_packed) [] 1 2).
  - lia.
  - simpl. lia.
  - exact three_packed_example.
Defined.

Lemma complex_component a b n :
  (1 <= n)%nat ->
  shape0 a = n -> shape1 a = n -> shape0 b = n -> shape1 b = n ->
  let blk := add_times_i
               (map2 (@app complex) a (map (alm_neg_row (shape1 a)) a))
               (map2 (@app complex) b (map (alm_neg_row (shape1 b)) b)) in
  shape0 blk = n /\ shape1 blk = (2 * n - 1)%nat /\
  forall l m x y, get2 a l m = Ok x -> get2 b l m = Ok y ->
    get2 blk l m = Ok (Cadd x (Cmul Ci y)).
Proof.
  intros Hn A0 A1 B0 B1. cbn zeta.
  destruct (full_alm_shape a) as [FA0 FA1]; [lia|].
  destruct (full_alm_shape b) as [FB0 FB1]; [lia|].
  cbn zeta in FA0, FA1, FB0, FB1.
  destruct (add_times_i_shape
              (map2 (@app complex) a (map (alm_neg_row (shape1 a)) a))
              (map2 (@app complex) b (map (alm_neg_row (shape1 b)) b))
              n (2 * n - 1)%nat) as [S0 S1]; try lia.
  split; [exact S0|]. split; [exact S1|].
  intros l m x y Hx Hy. apply get2_add_times_i; now apply get2_map2_app.
Qed.

Lemma sphtrans_complex_pol_entries map2alm_pol hpmaps lmax lside :
  (0 <= lmax)%Z ->
  (3 <= length (map2alm_pol (map (map fst) hpmaps) lmax))%nat ->
  (3 <= length (map2alm_pol (map (map snd) hpmaps) lmax))%nat ->
  (forall i, (i < 3)%nat ->
     (2 * Z.of_nat (length (nth i (map2alm_pol (map (map fst) hpmaps) lmax) []))
      = (lmax + 1) * (lmax + 2))%Z) ->
  (forall i, (i < 3)%nat ->
     (2 * Z.of_nat (length (nth i (map2alm_pol (map (map snd) hpmaps) lmax) []))
      = (lmax + 1) * (lmax + 2))%Z) ->
  exists alms,
    sphtrans_complex_pol map2alm_pol hpmaps lmax false lside = Ok alms /\
    length alms = 3%nat /\
    forall i, (i < 3)%nat ->
      shape0 (nth i alms []) = Z.to_nat (Z.max lside lmax + 1) /\
      shape1 (nth i alms []) = (2 * Z.to_nat (Z.max lside lmax + 1) - 1)%nat /\
      forall l m, (m <= l <= Z.to_nat lmax)%nat ->
        get2 (nth i alms []) l m =
        Ok (Cadd (nth (alm_index (Z.to_nat lmax) l m)
                      (nth i (map2alm_pol (map (map fst) hpmaps) lmax) []) Czero)
                 (Cmul Ci (nth (alm_index (Z.to_nat lmax) l m)
                               (nth i (map2alm_pol (map (map snd) hpmaps) lmax) [])
                               Czero))).
Proof.
  intros Hl Hre Him Pre Pim.
  destruct (sphtrans_real_pol_entries map2alm_pol (map (map fst) hpmaps) lmax lside
              Hl Hre Pre) as (res & Er & Lr & Rp).
  destruct (sphtrans_real_pol_entries map2alm_pol (map (map snd) hpmaps) lmax lside
              Hl Him Pim) as (ims & Ei & Li & Ip).
  destruct res as [|a0 [|a1 [|a2 [|]]]]; try discriminate.
  destruct ims as [|b0 [|b1 [|b2 [|]]]]; try discriminate.
  set (n := Z.to_nat (Z.max lside lmax + 1)) in *.
  assert (Hn : (1 <= n)%nat) by (unfold n; lia).
  pose proof (Rp 0%nat ltac:(lia)) as (A00 & A01 & G0 & _).
  pose proof (Rp 1%nat ltac:(lia)) as (A10 & A11 & G1 & _).
  pose proof (Rp 2%nat ltac:(lia)) as (A20 & A21 & G2 & _).
  pose proof (Ip 0%nat ltac:(lia)) as (B00 & B01 & J0 & _).
  pose proof (Ip 1%nat ltac:(lia)) as (B10 & B11 & J1 & _).
  pose proof (Ip 2%nat ltac:(lia)) as (B20 & B21 & J2 & _).
  cbn [nth] in *.
  eexists. split.
  - unfold sphtrans_complex_pol. rewrite Er. cbn [bind mapM].
    rewrite !make_full_alm_value by lia. cbn [bind].
    rewrite Ei. cbn [bind mapM].
    rewrite !make_full_alm_value by lia. cbn [bind map2]. reflexivity.
  - split; [reflexivity|].
    intros i Hi. destruct i as [|[|[|i]]]; [| | |lia]; cbn [nth].
    + destruct (complex_component a0 b0 n Hn A00 A01 B00 B01) as (S0 & S1 & G).
      split; [exact S0|]. split; [exact S1|]. intros l m Hlm. apply G; auto.
    + destruct (complex_component a1 b1 n Hn A10 A11 B10 B11) as (S0 & S1 & G).
      split; [exact S0|]. split; [exact S1|]. intros l m Hlm. apply G; auto.
    + destruct (complex_component a2 b2 n Hn A20 A21 B20 B21) as (S0 & S1 & G).
      split; [exact S0|]. split; [exact S1|]. intros l m Hlm. apply G; auto.
Qed.

(** X26: When [healpy.map2alm] returns three packed coefficient arrays for the
    real parts and for the imaginary parts of a complex [T, Q, U] triple,
    [sphtrans_complex_pol] (in the FFT layout) returns three arrays of
    [s + 1] rows and [2 s + 1] columns, [s = max(lside, lmax)]; entry [l, m],
    [m <= l <= lmax], of the i-th is the i-th coefficient of the real parts
    plus i times the i-th coefficient of the imaginary parts. *)
Theorem sphtrans_complex_pol_layout map2alm_pol hpmaps lmax lside :
  (0 <= lmax)%Z ->
  (3 <= length (map2alm_pol (map (map fst) hpmaps) lmax))%nat ->
  (3 <= length (map2alm_pol (map (map snd) hpmaps) lmax))%nat ->
  (forall i, (i < 3)%nat ->
     (2 * Z.of_nat (length (nth i (map2alm_pol (map (map fst) hpmaps) lmax) []))
      = (lmax + 1) * (lmax + 2))%Z) ->
  (forall i, (i < 3)%nat ->
     (2 * Z.of_nat (length (nth i (map2alm_pol (map (map snd) hpmaps) lmax) []))
      = (lmax + 1) * (lmax + 2))%Z) ->
  exists alms,
    sphtrans_complex_pol map2alm_pol hpmaps lmax false lside = Ok alms /\
    length alms = 3%nat /\
    forall i, (i < 3)%nat ->
      shape0 (nth i alms []) = Z.to_nat (Z.max lside lmax + 1) /\
      shape1 (nth i alms []) = (2 * Z.to_nat (Z.max lside lmax + 1) - 1)%nat /\
      forall l m, (m <= l <= Z.to_nat lmax)%nat ->
        get2 (nth i alms []) l m =
        Ok (Cadd (nth (alm_index (Z.to_nat lmax) l m)
                      (nth i (map2alm_pol (map (map fst) hpmaps) lmax) []) Czero)
                 (Cmul Ci (nth (alm_index (Z.to_nat lmax) l m)
                               (nth i (map2alm_pol (map (map snd) hpmaps) lmax) [])
                               Czero))).
Proof. exact (sphtrans_complex_pol_entries map2alm_pol hpmaps lmax lside). Qed.

Lemma sphtrans_complex_pol_layout_witness :
  exists alms,
    sphtrans_complex_pol (fun _ _ => three_packed) [] 1 false 2
      = Ok alms /\
    length alms = 3%nat /\
    forall i, (i < 3)%nat ->
      shape0 (nth i alms []) = Z.to_nat (Z.max 2 1 + 1) /\
      shape1 (nth i alms []) = (2 * Z.to_nat (Z.max 2 1 + 1) - 1)%nat /\
      forall l m, (m <= l <= Z.to_nat 1)%nat ->
        get2 (nth i alms []) l m =
        Ok (Cadd (nth (alm_index (Z.to_nat 1) l m)
                      (nth i three_packed []) Czero)
                 (Cmul Ci (nth (alm_index (Z.to_nat 1) l m)
                               (nth i three_packed []) Czero))).
Proof.
  apply (sphtrans_complex_pol_layout
           (fun _ _ => three_packed) [] 1 2).
  - lia.
  - simpl. lia.
  - simpl. lia.
  - exact three_packed_example.
  - exact three_packed_example.
Defined.

(** ** The polarised variant inside [transfer_matrices] *)

Lemma Forall_three {A : Type} (P : A -> Prop) (l : list A) d :
  length l = 3%nat -> (forall i, (i < 3)%nat -> P (nth i l d)) -> Forall P l.
Proof.
  intros Hl H. destruct l as [|a [|b [|c [|]]]]; try discriminate.
  repeat constructor; [apply (H 0%nat) | apply (H 1%nat) | apply (H 2%nat)]; lia.
Qed.

Lemma zero_coefficients_pol_packed : packed_output_pol zero_coefficients_pol.
Proof.
  intros hpmaps lmax Hl. unfold zero_coefficients_pol. split; [simpl; lia|].
  intros i Hi. destruct i as [|[|[|i]]]; try lia; cbn [repeat nth];
    now apply zero_coefficients_packed.
Qed.

Section PolarisedRequests.

Variable map2alm_pol : list (list R) -> Z -> list (list complex).
Variable cvIQU : feed_product -> Z -> Z -> Z -> list (list complex).
Hypothesis Hpack : packed_output_pol map2alm_pol.

Local Abbreviation P := (PolarisedTelescope.variant map2alm_pol cvIQU).

Lemma polarised_buffer shape lside :
  (0 <= lside)%Z ->
  exists arr,
    PolarisedTelescope._make_matrix_array shape lside = Ok arr /\
    length arr = shape /\
    Forall (grid33 (Z.to_nat (lside + 1)) (Z.to_nat (2 * lside + 1))) arr.
Proof.
  intros H. unfold PolarisedTelescope._make_matrix_array, np_zeros2.
  assert ((lside + 1 <? 0)%Z = false) as -> by (apply Z.ltb_ge; lia).
  assert ((2 * lside + 1 <? 0)%Z = false) as -> by (apply Z.ltb_ge; lia).
  cbn [orb bind]. eexists. split; [reflexivity|]. split; [apply repeat_length|].
  apply Forall_forall. intros e0 Hin. apply repeat_spec in Hin. subst e0.
  destruct (zeros_shape (Z.to_nat (lside + 1)) (Z.to_nat (2 * lside + 1)))
    as [H0 H1]; [lia|].
  split; [reflexivity|]. repeat constructor; assumption.
Qed.

Lemma polarised_transform hpmaps lmax lside :
  (0 <= lmax)%Z ->
  exists alms,
    sphtrans_complex_pol map2alm_pol hpmaps lmax false lside = Ok alms /\
    length alms = 3%nat /\
    Forall (fun b => shape0 b = Z.to_nat (Z.max lside lmax + 1) /\
                     shape1 b = Z.to_nat (2 * Z.max lside lmax + 1)) alms.
Proof.
  intros Hl.
  destruct (Hpack (map (map fst) hpmaps) lmax Hl) as [Lr Pr].
  destruct (Hpack (map (map snd) hpmaps) lmax Hl) as [Li Pi].
  destruct (sphtrans_complex_pol_entries map2alm_pol hpmaps lmax lside
              Hl Lr Li Pr Pi) as (alms & E & Hlen & Hsh).
  exists alms. split; [exact E|]. split; [exact Hlen|].
  apply (Forall_three _ _ [] Hlen). intros i Hi. cbn beta.
  destruct (Hsh i Hi) as (S0 & S1 & _). split; [exact S0|].
  etransitivity; [exact S1 | lia].
Qed.

Lemma polarised_kernel nside bl f lmax lside :
  (0 <= lmax)%Z ->
  exists n trans,
    nside_for_lmax lmax 1 = Ok n /\
    PolarisedTelescope._transfer_single map2alm_pol cvIQU nside bl f lmax lside =
      (Ok trans, n) /\
    (xx <- sphtrans_complex_pol map2alm_pol (cvIQU XX n bl f) lmax false lside ;;
     xy <- sphtrans_complex_pol map2alm_pol (cvIQU XY n bl f) lmax false lside ;;
     yy <- sphtrans_complex_pol map2alm_pol (cvIQU YY n bl f) lmax false lside ;;
     Ok [xx; xy; yy]) = Ok trans /\
    grid33 (Z.to_nat (Z.max lside lmax + 1)) (Z.to_nat (2 * Z.max lside lmax + 1))
      trans.
Proof.
  intros Hl. destruct (nside_for_lmax_defined lmax 1) as [n Hn]; [lia|].
  destruct (polarised_transform (cvIQU XX n bl f) lmax lside Hl) as (xx & Exx & Lxx & Sxx).
  destruct (polarised_transform (cvIQU XY n bl f) lmax lside Hl) as (xy & Exy & Lxy & Sxy).
  destruct (polarised_transform (cvIQU YY n bl f) lmax lside Hl) as (yy & Eyy & Lyy & Syy).
  exists n, [xx; xy; yy]. split; [exact Hn|]. split; [|split].
  - unfold PolarisedTelescope._transfer_single.
    rewrite refresh_grid_value, Hn, Exx, Exy, Eyy. reflexivity.
  - rewrite Exx, Exy, Eyy. reflexivity.
  - split; [reflexivity|]. repeat constructor; assumption.
Qed.

Lemma polarised_copy_misfit (arr : list PolarisedTelescope.entry) trans ind r c r' c' :
  Forall (grid33 r c) arr -> grid33 r' c' trans ->
  r' <> r -> r' <> 1%nat ->
  exists e, PolarisedTelescope._copy_single_into_array arr trans ind = Raise e.
Proof.
  intros Harr [Hlt Ht] Hr Hr1.
  three_items trans. clear Hlt. forall_items.
  repeat match goal with
         | H : length ?l = 3%nat |- _ => three_items l; clear H
         end.
  forall_items.
  unfold PolarisedTelescope._copy_single_into_array.
  change (seq 0 3) with [0; 1; 2]%nat. cbn [foldM].
  unfold PolarisedTelescope.copy_block at 1. unfold item at 1 2 3.
  cbn [nth_error bind].
  destruct (nth_error arr ind) as [e|] eqn:E; [|cbn [bind]; now exists IndexError].
  cbn [bind]. rewrite Forall_forall in Harr.
  destruct (Harr e (nth_error_In _ _ E)) as [Hle He].
  three_items e. clear Hle. forall_items.
  repeat match goal with
         | H : length ?l = 3%nat |- _ => three_items l; clear H
         end.
  forall_items.
  unfold item at 1 2. cbn [nth_error bind].
  unfold assign_block at 1.
  repeat match goal with
         | H : shape0 _ = _ |- _ => rewrite H
         | H : shape1 _ = _ |- _ => rewrite H
         end.
  assert ((r' =? r)%nat = false) as -> by now apply Nat.eqb_neq.
  assert ((r' =? 1)%nat = false) as -> by now apply Nat.eqb_neq.
  cbn [andb orb bind]. now exists ValueError.
Qed.

Lemma polarised_copy_out_of_range (arr : list PolarisedTelescope.entry)
  trans ind r c :
  grid33 r c trans -> nth_error arr ind = None ->
  PolarisedTelescope._copy_single_into_array arr trans ind = Raise IndexError.
Proof.
  intros [Hlt Ht] Ee.
  three_items trans. clear Hlt. forall_items.
  repeat match goal with
         | H : length ?l = 3%nat |- _ => three_items l; clear H
         end.
  unfold PolarisedTelescope._copy_single_into_array.
  change (seq 0 3) with [0; 1; 2]%nat. cbn [foldM].
  unfold PolarisedTelescope.copy_block at 1. unfold item at 1 2 3.
  cbn [nth_error bind]. rewrite Ee. reflexivity.
Qed.

Lemma polarised_loop_returns bl f lmax lside order :
  (0 <= lside)%Z -> NoDup order ->
  forall arr eff st,
    Forall (grid33 (Z.to_nat (lside + 1)) (Z.to_nat (2 * lside + 1))) arr ->
    (forall i, In i order ->
       (i < length arr)%nat /\ (0 <= nth i lmax 0 <= lside)%Z) ->
    exists arr',
      outcome (transfer_loop P bl f lmax lside order arr eff st) = Ok arr' /\
      length arr' = length arr /\
      Forall (grid33 (Z.to_nat (lside + 1)) (Z.to_nat (2 * lside + 1))) arr' /\
      (forall i, In i order ->
         polarised_block map2alm_pol cvIQU bl f lmax lside i = Ok (nth i arr' [])) /\
      (forall i, ~ In i order -> nth i arr' [] = nth i arr []).
Proof.
  intros Hside. induction order as [|ind order IH];
    intros Hnd arr eff st Harr Hord.
  - exists arr. simpl. repeat split; auto. intros i [].
  - inversion Hnd as [|? ? Hnotin Hnd']; subst.
    destruct (Hord ind (or_introl eq_refl)) as [Hind Hl].
    destruct (polarised_kernel st (nth ind bl 0%Z) (nth ind f 0%Z)
                (nth ind lmax 0%Z) lside) as (n & trans & Hn & Hker & Hval & Hgrid);
      [lia|].
    replace (Z.max lside (nth ind lmax 0%Z)) with lside in Hgrid by lia.
    destruct (nth_error arr ind) as [e|] eqn:Ee;
      [|apply nth_error_None in Ee; lia].
    assert (Hge : grid33 (Z.to_nat (lside + 1)) (Z.to_nat (2 * lside + 1)) e).
    { rewrite Forall_forall in Harr. apply Harr. eapply nth_error_In; eassumption. }
    pose proof (copy_single_value arr trans ind e _ _ Ee Hge Hgrid) as Hcopy.
    destruct (transfer_loop_step_ok P bl f lmax lside ind order arr eff st
                trans n (list_set arr ind trans) Hker Hcopy) as [eff' Hstep].
    rewrite Hstep.
    destruct (IH Hnd' (list_set arr ind trans) eff' n)
      as (arr' & Ho & Hlen & Hsh & Hin & Hout).
    + apply Forall_list_set; assumption.
    + intros i Hi. rewrite list_set_length. apply Hord. now right.
    + exists arr'. split; [exact Ho|]. rewrite list_set_length in Hlen.
      split; [exact Hlen|]. split; [exact Hsh|]. split.
      * intros i [<-|Hi]; [|now apply Hin].
        rewrite (Hout ind Hnotin), nth_list_set_same by exact Hind.
        unfold polarised_block. rewrite Hn. cbn [bind]. exact Hval.
      * intros i Hi. rewrite Hout by (intros H; apply Hi; now right).
        apply nth_list_set_other. intros ->. apply Hi. now left.
Qed.

Lemma polarised_loop_raises bl f lmax lside order :
  (0 <= lside)%Z ->
  (forall i, In i order -> (0 <= nth i lmax 0)%Z) ->
  (exists i, In i order /\ (lside < nth i lmax 0)%Z) ->
  forall arr eff st,
    Forall (grid33 (Z.to_nat (lside + 1)) (Z.to_nat (2 * lside + 1))) arr ->
    exists e, outcome (transfer_loop P bl f lmax lside order arr eff st) = Raise e.
Proof.
  intros Hside. induction order as [|ind order IH];
    intros Hpos (k & Hk & Hbig) arr eff st Harr; [destruct Hk|].
  destruct (polarised_kernel st (nth ind bl 0%Z) (nth ind f 0%Z)
              (nth ind lmax 0%Z) lside) as (n & trans & Hn & Hker & Hval & Hgrid);
    [apply Hpos; now left|].
  destruct (Z.le_gt_cases (nth ind lmax 0%Z) lside) as [Hfit|Hmis].
  - replace (Z.max lside (nth ind lmax 0%Z)) with lside in Hgrid by lia.
    destruct (nth_error arr ind) as [e|] eqn:Ee.
    + assert (Hge : grid33 (Z.to_nat (lside + 1)) (Z.to_nat (2 * lside + 1)) e).
      { rewrite Forall_forall in Harr. apply Harr. eapply nth_error_In; eassumption. }
      pose proof (copy_single_value arr trans ind e _ _ Ee Hge Hgrid) as Hcopy.
      destruct (transfer_loop_step_ok P bl f lmax lside ind order arr eff st
                  trans n (list_set arr ind trans) Hker Hcopy) as [eff' Hstep].
      rewrite Hstep. apply IH.
      * intros i Hi. apply Hpos. now right.
      * exists k. split; [|exact Hbig]. destruct Hk as [->|Hk]; [lia | exact Hk].
      * apply Forall_list_set; assumption.
    + exists IndexError.
      apply (transfer_loop_step_copy_raises P bl f lmax lside ind order arr eff st
               trans n IndexError Hker).
      exact (polarised_copy_out_of_range arr trans ind _ _ Hgrid Ee).
  - replace (Z.max lside (nth ind lmax 0%Z)) with (nth ind lmax 0%Z) in Hgrid by lia.
    destruct (polarised_copy_misfit arr trans ind _ _ _ _ Harr Hgrid) as [e He];
      [lia | lia|].
    exists e.
    apply (transfer_loop_step_copy_raises P bl f lmax lside ind order arr eff st
             trans n e Hker He).
Qed.

Lemma polarised_request_outcome tel nside bl f global_lmax lside :
  length bl = length f ->
  out_of_range bl 0 (nbase tel) = false ->
  out_of_range f 0 (nfreq tel) = false ->
  choose_lside tel (request_lmax tel bl f) global_lmax = Ok lside ->
  (0 <= lside)%Z ->
  (forall k, (k < length bl)%nat -> (0 <= nth k (request_lmax tel bl f) 0)%Z) ->
  ((forall k, (k < length bl)%nat -> (nth k (request_lmax tel bl f) 0 <= lside)%Z) ->
   exists arr,
     outcome (transfer_matrices P tel nside bl f global_lmax) = Ok arr /\
     length arr = length bl /\
     Forall (grid33 (Z.to_nat (lside + 1)) (Z.to_nat (2 * lside + 1))) arr /\
     forall k, (k < length bl)%nat ->
       polarised_block map2alm_pol cvIQU bl f (request_lmax tel bl f) lside k
       = Ok (nth k arr [])) /\
  ((exists k, (k < length bl)%nat /\ (lside < nth k (request_lmax tel bl f) 0)%Z) ->
   exists e, outcome (transfer_matrices P tel nside bl f global_lmax) = Raise e).
Proof.
  intros Hlen Hbl Hf Hside Hs0 Hpos.
  assert (Hstart : exists arr0 eff0,
            length arr0 = length bl /\
            Forall (grid33 (Z.to_nat (lside + 1)) (Z.to_nat (2 * lside + 1))) arr0 /\
            transfer_matrices P tel nside bl f global_lmax =
            transfer_loop P bl f (request_lmax tel bl f) lside
              (np_argsort (request_lmax tel bl f)) arr0 eff0 nside).
  { destruct (polarised_buffer (length bl) lside Hs0) as (arr0 & Ha & Hl0 & Hsh).
    exists arr0. eexists. split; [exact Hl0|]. split; [exact Hsh|].
    unfold transfer_matrices. rewrite (np_broadcast_same_length _ _ Hlen).
    rewrite Hbl, Hf, Hside.
    cbn [_make_matrix_array PolarisedTelescope.variant]. rewrite Ha.
    reflexivity. }
  destruct Hstart as (arr0 & eff0 & Hl0 & Hsh & ->).
  pose proof (np_argsort_perm (request_lmax tel bl f)) as Hperm.
  rewrite request_lmax_length in Hperm by exact Hlen.
  assert (Hmem : forall i, In i (np_argsort (request_lmax tel bl f)) <->
                           (i < length bl)%nat).
  { intros i. split; intros H.
    - apply (Permutation_in _ Hperm) in H. apply in_seq in H. lia.
    - apply (Permutation_in _ (Permutation_sym Hperm)). apply in_seq. lia. }
  split.
  - intros Hfit.
    destruct (polarised_loop_returns bl f (request_lmax tel bl f) lside
                (np_argsort (request_lmax tel bl f)) Hs0) with
      (arr := arr0) (eff := eff0) (st := nside)
      as (arr & Ho & Hl & Hsh' & Hin & _).
    + apply (Permutation_NoDup (Permutation_sym Hperm)). apply seq_NoDup.
    + exact Hsh.
    + intros i Hi. apply Hmem in Hi. rewrite Hl0. split; [exact Hi|].
      split; [now apply Hpos | now apply Hfit].
    + exists arr. split; [exact Ho|]. split; [congruence|]. split; [exact Hsh'|].
      intros k Hk. apply Hin. now apply Hmem.
  - intros (k & Hk & Hbig).
    apply polarised_loop_raises; try assumption.
    + intros i Hi. apply Hpos. now apply Hmem.
    + exists k. split; [now apply Hmem | exact Hbig].
Qed.

End PolarisedRequests.

(** X27: For the polarised variant, with [healpy.map2alm] returning three
    packed coefficient arrays, and a valid request whose per-pair
    bandlimits are not negative, the side length decides the outcome of
    [transfer_matrices] as well: when every per-pair bandlimit is within
    the side length the call returns, for each requested pair, a 3 x 3 grid
    of blocks of shape (lside+1, 2 lside+1), the grid at position k being
    the transforms of the xx, xy and yy products of the pair; when some
    per-pair bandlimit exceeds the side length the call raises. *)
Theorem polarised_request_fits_or_raises map2alm_pol cvIQU tel nside bl f
  global_lmax lside :
  packed_output_pol map2alm_pol ->
  length bl = length f ->
  out_of_range bl 0 (nbase tel) = false ->
  out_of_range f 0 (nfreq tel) = false ->
  choose_lside tel (request_lmax tel bl f) global_lmax = Ok lside ->
  (0 <= lside)%Z ->
  (forall k, (k < length bl)%nat -> (0 <= nth k (request_lmax tel bl f) 0)%Z) ->
  ((forall k, (k < length bl)%nat -> (nth k (request_lmax tel bl f) 0 <= lside)%Z) ->
   exists arr,
     outcome (transfer_matrices (PolarisedTelescope.variant map2alm_pol cvIQU)
                tel nside bl f global_lmax) = Ok arr /\
     length arr = length bl /\
     Forall (grid33 (Z.to_nat (lside + 1)) (Z.to_nat (2 * lside + 1))) arr /\
     forall k, (k < length bl)%nat ->
       polarised_block map2alm_pol cvIQU bl f (request_lmax tel bl f) lside k
       = Ok (nth k arr [])) /\
  ((exists k, (k < length bl)%nat /\ (lside < nth k (request_lmax tel bl f) 0)%Z) ->
   exists e,
     outcome (transfer_matrices (PolarisedTelescope.variant map2alm_pol cvIQU)
                tel nside bl f global_lmax) = Raise e).
Proof.
  intros Hpack.
  exact (polarised_request_outcome map2alm_pol cvIQU Hpack tel nside bl f
           global_lmax lside).
Qed.

Lemma polarised_request_fits_or_raises_witness :
  ((forall k, (k < length [0%Z])%nat ->
      (nth k (request_lmax two_feed_telescope [0%Z] [0%Z]) 0
       <= 2 * lmax_row (0, - (1 / 2))%R (1 / 2) 20)%Z) ->
   exists arr,
     outcome (transfer_matrices
                (PolarisedTelescope.variant zero_coefficients_pol (fun _ _ _ _ => []))
                two_feed_telescope 2%Z [0%Z] [0%Z] false) = Ok arr /\
     length arr = length [0%Z] /\
     Forall (grid33 (Z.to_nat (2 * lmax_row (0, - (1 / 2))%R (1 / 2) 20 + 1))
                    (Z.to_nat (2 * (2 * lmax_row (0, - (1 / 2))%R (1 / 2) 20) + 1)))
            arr /\
     forall k, (k < length [0%Z])%nat ->
       polarised_block zero_coefficients_pol (fun _ _ _ _ => []) [0%Z] [0%Z]
         (request_lmax two_feed_telescope [0%Z] [0%Z])
         (2 * lmax_row (0, - (1 / 2))%R (1 / 2) 20) k
       = Ok (nth k arr [])) /\
  ((exists k, (k < length [0%Z])%nat /\
      (2 * lmax_row (0, - (1 / 2))%R (1 / 2) 20
       < nth k (request_lmax two_feed_telescope [0%Z] [0%Z]) 0)%Z) ->
   exists e,
     outcome (transfer_matrices
                (PolarisedTelescope.variant zero_coefficients_pol (fun _ _ _ _ => []))
                two_feed_telescope 2%Z [0%Z] [0%Z] false) = Raise e).
Proof.
  destruct two_feed_sides as [Hr _]. pose proof two_feed_lmax_row as [H0 _].
  apply (polarised_request_fits_or_raises zero_coefficients_pol (fun _ _ _ _ => [])
           two_feed_telescope 2%Z [0%Z] [0%Z] false
           (2 * lmax_row (0, - (1 / 2))%R (1 / 2) 20)).
  - exact zero_coefficients_pol_packed.
  - reflexivity.
  - reflexivity.
  - reflexivity.
  - unfold choose_lside. rewrite Hr. reflexivity.
  - lia.
  - exact two_feed_request_nonneg.
Defined.

(** ** [TransitTelescope.__init__]: the zenith *)

(** X28: Whatever latitude and longitude (in degrees) the telescope is created
    with, the stored longitude lies in [0, 2 pi) and differs from the given
    one by a whole number of turns; the stored colatitude is pi/2 minus the
    latitude in radians, so it lies in [0, pi] exactly for latitudes
    between -90 and 90 degrees, and is pi/4 for the default of 45. *)
Theorem zenith_normalised latitude longitude :
  0 <= snd (zenith latitude longitude) < 2 * PI /\
  (exists k : Z,
     np_radians longitude = snd (zenith latitude longitude) + 2 * PI * IZR k) /\
  (0 <= fst (zenith latitude longitude) <= PI <-> -90 <= latitude <= 90) /\
  fst (zenith 45 longitude) = PI / 4.
Proof.
  pose proof PI_RGT_0 as Hpi. unfold zenith. cbn [fst snd].
  unfold np_remainder, np_radians.
  set (x := longitude * PI / 180).
  assert (Hf : IZR (Zfloor (x / (2 * PI))) <= x / (2 * PI)
               < IZR (Zfloor (x / (2 * PI))) + 1).
  { unfold Zfloor. rewrite minus_IZR.
    destruct (archimed (x / (2 * PI))) as [H1 H2]. lra. }
  set (q := IZR (Zfloor (x / (2 * PI)))) in *.
  assert (Hx : x = 2 * PI * (x / (2 * PI))) by (field; lra).
  split; [|split; [|split]].
  - split.
    + assert (2 * PI * q <= 2 * PI * (x / (2 * PI)))
        by (apply Rmult_le_compat_l; lra). lra.
    + assert (2 * PI * (x / (2 * PI)) < 2 * PI * (q + 1))
        by (apply Rmult_lt_compat_l; lra). lra.
  - exists (Zfloor (x / (2 * PI))). fold q. ring.
  - split; intros [H1 H2].
    + split; nra.
    + split; nra.
  - field.
Qed.

(** ** The orientation of the baselines of a cylinder telescope *)

Lemma cylinder_pair_sign cyl pos i j :
  feedpositions cyl = Positions pos ->
  0 < cylinder_width cyl -> 0 < feed_spacing cyl ->
  (i < j < length pos)%nat ->
  fst (vsub (nth i pos (0, 0)) (nth j pos (0, 0))) < 0 \/
  (fst (vsub (nth i pos (0, 0)) (nth j pos (0, 0))) = 0 /\
   snd (vsub (nth i pos (0, 0)) (nth j pos (0, 0))) < 0).
Proof.
  intros Hpos Hw Hs Hij.
  destruct (cylinder_position cyl pos i Hpos) as [Hnf Hi]; [lia|].
  destruct (cylinder_position cyl pos j Hpos) as [_ Hj]; [lia|].
  rewrite Hi, Hj. set (nf := Z.to_nat (num_feeds cyl)) in *.
  pose proof (Nat.div_mod_eq i nf) as Hdi.
  pose proof (Nat.div_mod_eq j nf) as Hdj.
  pose proof (Nat.mod_upper_bound i nf) as Hmi.
  pose proof (Nat.mod_upper_bound j nf) as Hmj.
  assert (Hle : (i / nf <= j / nf)%nat) by (apply Nat.Div0.div_le_mono; lia).
  set (ci := (i / nf)%nat) in *. set (cj := (j / nf)%nat) in *.
  set (ki := (i mod nf)%nat) in *. set (kj := (j mod nf)%nat) in *.
  unfold vsub. cbn [fst snd].
  destruct (Nat.eq_dec ci cj) as [Ec|Ec].
  - right. rewrite Ec. split; [ring|].
    assert (Hk : (ki < kj)%nat) by nia.
    assert (HK : IZR (Z.of_nat ki) < IZR (Z.of_nat kj)) by (apply IZR_lt; lia).
    nra.
  - left. assert (Hc : IZR (Z.of_nat ci) < IZR (Z.of_nat cj)) by (apply IZR_lt; lia).
    nra.
Qed.

(** X29: the baselines stored by [calculate_baselines] are the separations
    of the recorded feed pairs as they are, not their half-plane
    representatives.  For a cylinder telescope with positive cylinder width
    and feed spacing every stored baseline therefore points into the
    half plane u <= 0 (with v < 0 on the axis u = 0): it is the negative of
    the representative its redundancy was counted for. *)
Theorem cylinder_baselines_orientation cyl pos :
  feedpositions cyl = Positions pos ->
  0 < cylinder_width cyl -> 0 < feed_spacing cyl ->
  Forall (fun b => (fst b < 0 \/ (fst b = 0 /\ snd b < 0)) /\
                   half_plane_row b = vneg b)
         (_baselines (calculate_baselines pos)).
Proof.
  intros Hpos Hw Hs. unfold calculate_baselines.
  set (fpairs := triu_indices (length pos) 1).
  pose proof (get_unique_pairs pos fpairs) as Hpairs.
  destruct (CylinderTelescope._get_unique pos fpairs) as [upairs red].
  cbn [fst] in Hpairs. cbn [_baselines]. unfold separations.
  apply Forall_map. revert Hpairs. apply Forall_impl. intros [i j] Hin.
  apply in_triu_indices in Hin. cbn [fst snd].
  assert (Hij : (i < j < length pos)%nat) by lia.
  pose proof (cylinder_pair_sign cyl pos i j Hpos Hw Hs Hij) as Hsign.
  split; [exact Hsign|].
  destruct (vsub (nth i pos (0, 0)) (nth j pos (0, 0))) as [u v].
  cbn [fst snd] in Hsign. destruct Hsign as [Hu|[-> Hv]].
  - now rewrite half_plane_row_left.
  - rewrite half_plane_row_axis_low by lra. unfold vneg. cbn [fst snd].
    now rewrite Ropp_0.
Qed.

Lemma cylinder_baselines_orientation_witness :
  Forall (fun b => (fst b < 0 \/ (fst b = 0 /\ snd b < 0)) /\
                   half_plane_row b = vneg b)
         (_baselines (calculate_baselines
                        [(0 * 20, 0 * (1 / 2)); (0 * 20, 1 * (1 / 2));
                         (1 * 20, 0 * (1 / 2)); (1 * 20, 1 * (1 / 2))])).
Proof.
  apply (cylinder_baselines_orientation
           {| num_cylinders := 2; num_feeds := 2;
              cylinder_width := 20; feed_spacing := 1 / 2 |}
           [(0 * 20, 0 * (1 / 2)); (0 * 20, 1 * (1 / 2));
            (1 * 20, 0 * (1 / 2)); (1 * 20, 1 * (1 / 2))]).
  - reflexivity.
  - simpl. lra.
  - simpl. lra.
Defined.

(** ** C7: the order of the kernel invocations *)








(** ** C6: the polarised buffer and the insertion of one kernel result *)

Lemma mapM_in {A B : Type} (f : A -> result B) l vs :
  mapM f l = Ok vs -> forall v, In v vs -> exists a, In a l /\ f a = Ok v.
Proof.
  revert vs. induction l as [|a l IH]; intros vs H v Hv; simpl in H.
  - injection H as <-. destruct Hv.
  - destruct (f a) as [b|] eqn:Ea; [|discriminate]. cbn [bind] in H.
    destruct (mapM f l) as [bs|]; [|discriminate]. cbn [bind] in H.
    injection H as <-. destruct Hv as [<-|Hv].
    + exists a. split; [now left | exact Ea].
    + destruct (IH bs eq_refl v Hv) as (a' & Ha' & E). exists a'. split; [now right | exact E].
Qed.

Lemma in_map2 {A B D : Type} (f : A -> B -> D) l m d :
  In d (map2 f l m) -> exists a b, In a l /\ In b m /\ d = f a b.
Proof.
  revert m. induction l as [|a l IH]; intros [|b m] H; simpl in H;
    try contradiction.
  destruct H as [<-|H].
  - exists a, b. repeat split; now left.
  - destruct (IH m H) as (a' & b' & Ha & Hb & E).
    exists a', b'. repeat split; [now right | now right | exact E].
Qed.

Lemma sphtrans_real_pol_shape map2alm_pol hpmaps lmax lside res :
  (0 <= lmax)%Z ->
  sphtrans_real_pol map2alm_pol hpmaps lmax lside = Ok res ->
  length res = 3%nat /\
  Forall (fun a => shape0 a = Z.to_nat (Z.max lside lmax + 1) /\
                   shape1 a = Z.to_nat (Z.max lside lmax + 1)) res.
Proof.
  intros Hl. unfold sphtrans_real_pol.
  replace (if (lside <? lmax)%Z then lmax else lside) with (Z.max lside lmax)
    by (destruct (lside <? lmax)%Z eqn:E;
        [apply Z.ltb_lt in E | apply Z.ltb_ge in E]; lia).
  set (s := Z.max lside lmax).
  assert (Hs : (0 <= s)%Z) by (unfold s; lia).
  unfold np_zeros2.
  assert ((s + 1 <? 0)%Z = false) as -> by (apply Z.ltb_ge; lia).
  cbn [orb bind].
  destruct (triu_indices_Z (lmax + 1)) as [idx|]; [|discriminate]. cbn [bind].
  unfold fill_alms.
  destruct (mapM _ (seq 0 3)) as [filled|] eqn:E; [|discriminate]. cbn [bind].
  intros H. injection H as <-. split.
  - rewrite length_map. now apply mapM_length in E.
  - apply Forall_map, Forall_forall. intros v Hv.
    destruct (mapM_in _ _ _ E v Hv) as (i & _ & Hi).
    destruct (nth_error (repeat _ 3) i) as [alm|] eqn:Ea; [|discriminate].
    apply nth_error_In, repeat_spec in Ea. subst alm.
    destruct (nth_error (map2alm_pol hpmaps lmax) i) as [tlm|]; [|discriminate].
    unfold fancy_set in Hi.
    destruct (broadcast_values (length idx) tlm) as [vals|]; [|discriminate].
    cbn [bind] in Hi.
    destruct (set_items_shape _ _ _ _ Hi) as [S0 S1].
    destruct (zeros_shape (Z.to_nat (s + 1)) (Z.to_nat (s + 1))) as [Z0 Z1]; [lia|].
    apply transpose_shape; [lia | congruence | congruence].
Qed.

Lemma sphtrans_complex_pol_shape map2alm_pol hpmaps lmax lside alms :
  (0 <= lmax)%Z ->
  sphtrans_complex_pol map2alm_pol hpmaps lmax false lside = Ok alms ->
  length alms = 3%nat /\
  Forall (fun b => shape0 b = Z.to_nat (Z.max lside lmax + 1) /\
                   shape1 b = Z.to_nat (2 * Z.max lside lmax + 1)) alms.
Proof.
  intros Hl H.
  split; [exact (sphtrans_complex_pol_length _ _ _ _ _ _ H)|].
  revert H. unfold sphtrans_complex_pol.
  destruct (sphtrans_real_pol map2alm_pol (map (map fst) hpmaps) lmax lside)
    as [res|] eqn:Er; [|discriminate]. cbn [bind].
  destruct (mapM _ res) as [rlms|] eqn:Erl; [|discriminate]. cbn [bind].
  destruct (sphtrans_real_pol map2alm_pol (map (map snd) hpmaps) lmax lside)
    as [ims|] eqn:Ei; [|discriminate]. cbn [bind].
  destruct (mapM _ ims) as [ilms|] eqn:Eil; [|discriminate]. cbn [bind].
  intros H. injection H as <-.
  destruct (sphtrans_real_pol_shape _ _ _ _ _ Hl Er) as [_ Rs].
  destruct (sphtrans_real_pol_shape _ _ _ _ _ Hl Ei) as [_ Is].
  rewrite Forall_forall in Rs, Is.
  set (n := Z.to_nat (Z.max lside lmax + 1)) in *.
  assert (Hn : (1 <= n)%nat) by (unfold n; lia).
  apply Forall_forall. intros blk Hblk.
  apply in_map2 in Hblk. destruct Hblk as (rlm & ilm & Hr & Hi & ->).
  destruct (mapM_in _ _ _ Erl rlm Hr) as (re & Hre & Fre).
  destruct (mapM_in _ _ _ Eil ilm Hi) as (im & Him & Fim).
  destruct (Rs re Hre) as [R0 R1]. destruct (Is im Him) as [I0 I1].
  destruct (make_full_alm_shape re rlm n Hn R0 R1 Fre) as [FR0 FR1].
  destruct (make_full_alm_shape im ilm n Hn I0 I1 Fim) as [FI0 FI1].
  destruct (add_times_i_shape rlm ilm n (2 * n - 1)%nat Hn FR0 FR1 FI0 FI1)
    as [S0 S1].
  split; [exact S0|]. etransitivity; [exact S1 | unfold n; lia].
Qed.

Lemma polarised_copy_wrong_side (arr : list PolarisedTelescope.entry)
  trans ind e r c r' c' :
  nth_error arr ind = Some e -> grid33 r c e -> grid33 r' c' trans ->
  r' <> r -> r' <> 1%nat ->
  PolarisedTelescope._copy_single_into_array arr trans ind = Raise ValueError.
Proof.
  intros E [Hle He] [Hlt Ht] Hr Hr1.
  three_items trans. three_items e. clear Hlt Hle. forall_items.
  repeat match goal with
         | H : length ?l = 3%nat |- _ => three_items l; clear H
         end.
  forall_items.
  unfold PolarisedTelescope._copy_single_into_array.
  change (seq 0 3) with [0; 1; 2]%nat. cbn [foldM].
  unfold PolarisedTelescope.copy_block at 1. unfold item at 1 2 3.
  cbn [nth_error bind]. rewrite E. cbn [bind].
  unfold item at 1 2. cbn [nth_error bind].
  unfold assign_block at 1.
  repeat match goal with
         | H : shape0 _ = _ |- _ => rewrite H
         | H : shape1 _ = _ |- _ => rewrite H
         end.
  assert ((r' =? r)%nat = false) as -> by now apply Nat.eqb_neq.
  assert ((r' =? 1)%nat = false) as -> by now apply Nat.eqb_neq.
  reflexivity.
Qed.

Lemma grid33_slot r c (e : list (list ndarray2)) pi pj :
  grid33 r c e -> (pi < 3)%nat -> (pj < 3)%nat ->
  exists blk,
    (row <- item e pi ;; item row pj) = Ok blk /\ shape0 blk = r /\ shape1 blk = c.
Proof.
  intros [Hle He] Hpi Hpj.
  three_items e. clear Hle. forall_items.
  repeat match goal with
         | H : length ?l = 3%nat |- _ => three_items l; clear H
         end.
  forall_items.
  destruct pi as [|[|[|pi]]]; [| | |lia];
    (destruct pj as [|[|[|pj]]]; [| | |lia]);
    eexists; (split; [reflexivity|]); split; assumption.
Qed.

(** C6, amended: the polarised buffer holds, for each requested pair, a
    3 x 3 grid of zero blocks of shape (lside+1, 2 lside+1).  A result the
    kernel returns for a pair of bandlimit lmax >= 0 is the list of the
    transforms of the xx, xy and yy products, each a triple.  If
    lmax <= lside its nine blocks have the shape of the buffer's blocks and
    the insertion writes all nine blocks of the pair's grid: slot (pi, pj)
    receives [tsingle[pi][pj]], the pj-th component of the transform of the
    pi-th feed product, and the grids of the other pairs are left as they
    were.  If lmax > lside the blocks are larger than the buffer's and the
    insertion raises [ValueError] at its first block: no buffer is
    returned. *)
Theorem polarised_insert_fills_entry map2alm_pol cvIQU (shape : nat) (lside : Z)
  (arr : list PolarisedTelescope.entry) ind e nside bl f lmax trans nside' :
  (0 <= lside)%Z -> (0 <= lmax)%Z ->
  nth_error arr ind = Some e ->
  grid33 (Z.to_nat (lside + 1)) (Z.to_nat (2 * lside + 1)) e ->
  PolarisedTelescope._transfer_single map2alm_pol cvIQU nside bl f lmax lside =
    (Ok trans, nside') ->
  (exists arr0,
     PolarisedTelescope._make_matrix_array shape lside = Ok arr0 /\
     length arr0 = shape /\
     Forall (fun e0 =>
               grid33 (Z.to_nat (lside + 1)) (Z.to_nat (2 * lside + 1)) e0 /\
               e0 = repeat (repeat (repeat (repeat Czero (Z.to_nat (2 * lside + 1)))
                                           (Z.to_nat (lside + 1))) 3) 3) arr0) /\
  (exists xx xy yy,
     trans = [xx; xy; yy] /\
     sphtrans_complex_pol map2alm_pol (cvIQU XX nside' bl f) lmax false lside = Ok xx /\
     sphtrans_complex_pol map2alm_pol (cvIQU XY nside' bl f) lmax false lside = Ok xy /\
     sphtrans_complex_pol map2alm_pol (cvIQU YY nside' bl f) lmax false lside = Ok yy) /\
  ((lmax <= lside)%Z ->
   exists arr',
     PolarisedTelescope._copy_single_into_array arr trans ind = Ok arr' /\
     length arr' = length arr /\
     (forall pi pj, slot arr' ind pi pj = (row <- item trans pi ;; item row pj)) /\
     (forall pi pj, (pi < 3)%nat -> (pj < 3)%nat ->
        exists blk, slot arr' ind pi pj = Ok blk /\
                    shape0 blk = Z.to_nat (lside + 1) /\
                    shape1 blk = Z.to_nat (2 * lside + 1)) /\
     (forall i, i <> ind -> nth_error arr' i = nth_error arr i)) /\
  ((lside < lmax)%Z ->
   PolarisedTelescope._copy_single_into_array arr trans ind = Raise ValueError).
Proof.
  intros Hs Hl Harr He Hker.
  destruct (polarised_kernel_result _ _ _ _ _ _ _ _ _ Hker)
    as (xx & xy & yy & -> & Exx & Exy & Eyy & Lxx & Lxy & Lyy).
  destruct (sphtrans_complex_pol_shape _ _ _ _ _ Hl Exx) as [_ Sxx].
  destruct (sphtrans_complex_pol_shape _ _ _ _ _ Hl Exy) as [_ Sxy].
  destruct (sphtrans_complex_pol_shape _ _ _ _ _ Hl Eyy) as [_ Syy].
  assert (Hgrid : grid33 (Z.to_nat (Z.max lside lmax + 1))
                         (Z.to_nat (2 * Z.max lside lmax + 1)) [xx; xy; yy]).
  { split; [reflexivity|]. repeat constructor; assumption. }
  assert (Hind : (ind < length arr)%nat) by (apply nth_error_Some; congruence).
  split; [|split; [|split]].
  - unfold PolarisedTelescope._make_matrix_array, np_zeros2.
    assert ((lside + 1 <? 0)%Z = false) as -> by (apply Z.ltb_ge; lia).
    assert ((2 * lside + 1 <? 0)%Z = false) as -> by (apply Z.ltb_ge; lia).
    cbn [orb bind]. eexists. split; [reflexivity|]. split; [apply repeat_length|].
    apply Forall_forall. intros e0 Hin. apply repeat_spec in Hin. subst e0.
    split; [|reflexivity].
    destruct (zeros_shape (Z.to_nat (lside + 1)) (Z.to_nat (2 * lside + 1)))
      as [H0 H1]; [lia|].
    split; [reflexivity|]. repeat constructor; assumption.
  - exists xx, xy, yy. repeat split; assumption.
  - intros Hfit.
    replace (Z.max lside lmax) with lside in Hgrid by lia.
    exists (list_set arr ind [xx; xy; yy]).
    split; [eapply copy_single_value; eassumption|].
    split; [apply list_set_length|].
    assert (Hslot : forall pi pj,
              slot (list_set arr ind [xx; xy; yy]) ind pi pj =
              (row <- item [xx; xy; yy] pi ;; item row pj)).
    { intros pi pj. unfold slot, item at 1. now rewrite list_set_same. }
    split; [exact Hslot|]. split.
    + intros pi pj Hpi Hpj. rewrite Hslot. now apply (grid33_slot _ _ _ _ _ Hgrid).
    + intros i Hi. now apply list_set_other.
  - intros Hmis.
    replace (Z.max lside lmax) with lmax in Hgrid by lia.
    apply (polarised_copy_wrong_side arr [xx; xy; yy] ind e _ _ _ _ Harr He Hgrid);
      lia.
Qed.

Lemma polarised_insert_fills_entry_witness :
  exists trans nside',
    PolarisedTelescope._transfer_single zero_coefficients_pol (fun _ _ _ _ => [])
      2 0 0 0 0 = (Ok trans, nside') /\
    (exists arr0,
       PolarisedTelescope._make_matrix_array 1 0 = Ok arr0 /\
       length arr0 = 1%nat /\
       Forall (fun e0 =>
                 grid33 (Z.to_nat (0 + 1)) (Z.to_nat (2 * 0 + 1)) e0 /\
                 e0 = repeat (repeat (repeat (repeat Czero (Z.to_nat (2 * 0 + 1)))
                                             (Z.to_nat (0 + 1))) 3) 3) arr0) /\
    (exists xx xy yy,
       trans = [xx; xy; yy] /\
       sphtrans_complex_pol zero_coefficients_pol [] 0 false 0 = Ok xx /\
       sphtrans_complex_pol zero_coefficients_pol [] 0 false 0 = Ok xy /\
       sphtrans_complex_pol zero_coefficients_pol [] 0 false 0 = Ok yy) /\
    ((0 <= 0)%Z ->
     exists arr',
       PolarisedTelescope._copy_single_into_array
         [repeat (repeat [[Czero]] 3) 3] trans 0 = Ok arr' /\
       length arr' = length [repeat (repeat [[Czero]] 3) 3] /\
       (forall pi pj, slot arr' 0 pi pj = (row <- item trans pi ;; item row pj)) /\
       (forall pi pj, (pi < 3)%nat -> (pj < 3)%nat ->
          exists blk, slot arr' 0 pi pj = Ok blk /\
                      shape0 blk = Z.to_nat (0 + 1) /\
                      shape1 blk = Z.to_nat (2 * 0 + 1)) /\
       (forall i, i <> 0%nat ->
          nth_error arr' i = nth_error [repeat (repeat [[Czero]] 3) 3] i)) /\
    ((0 < 0)%Z ->
     PolarisedTelescope._copy_single_into_array
       [repeat (repeat [[Czero]] 3) 3] trans 0 = Raise ValueError).
Proof.
  destruct (polarised_kernel zero_coefficients_pol (fun _ _ _ _ => [])
              zero_coefficients_pol_packed 2 0 0 0 0) as (n & trans & _ & Hker & _);
    [lia|].
  exists trans, n. split; [exact Hker|].
  apply (polarised_insert_fills_entry zero_coefficients_pol (fun _ _ _ _ => [])
           1 0 [repeat (repeat [[Czero]] 3) 3] 0 (repeat (repeat [[Czero]] 3) 3)
           2 0 0 0 trans n).
  - lia.
  - lia.
  - reflexivity.
  - split; [reflexivity|]. repeat constructor.
  - exact Hker.
Defined.
